(** * The LP file reader of HiGHS: classifier, section splitter and section
      processors

    A shallow embedding of [extern/filereaderlp/reader.cpp].  The development
    starts at the raw-token vector that the lexer leaves in
    [Reader::rawtokens], and follows the reader through [processtokens],
    [splittokens] and [processsections] to the model held by the builder.
    The lexer ([tokenize], [readnexttoken]) is embedded on its own, over the
    lines of the file, with [strtod] of the C library as a parameter.

    Conventions.
    - A C++ [double] is a binary64 primitive float.
    - A token vector is a list, a cursor [i] is a [nat], and a test
      [v.size() - i >= n && v[i]->type == ... && v[i+n-1]->type == ...]
      is a match on the lookups [v !! i], ..., [v !! (i+n-1)]: every cursor of
      the reader stays at or below the size of its vector, so the unsigned
      subtraction never wraps.
    - A token object is its type tag together with the payload of the struct
      it was constructed as.
    - A [std::shared_ptr<Variable>] is the name the variable was interned
      under; the objects live in the builder's map, so a write through one
      pointer is seen through all of them.  [read_tokens] returns the
      builder: the model together with the objects its pointers refer to.
    - A failed [lpassert] aborts the read ([ParseError]); a read through a
      pointer cast to a struct the token was not constructed as is
      [UndefinedBehaviour]; loops carry fuel, and [read_tokens] is shown
      never to return [OutOfFuel]. *)

From Stdlib Require Import PrimFloat Ascii.
From stdpp Require Import gmap strings list functions.
From stdpp Require relations.

(** ** Outcomes *)

Inductive error := ParseError | UndefinedBehaviour | OutOfFuel.

Inductive result (A : Type) :=
| Ok (a : A)
| Err (e : error).
Arguments Ok {A} a.
Arguments Err {A} e.

Definition bind {A B} (m : result A) (f : A -> result B) : result B :=
  match m with
  | Ok a => f a
  | Err e => Err e
  end.

Notation "'do' x <- m ; k" := (bind m (fun x => k))
  (at level 10, x pattern, m at level 100, k at level 200).
Notation "m ;; k" := (bind m (fun _ => k))
  (at level 100, k at level 200, right associativity).

(** Modelled from the spec: [lpassert] lives in [def.hpp], which is not part
    of the sources at hand; a failed assertion raises the parse-error
    condition and no model is returned. *)
Definition lpassert (condition : bool) : result unit :=
  if condition then Ok tt else Err ParseError.

(** ** Tokens *)

Module Raw.
Inductive RawToken :=
| NONE
| STR (value : string)
| CONS (value : float)
| LESS
| GREATER
| EQUAL
| COLON
| LNEND
| FLEND
| BRKOP
| BRKCL
| PLUS
| MINUS
| HAT
| SLASH
| ASTERISK.
End Raw.
Abbreviation RawToken := Raw.RawToken.

Inductive LpSectionKeyword := NONE | OBJ | CON | BOUNDS | GEN | BIN | SEMI | SOS | END.

Module ObjKw.
Inductive LpObjectiveSectionKeywordType := NONE | MIN | MAX.
End ObjKw.
Abbreviation LpObjectiveSectionKeywordType := ObjKw.LpObjectiveSectionKeywordType.

Inductive LpComparisonType := LEQ | L | EQ | G | GEQ.

#[global] Instance LpSectionKeyword_eq_dec : EqDecision LpSectionKeyword.
Proof. solve_decision. Defined.
#[global] Instance LpObjectiveSectionKeywordType_eq_dec :
  EqDecision LpObjectiveSectionKeywordType.
Proof. solve_decision. Defined.
#[global] Instance LpComparisonType_eq_dec : EqDecision LpComparisonType.
Proof. solve_decision. Defined.

(** [SECID k] is a [ProcessedTokenSectionKeyword], [SECID_OBJ s] a
    [ProcessedTokenObjectiveSectionKeyword] (whose keyword is [OBJ]); the
    constructors without payload are plain [ProcessedToken]s. *)
Inductive ProcessedToken :=
| SECID (keyword : LpSectionKeyword)
| SECID_OBJ (objsense : LpObjectiveSectionKeywordType)
| VARID (name : string)
| CONID (name : string)
| CONST (value : float)
| FREE
| BRKOP
| BRKCL
| COMP (dir : LpComparisonType)
| SLASH
| ASTERISK
| HAT
| SOSTYPE (type : string).

(** ** Keywords *)

(** Modelled from the spec: the keyword tables [LP_KEYWORD_*] are declared in
    [def.hpp], which is not part of the sources at hand; the entries are the
    accepted forms of the spec's section keyword table and of its [free] and
    [infinity]/[inf] productions. *)
Definition LP_KEYWORD_MIN : list string := ["minimize"; "minimum"; "min"].
Definition LP_KEYWORD_MAX : list string := ["maximize"; "maximum"; "max"].
Definition LP_KEYWORD_ST : list string := ["subject to"; "such that"; "st"; "s.t."].
Definition LP_KEYWORD_BOUNDS : list string := ["bounds"; "bound"].
Definition LP_KEYWORD_INF : list string := ["infinity"; "inf"].
Definition LP_KEYWORD_FREE : list string := ["free"].
Definition LP_KEYWORD_GEN : list string := ["general"; "generals"; "gen"].
Definition LP_KEYWORD_BIN : list string := ["binary"; "binaries"; "bin"].
Definition LP_KEYWORD_SEMI : list string := ["semi-continuous"; "semi"].
Definition LP_KEYWORD_SOS : list string := ["sos"].
Definition LP_KEYWORD_END : list string := ["end"].

(** [tolower] of the C locale. *)
Definition tolower (c : Ascii.ascii) : Ascii.ascii :=
  let n := Ascii.nat_of_ascii c in
  if (65 <=? n)%nat && (n <=? 90)%nat then Ascii.ascii_of_nat (n + 32) else c.

Fixpoint isstrequalnocase_from (str1 str2 : string) : bool :=
  match str1, str2 with
  | String c1 r1, String c2 r2 =>
      if decide (tolower c1 = tolower c2) then isstrequalnocase_from r1 r2 else false
  | _, _ => true
  end.

Definition isstrequalnocase (str1 str2 : string) : bool :=
  let len := String.length str1 in
  if negb (String.length str2 =? len)%nat then false
  else isstrequalnocase_from str1 str2.

Definition iskeyword (str : string) (keywords : list string) : bool :=
  existsb (isstrequalnocase str) keywords.

Definition parseobjectivesectionkeyword (str : string) : LpObjectiveSectionKeywordType :=
  if iskeyword str LP_KEYWORD_MIN then ObjKw.MIN
  else if iskeyword str LP_KEYWORD_MAX then ObjKw.MAX
  else ObjKw.NONE.

Definition parsesectionkeyword (str : string) : LpSectionKeyword :=
  if decide (parseobjectivesectionkeyword str <> ObjKw.NONE) then OBJ
  else if iskeyword str LP_KEYWORD_ST then CON
  else if iskeyword str LP_KEYWORD_BOUNDS then BOUNDS
  else if iskeyword str LP_KEYWORD_BIN then BIN
  else if iskeyword str LP_KEYWORD_GEN then GEN
  else if iskeyword str LP_KEYWORD_SEMI then SEMI
  else if iskeyword str LP_KEYWORD_SOS then SOS
  else if iskeyword str LP_KEYWORD_END then END
  else NONE.

(** ** The classifier: [Reader::processtokens] *)

(** One alternative of the loop body: [Some (out, i')] when its test holds
    (the tokens pushed and the advanced cursor, followed by [continue] in the
    source), [None] when control falls through to the next alternative. *)
Definition alternative := list RawToken -> nat -> option (list ProcessedToken * nat).

Definition alt_keyword_hyphen : alternative := fun rawtokens i =>
  match rawtokens !! i, rawtokens !! (i + 1), rawtokens !! (i + 2) with
  | Some (Raw.STR a), Some Raw.MINUS, Some (Raw.STR b) =>
      let temp := a +:+ "-" +:+ b in
      let keyword := parsesectionkeyword temp in
      if decide (keyword <> NONE) then Some ([SECID keyword], i + 3) else None
  | _, _, _ => None
  end.

Definition alt_keyword_space : alternative := fun rawtokens i =>
  match rawtokens !! i, rawtokens !! (i + 1) with
  | Some (Raw.STR a), Some (Raw.STR b) =>
      let temp := a +:+ " " +:+ b in
      let keyword := parsesectionkeyword temp in
      if decide (keyword <> NONE) then Some ([SECID keyword], i + 2) else None
  | _, _ => None
  end.

Definition alt_keyword : alternative := fun rawtokens i =>
  match rawtokens !! i with
  | Some (Raw.STR value) =>
      let keyword := parsesectionkeyword value in
      if decide (keyword <> NONE) then
        if decide (keyword = OBJ) then
          let kw := parseobjectivesectionkeyword value in
          Some ([SECID_OBJ kw], i + 1)
        else Some ([SECID keyword], i + 1)
      else None
  | _ => None
  end.

Definition alt_sostype : alternative := fun rawtokens i =>
  match rawtokens !! i, rawtokens !! (i + 1), rawtokens !! (i + 2) with
  | Some (Raw.STR value), Some Raw.COLON, Some Raw.COLON =>
      Some ([SOSTYPE value], i + 3)
  | _, _, _ => None
  end.

Definition alt_conid : alternative := fun rawtokens i =>
  match rawtokens !! i, rawtokens !! (i + 1) with
  | Some (Raw.STR value), Some Raw.COLON => Some ([CONID value], i + 2)
  | _, _ => None
  end.

Definition alt_free : alternative := fun rawtokens i =>
  match rawtokens !! i with
  | Some (Raw.STR value) =>
      if iskeyword value LP_KEYWORD_FREE then Some ([FREE], i + 1) else None
  | _ => None
  end.

Definition alt_infinity : alternative := fun rawtokens i =>
  match rawtokens !! i with
  | Some (Raw.STR value) =>
      if iskeyword value LP_KEYWORD_INF then Some ([CONST infinity], i + 1) else None
  | _ => None
  end.

Definition alt_varid : alternative := fun rawtokens i =>
  match rawtokens !! i with
  | Some (Raw.STR value) => Some ([VARID value], i + 1)
  | _ => None
  end.

Definition alt_plus_cons : alternative := fun rawtokens i =>
  match rawtokens !! i, rawtokens !! (i + 1) with
  | Some Raw.PLUS, Some (Raw.CONS value) => Some ([CONST value], i + 2)
  | _, _ => None
  end.

Definition alt_minus_cons : alternative := fun rawtokens i =>
  match rawtokens !! i, rawtokens !! (i + 1) with
  | Some Raw.MINUS, Some (Raw.CONS value) => Some ([CONST (PrimFloat.opp value)], i + 2)
  | _, _ => None
  end.

Definition alt_plus_brkop : alternative := fun rawtokens i =>
  match rawtokens !! i, rawtokens !! (i + 1) with
  | Some Raw.PLUS, Some Raw.BRKOP => Some ([BRKOP], i + 2)
  | _, _ => None
  end.

Definition alt_leq : alternative := fun rawtokens i =>
  match rawtokens !! i, rawtokens !! (i + 1) with
  | Some Raw.LESS, Some Raw.EQUAL => Some ([COMP LEQ], i + 2)
  | _, _ => None
  end.

Definition alt_geq : alternative := fun rawtokens i =>
  match rawtokens !! i, rawtokens !! (i + 1) with
  | Some Raw.GREATER, Some Raw.EQUAL => Some ([COMP GEQ], i + 2)
  | _, _ => None
  end.

(** The alternatives that look at [rawtokens[i]] alone: [tag] recognises the
    token, [out] is what is pushed. *)
Definition alt_token (out : RawToken -> option (list ProcessedToken)) : alternative :=
  fun rawtokens i =>
    match rawtokens !! i with
    | Some t => match out t with Some o => Some (o, i + 1) | None => None end
    | None => None
    end.

Definition alt_plus : alternative :=
  alt_token (fun t => match t with Raw.PLUS => Some [CONST 1%float] | _ => None end).
Definition alt_minus : alternative :=
  alt_token (fun t => match t with Raw.MINUS => Some [CONST (-1)%float] | _ => None end).
Definition alt_cons : alternative :=
  alt_token (fun t => match t with Raw.CONS value => Some [CONST value] | _ => None end).
Definition alt_brkop : alternative :=
  alt_token (fun t => match t with Raw.BRKOP => Some [BRKOP] | _ => None end).
Definition alt_brkcl : alternative :=
  alt_token (fun t => match t with Raw.BRKCL => Some [BRKCL] | _ => None end).
Definition alt_slash : alternative :=
  alt_token (fun t => match t with Raw.SLASH => Some [SLASH] | _ => None end).
Definition alt_asterisk : alternative :=
  alt_token (fun t => match t with Raw.ASTERISK => Some [ASTERISK] | _ => None end).
Definition alt_hat : alternative :=
  alt_token (fun t => match t with Raw.HAT => Some [HAT] | _ => None end).
Definition alt_less : alternative :=
  alt_token (fun t => match t with Raw.LESS => Some [COMP L] | _ => None end).
Definition alt_greater : alternative :=
  alt_token (fun t => match t with Raw.GREATER => Some [COMP G] | _ => None end).
Definition alt_equal : alternative :=
  alt_token (fun t => match t with Raw.EQUAL => Some [COMP EQ] | _ => None end).
Definition alt_flend : alternative :=
  alt_token (fun t => match t with Raw.FLEND => Some [] | _ => None end).

(** The alternatives in the order of the source; falling off the end is the
    final [lpassert(false)]. *)
Definition alternatives : list alternative :=
  [ alt_keyword_hyphen; alt_keyword_space; alt_keyword; alt_sostype; alt_conid;
    alt_free; alt_infinity; alt_varid; alt_plus_cons; alt_minus_cons;
    alt_plus_brkop; alt_plus; alt_minus; alt_cons; alt_brkop; alt_brkcl;
    alt_slash; alt_asterisk; alt_hat; alt_leq; alt_less; alt_geq; alt_greater;
    alt_equal; alt_flend ].

Fixpoint first_match (alts : list alternative) (rawtokens : list RawToken) (i : nat)
  : result (list ProcessedToken * nat) :=
  match alts with
  | [] => Err ParseError
  | alt :: alts =>
      match alt rawtokens i with
      | Some r => Ok r
      | None => first_match alts rawtokens i
      end
  end.

(** ** Loops *)

(** A [while (cond) { body }] loop over a state: the body answers [Ok (Some s')]
    when it reaches [continue] (or its end) in state [s'], [Ok None] when it
    reaches [break] (which the reader's loops do before any write), and [Err]
    when an assertion fails. *)
Fixpoint while_loop {S : Type} (fuel : nat) (cond : S -> bool)
    (body : S -> result (option S)) (s : S) : result S :=
  if cond s then
    match fuel with
    | O => Err OutOfFuel
    | S fuel =>
        match body s with
        | Ok (Some s') => while_loop fuel cond body s'
        | Ok None => Ok s
        | Err e => Err e
        end
    end
  else Ok s.

(** The body of the [while] loop of [processtokens], on the state
    (processedtokens, i). *)
Definition processtokens_step (rawtokens : list RawToken)
    (s : list ProcessedToken * nat) : result (option (list ProcessedToken * nat)) :=
  let '(processedtokens, i) := s in
  do (out, i') <- first_match alternatives rawtokens i;
  Ok (Some (processedtokens ++ out, i')).

Definition processtokens (rawtokens : list RawToken) : result (list ProcessedToken) :=
  do (processedtokens, _) <-
    while_loop (length rawtokens) (fun s => (s.2 <? length rawtokens)%nat)
      (processtokens_step rawtokens) ([], 0);
  Ok processedtokens.

(** ** The problem model *)

(** Modelled from the spec: the structs of [model.hpp] and the builder of
    [builder.hpp] are not part of the sources at hand.  Their fields are the
    ones the reader writes; the defaults are those of the spec's data model
    (a variable is continuous with bounds [0, +inf]; an expression has no
    name, no terms and offset 0; a constraint is unbounded on both sides; the
    sense is minimize).  [Variable_] and [SOSSet] stand for the structs
    [Variable] and [SOS]; a field carries its struct as a prefix, record
    fields sharing one name space. *)
Inductive VariableType := CONTINUOUS | BINARY | GENERAL | SEMICONTINUOUS | SEMIINTEGER.

Inductive ObjectiveSense := MIN | MAX.

#[global] Instance VariableType_eq_dec : EqDecision VariableType.
Proof. solve_decision. Defined.

Record Variable_ := {
  var_type : VariableType;
  var_lowerbound : float;
  var_upperbound : float;
  var_name : string }.

Definition new_Variable (name : string) : Variable_ :=
  {| var_type := CONTINUOUS; var_lowerbound := 0%float;
     var_upperbound := infinity; var_name := name |}.

(** A [std::shared_ptr<Variable>]. *)
Definition varptr := string.

Record LinTerm := { lin_coef : float; lin_var : varptr }.

Record QuadTerm := { quad_coef : float; quad_var1 : varptr; quad_var2 : varptr }.

Record Expression := {
  linterms : list LinTerm;
  quadterms : list QuadTerm;
  offset : float;
  expr_name : string }.

Definition new_Expression : Expression :=
  {| linterms := []; quadterms := []; offset := 0%float; expr_name := "" |}.

Record Constraint := {
  con_lowerbound : float;
  con_upperbound : float;
  con_expr : Expression }.

Definition new_Constraint : Constraint :=
  {| con_lowerbound := neg_infinity; con_upperbound := infinity;
     con_expr := new_Expression |}.

Record SOSSet := {
  sos_name : string;
  sos_type : nat;
  sos_entries : list (varptr * float) }.

Record Model := {
  sense : ObjectiveSense;
  objective : Expression;
  constraints : list Constraint;
  soss : list SOSSet;
  model_variables : list varptr }.

Definition new_Model : Model :=
  {| sense := MIN; objective := new_Expression; constraints := []; soss := [];
     model_variables := [] |}.

Record Builder := {
  variables : gmap string Variable_;
  model : Model }.

Definition new_Builder : Builder := {| variables := ∅; model := new_Model |}.

(** Modelled from the spec: [Builder::getvarbyname] is in [builder.hpp], not
    part of the sources at hand.  The first mention of a name creates the
    variable and appends it to the model's variables; later mentions return
    the same entity. *)
Definition getvarbyname (name : string) (b : Builder) : varptr * Builder :=
  match variables b !! name with
  | Some _ => (name, b)
  | None =>
      (name,
       {| variables := <[name := new_Variable name]> (variables b);
          model :=
            {| sense := sense (model b); objective := objective (model b);
               constraints := constraints (model b); soss := soss (model b);
               model_variables := model_variables (model b) ++ [name] |} |})
  end.

(** A write through a variable pointer: [var->field = ...]. *)
Definition update_var (var : varptr) (f : Variable_ -> Variable_) (b : Builder) : Builder :=
  {| variables := alter f var (variables b); model := model b |}.

Definition set_type (ty : VariableType) (v : Variable_) : Variable_ :=
  {| var_type := ty; var_lowerbound := var_lowerbound v;
     var_upperbound := var_upperbound v; var_name := var_name v |}.
Definition set_lowerbound (x : float) (v : Variable_) : Variable_ :=
  {| var_type := var_type v; var_lowerbound := x;
     var_upperbound := var_upperbound v; var_name := var_name v |}.
Definition set_upperbound (x : float) (v : Variable_) : Variable_ :=
  {| var_type := var_type v; var_lowerbound := var_lowerbound v;
     var_upperbound := x; var_name := var_name v |}.

Definition set_model (f : Model -> Model) (b : Builder) : Builder :=
  {| variables := variables b; model := f (model b) |}.

Definition push_linterm (t : LinTerm) (e : Expression) : Expression :=
  {| linterms := linterms e ++ [t]; quadterms := quadterms e;
     offset := offset e; expr_name := expr_name e |}.
Definition push_quadterm (t : QuadTerm) (e : Expression) : Expression :=
  {| linterms := linterms e; quadterms := quadterms e ++ [t];
     offset := offset e; expr_name := expr_name e |}.
Definition set_offset (x : float) (e : Expression) : Expression :=
  {| linterms := linterms e; quadterms := quadterms e;
     offset := x; expr_name := expr_name e |}.
Definition set_name (n : string) (e : Expression) : Expression :=
  {| linterms := linterms e; quadterms := quadterms e;
     offset := offset e; expr_name := n |}.

(** ** The expression parser: [Reader::parseexpression] *)

(** The state of the parser: the expression under construction, the cursor
    and the builder. *)
Definition pstate : Type := Expression * nat * Builder.

(** The optional leading label.  The test reads the type of [tokens[0]], the
    name is read from [tokens[i]] through a cast to [ProcessedConsIdToken]. *)
Definition parse_label (tokens : list ProcessedToken) (s : pstate) : result pstate :=
  let '(expr, i, b) := s in
  match tokens !! i, tokens !! 0 with
  | Some t, Some (CONID _) =>
      match t with
      | CONID name => Ok (set_name name expr, i + 1, b)
      | _ => Err UndefinedBehaviour
      end
  | _, _ => Ok s
  end.

Definition is_two (value : float) : bool := PrimFloat.eqb value 2%float.

(** The body of the loop over the terms of a quadratic block. *)
Definition quadterm_step (tokens : list ProcessedToken) (s : pstate)
  : result (option pstate) :=
  let '(expr, i, b) := s in
  match tokens !! i, tokens !! (i + 1), tokens !! (i + 2), tokens !! (i + 3) with
  (* const var hat const *)
  | Some (CONST coef), Some (VARID name), Some HAT, Some (CONST e) =>
      lpassert (is_two e);;
      let '(var1, b) := getvarbyname name b in
      let '(var2, b) := getvarbyname name b in
      Ok (Some (push_quadterm
                  {| quad_coef := coef; quad_var1 := var1; quad_var2 := var2 |} expr,
                i + 4, b))
  (* var hat const *)
  | Some (VARID name), Some HAT, Some (CONST e), _ =>
      lpassert (is_two e);;
      let '(var1, b) := getvarbyname name b in
      let '(var2, b) := getvarbyname name b in
      Ok (Some (push_quadterm
                  {| quad_coef := 1%float; quad_var1 := var1; quad_var2 := var2 |} expr,
                i + 3, b))
  (* const var asterisk var *)
  | Some (CONST coef), Some (VARID name1), Some ASTERISK, Some (VARID name2) =>
      let '(var1, b) := getvarbyname name1 b in
      let '(var2, b) := getvarbyname name2 b in
      Ok (Some (push_quadterm
                  {| quad_coef := coef; quad_var1 := var1; quad_var2 := var2 |} expr,
                i + 4, b))
  (* var asterisk var *)
  | Some (VARID name1), Some ASTERISK, Some (VARID name2), _ =>
      let '(var1, b) := getvarbyname name1 b in
      let '(var2, b) := getvarbyname name2 b in
      Ok (Some (push_quadterm
                  {| quad_coef := 1%float; quad_var1 := var1; quad_var2 := var2 |} expr,
                i + 3, b))
  | _, _, _, _ => Ok None
  end.

(** [while (i < tokens.size() && tokens[i]->type != BRKCL)]. *)
Definition quadterm_cond (tokens : list ProcessedToken) (s : pstate) : bool :=
  match tokens !! s.1.2 with
  | Some BRKCL => false
  | Some _ => true
  | None => false
  end.

(** What follows the terms of a quadratic block: the assertions on the size
    and on the types of [tokens[i]], [tokens[i+1]], [tokens[i+2]] are a match
    on the lookups, each failure being the same parse error. *)
Definition close_bracket (tokens : list ProcessedToken) (isobj : bool) (i : nat)
  : result nat :=
  if isobj then
    (* only in the objective function, a quadratic term is followed by "/2.0" *)
    match tokens !! i, tokens !! (i + 1), tokens !! (i + 2) with
    | Some BRKCL, Some SLASH, Some (CONST value) =>
        lpassert (is_two value);; Ok (i + 3)
    | _, _, _ => Err ParseError
    end
  else
    match tokens !! i with
    | Some BRKCL => Ok (i + 1)
    | _ => Err ParseError
    end.

(** The body of the outer loop of [parseexpression]. *)
Definition expression_step (tokens : list ProcessedToken) (isobj : bool) (s : pstate)
  : result (option pstate) :=
  let '(expr, i, b) := s in
  match tokens !! i, tokens !! (i + 1) with
  (* const var *)
  | Some (CONST coef), Some (VARID name) =>
      let '(var, b) := getvarbyname name b in
      Ok (Some (push_linterm {| lin_coef := coef; lin_var := var |} expr, i + 2, b))
  (* const *)
  | Some (CONST value), _ => Ok (Some (set_offset value expr, i + 1, b))
  (* var *)
  | Some (VARID name), _ =>
      let '(var, b) := getvarbyname name b in
      Ok (Some (push_linterm {| lin_coef := 1%float; lin_var := var |} expr, i + 1, b))
  (* quadratic expression *)
  | Some BRKOP, Some _ =>
      do (expr, i, b) <-
        while_loop (length tokens) (quadterm_cond tokens) (quadterm_step tokens)
          (expr, i + 1, b);
      do i <- close_bracket tokens isobj i;
      Ok (Some (expr, i, b))
  | _, _ => Ok None
  end.

Definition parseexpression (tokens : list ProcessedToken) (expr : Expression)
    (i : nat) (isobj : bool) (b : Builder) : result pstate :=
  do s <- parse_label tokens (expr, i, b);
  while_loop (length tokens) (fun s => (s.1.2 <? length tokens)%nat)
    (expression_step tokens isobj) s.

(** ** Section processors *)

(** [Reader::sectiontokens]: [operator[]] on a key not yet present yields an
    empty vector. *)
Abbreviation sections := (LpSectionKeyword -> list ProcessedToken).

Definition no_sections : sections := fun _ => [].

Definition processnonesec (sectiontokens : sections) (b : Builder) : result Builder :=
  lpassert (bool_decide (length (sectiontokens NONE) = 0));; Ok b.

Definition set_objective (e : Expression) (m : Model) : Model :=
  {| sense := sense m; objective := e; constraints := constraints m;
     soss := soss m; model_variables := model_variables m |}.
Definition set_sense (o : ObjectiveSense) (m : Model) : Model :=
  {| sense := o; objective := objective m; constraints := constraints m;
     soss := soss m; model_variables := model_variables m |}.
Definition push_constraint (c : Constraint) (m : Model) : Model :=
  {| sense := sense m; objective := objective m;
     constraints := constraints m ++ [c];
     soss := soss m; model_variables := model_variables m |}.
Definition push_sos (g : SOSSet) (m : Model) : Model :=
  {| sense := sense m; objective := objective m; constraints := constraints m;
     soss := soss m ++ [g]; model_variables := model_variables m |}.

Definition processobjsec (sectiontokens : sections) (b : Builder) : result Builder :=
  do (expr, i, b) <- parseexpression (sectiontokens OBJ) new_Expression 0 true b;
  lpassert (i =? length (sectiontokens OBJ))%nat;;
  Ok (set_model (set_objective expr) b).

(** The body of the loop of [processconsec], on the state (i, builder). *)
Definition processconsec_step (tokens : list ProcessedToken) (s : nat * Builder)
  : result (option (nat * Builder)) :=
  let '(i, b) := s in
  do (expr, i, b) <- parseexpression tokens (con_expr new_Constraint) i false b;
  match tokens !! i, tokens !! (i + 1) with
  | Some (COMP dir), Some (CONST value) =>
      do con <-
        match dir with
        | EQ => Ok {| con_lowerbound := value; con_upperbound := value; con_expr := expr |}
        | LEQ => Ok {| con_lowerbound := con_lowerbound new_Constraint;
                       con_upperbound := value; con_expr := expr |}
        | GEQ => Ok {| con_lowerbound := value;
                       con_upperbound := con_upperbound new_Constraint;
                       con_expr := expr |}
        | _ => Err ParseError
        end;
      Ok (Some (i + 2, set_model (push_constraint con) b))
  | _, _ => Err ParseError
  end.

Definition processconsec (sectiontokens : sections) (b : Builder) : result Builder :=
  let tokens := sectiontokens CON in
  do (_, b) <-
    while_loop (length tokens) (fun s => (s.1 <? length tokens)%nat)
      (processconsec_step tokens) (0, b);
  Ok b.

(** The body of the loop of [processboundssec], on the state (i, builder). *)
Definition processboundssec_step (tokens : list ProcessedToken) (s : nat * Builder)
  : result (option (nat * Builder)) :=
  let '(i, b) := s in
  match tokens !! i, tokens !! (i + 1), tokens !! (i + 2),
        tokens !! (i + 3), tokens !! (i + 4) with
  (* VAR free *)
  | Some (VARID name), Some FREE, _, _, _ =>
      let '(var, b) := getvarbyname name b in
      let b := update_var var (set_lowerbound neg_infinity) b in
      let b := update_var var (set_upperbound infinity) b in
      Ok (Some (i + 2, b))
  (* CONST COMP VAR COMP CONST *)
  | Some (CONST lb), Some (COMP dir1), Some (VARID name), Some (COMP dir2),
    Some (CONST ub) =>
      lpassert (bool_decide (dir1 = LEQ));;
      lpassert (bool_decide (dir2 = LEQ));;
      let '(var, b) := getvarbyname name b in
      let b := update_var var (set_lowerbound lb) b in
      let b := update_var var (set_upperbound ub) b in
      Ok (Some (i + 5, b))
  (* CONST COMP VAR *)
  | Some (CONST value), Some (COMP dir), Some (VARID name), _, _ =>
      let '(var, b) := getvarbyname name b in
      lpassert (bool_decide (dir <> L) && bool_decide (dir <> G));;
      do b <-
        match dir with
        | LEQ => Ok (update_var var (set_lowerbound value) b)
        | GEQ => Ok (update_var var (set_upperbound value) b)
        | EQ => Ok (update_var var (set_lowerbound value)
                      (update_var var (set_upperbound value) b))
        | _ => Err ParseError
        end;
      Ok (Some (i + 3, b))
  (* VAR COMP CONST *)
  | Some (VARID name), Some (COMP dir), Some (CONST value), _, _ =>
      let '(var, b) := getvarbyname name b in
      lpassert (bool_decide (dir <> L) && bool_decide (dir <> G));;
      do b <-
        match dir with
        | LEQ => Ok (update_var var (set_upperbound value) b)
        | GEQ => Ok (update_var var (set_lowerbound value) b)
        | EQ => Ok (update_var var (set_lowerbound value)
                      (update_var var (set_upperbound value) b))
        | _ => Err ParseError
        end;
      Ok (Some (i + 3, b))
  | _, _, _, _, _ => Err ParseError
  end.

Definition processboundssec (sectiontokens : sections) (b : Builder) : result Builder :=
  let tokens := sectiontokens BOUNDS in
  do (_, b) <-
    while_loop (length tokens) (fun s => (s.1 <? length tokens)%nat)
      (processboundssec_step tokens) (0, b);
  Ok b.

(** The [for] loops of the three type sections visit the tokens of their
    bucket in order. *)
Fixpoint for_tokens (body : ProcessedToken -> Builder -> result Builder)
    (tokens : list ProcessedToken) (b : Builder) : result Builder :=
  match tokens with
  | [] => Ok b
  | t :: tokens => do b <- body t b; for_tokens body tokens b
  end.

Definition var_type_is (ty : VariableType) (var : varptr) (b : Builder) : bool :=
  match variables b !! var with
  | Some v => bool_decide (var_type v = ty)
  | None => false
  end.

Definition processbinsec_body (t : ProcessedToken) (b : Builder) : result Builder :=
  match t with
  | VARID name =>
      let '(var, b) := getvarbyname name b in
      let b := update_var var (set_type BINARY) b in
      let b := update_var var (set_lowerbound 0%float) b in
      let b := update_var var (set_upperbound 1%float) b in
      Ok b
  | _ => Err ParseError
  end.

Definition processbinsec (sectiontokens : sections) (b : Builder) : result Builder :=
  for_tokens processbinsec_body (sectiontokens BIN) b.

Definition processgensec_body (t : ProcessedToken) (b : Builder) : result Builder :=
  match t with
  | VARID name =>
      let '(var, b) := getvarbyname name b in
      if var_type_is SEMICONTINUOUS var b
      then Ok (update_var var (set_type SEMIINTEGER) b)
      else Ok (update_var var (set_type GENERAL) b)
  | _ => Err ParseError
  end.

Definition processgensec (sectiontokens : sections) (b : Builder) : result Builder :=
  for_tokens processgensec_body (sectiontokens GEN) b.

Definition processsemisec_body (t : ProcessedToken) (b : Builder) : result Builder :=
  match t with
  | VARID name =>
      let '(var, b) := getvarbyname name b in
      if var_type_is GENERAL var b
      then Ok (update_var var (set_type SEMIINTEGER) b)
      else Ok (update_var var (set_type SEMICONTINUOUS) b)
  | _ => Err ParseError
  end.

Definition processsemisec (sectiontokens : sections) (b : Builder) : result Builder :=
  for_tokens processsemisec_body (sectiontokens SEMI) b.

(** The entries [var : weight] of one SOS set, on the state
    (entries, i, builder). *)
Definition sosentry_step (tokens : list ProcessedToken)
    (s : list (varptr * float) * nat * Builder)
  : result (option (list (varptr * float) * nat * Builder)) :=
  let '(entries, i, b) := s in
  match tokens !! i, tokens !! (i + 1) with
  | Some (CONID name), Some (CONST weight) =>
      let '(var, b) := getvarbyname name b in
      Ok (Some (entries ++ [(var, weight)], i + 2, b))
  | _, _ => Ok None
  end.

(** [sostype[1] - '0'] once [sostype] is known to be "S1", "s1", "S2" or
    "s2". *)
Definition parse_sostype (sostype : string) : result nat :=
  match sostype with
  | String c0 (String c1 "") =>
      lpassert (bool_decide (c0 = "S"%char) || bool_decide (c0 = "s"%char));;
      lpassert (bool_decide (c1 = "1"%char) || bool_decide (c1 = "2"%char));;
      Ok (Ascii.nat_of_ascii c1 - Ascii.nat_of_ascii "0"%char)
  | _ => Err ParseError
  end.

(** The body of the outer loop of [processsossec], on the state (i, builder). *)
Definition processsossec_step (tokens : list ProcessedToken) (s : nat * Builder)
  : result (option (nat * Builder)) :=
  let '(i, b) := s in
  match tokens !! i with
  | Some (CONID name) =>
      let i := i + 1 in
      match tokens !! i with
      | Some (SOSTYPE sostype) =>
          do type <- parse_sostype sostype;
          let i := i + 1 in
          do (entries, i, b) <-
            while_loop (length tokens) (fun s => (s.1.2 <? length tokens)%nat)
              (sosentry_step tokens) ([], i, b);
          let sos := {| sos_name := name; sos_type := type; sos_entries := entries |} in
          Ok (Some (i, set_model (push_sos sos) b))
      | _ => Err ParseError
      end
  | _ => Err ParseError
  end.

Definition processsossec (sectiontokens : sections) (b : Builder) : result Builder :=
  let tokens := sectiontokens SOS in
  do (_, b) <-
    while_loop (length tokens) (fun s => (s.1 <? length tokens)%nat)
      (processsossec_step tokens) (0, b);
  Ok b.

Definition processendsec (sectiontokens : sections) (b : Builder) : result Builder :=
  lpassert (bool_decide (length (sectiontokens END) = 0));; Ok b.

Definition processsections (sectiontokens : sections) (b : Builder) : result Builder :=
  do b <- processnonesec sectiontokens b;
  do b <- processobjsec sectiontokens b;
  do b <- processconsec sectiontokens b;
  do b <- processboundssec sectiontokens b;
  do b <- processgensec sectiontokens b;
  do b <- processbinsec sectiontokens b;
  do b <- processsemisec sectiontokens b;
  do b <- processsossec sectiontokens b;
  processendsec sectiontokens b.

(** ** The section splitter: [Reader::splittokens] *)

Definition push_token (k : LpSectionKeyword) (t : ProcessedToken)
    (sectiontokens : sections) : sections :=
  alter (fun bucket => bucket ++ [t]) k sectiontokens.

(** The [for] loop over the processed tokens, on the state
    (currentsection, sectiontokens, builder).  A plain section keyword token
    whose keyword is [OBJ] has no [objsense] member to read. *)
Fixpoint splittokens_loop (processedtokens : list ProcessedToken)
    (currentsection : LpSectionKeyword) (sectiontokens : sections) (b : Builder)
  : result (sections * Builder) :=
  match processedtokens with
  | [] => Ok (sectiontokens, b)
  | t :: processedtokens =>
      match t with
      | SECID_OBJ objsense =>
          do b <-
            match objsense with
            | ObjKw.MIN => Ok (set_model (set_sense MIN) b)
            | ObjKw.MAX => Ok (set_model (set_sense MAX) b)
            | ObjKw.NONE => Err ParseError
            end;
          (* make sure this section did not yet occur *)
          lpassert (bool_decide (length (sectiontokens OBJ) = 0));;
          splittokens_loop processedtokens OBJ sectiontokens b
      | SECID keyword =>
          (if decide (keyword = OBJ) then Err UndefinedBehaviour else Ok tt);;
          (* make sure this section did not yet occur *)
          lpassert (bool_decide (length (sectiontokens keyword) = 0));;
          splittokens_loop processedtokens keyword sectiontokens b
      | _ =>
          splittokens_loop processedtokens currentsection
            (push_token currentsection t sectiontokens) b
      end
  end.

Definition splittokens (processedtokens : list ProcessedToken) (b : Builder)
  : result (sections * Builder) :=
  splittokens_loop processedtokens NONE no_sections b.

(** ** [Reader::read], from the raw tokens on *)

Definition read_tokens (rawtokens : list RawToken) : result Builder :=
  do processedtokens <- processtokens rawtokens;
  do (sectiontokens, b) <- splittokens processedtokens new_Builder;
  processsections sectiontokens b.

(** * Vocabulary of the statements *)

(** ** Classified tokens *)

(** A name that is pushed as a variable or as a label is not a section
    keyword. *)
Definition name_not_keyword (t : ProcessedToken) : Prop :=
  match t with
  | VARID name | CONID name => parsesectionkeyword name = NONE
  | _ => True
  end.

Definition names_not_keywords (processedtokens : list ProcessedToken) : Prop :=
  Forall name_not_keyword processedtokens.

Definition is_section_header (t : ProcessedToken) : Prop :=
  match t with
  | SECID keyword => keyword <> NONE
  | SECID_OBJ objsense => objsense <> ObjKw.NONE
  | _ => False
  end.

(** ** Consumed tokens *)

(** Every token below the cursor satisfies [P]. *)
Definition prefix_ok (P : ProcessedToken -> bool) (tokens : list ProcessedToken)
    (i : nat) : Prop :=
  forall k t, k < i -> tokens !! k = Some t -> P t = true.

(** The tokens an expression may be made of: the ones [parseexpression]
    consumes, the slash being consumed in the objective only. *)
Definition expr_token (isobj : bool) (t : ProcessedToken) : bool :=
  match t with
  | CONID _ | CONST _ | VARID _ | BRKOP | BRKCL | HAT | ASTERISK => true
  | SLASH => isobj
  | _ => false
  end.

(** The tokens a constraint may be made of. *)
Definition con_token (t : ProcessedToken) : bool :=
  match t with
  | COMP LEQ | COMP EQ | COMP GEQ => true
  | _ => expr_token false t
  end.

(** The tokens a bounds entry may be made of. *)
Definition bounds_token (t : ProcessedToken) : bool :=
  match t with
  | VARID _ | FREE | CONST _ | COMP LEQ | COMP EQ | COMP GEQ => true
  | _ => false
  end.

(** ** The store of variables *)

(** The store only gains variables, each as [getvarbyname] creates it. *)
Definition grows (b b' : Builder) : Prop :=
  forall x, variables b' !! x = variables b !! x \/
            (variables b !! x = None /\ variables b' !! x = Some (new_Variable x)).

(** The type of the variable named [x]; one not yet interned is continuous,
    as it is when first mentioned. *)
Definition type_of (b : Builder) (x : string) : VariableType :=
  match variables b !! x with
  | Some v => var_type v
  | None => CONTINUOUS
  end.

Definition has_type (b : Builder) (x : string) (T : VariableType) : Prop :=
  exists v, variables b !! x = Some v /\ var_type v = T.

(** Every variable of the store satisfies [Q]. *)
Definition store_inv (Q : Variable_ -> Prop) (b : Builder) : Prop :=
  forall x v, variables b !! x = Some v -> Q v.

(** The type of every variable is kept and no variable is forgotten. *)
Definition keeps_types (b b' : Builder) : Prop :=
  forall x, type_of b' x = type_of b x /\
            (is_Some (variables b !! x) -> is_Some (variables b' !! x)).

(** The variable named [name] as [getvarbyname] returns it. *)
Definition var_of (b : Builder) (name : string) : Variable_ :=
  default (new_Variable name) (variables b !! name).

(** [b'] is [b] with the variable [name] interned and set to [v']. *)
Definition updates (name : string) (v' : Variable_) (b b' : Builder) : Prop :=
  variables b' = <[name := v']> (variables b).

(** The outcome of a bounds entry that writes [f] to the variable [name] and
    leaves the cursor at [i']. *)
Definition bound_written (f : Variable_ -> Variable_) (name : string) (i' : nat)
    (b : Builder) (r : result (option (nat * Builder))) : Prop :=
  exists b', r = Ok (Some (i', b')) /\
             variables b' = <[name := f (var_of b name)]> (variables b).

Definition binary_ok (v : Variable_) : Prop :=
  var_type v = BINARY -> var_lowerbound v = 0%float /\ var_upperbound v = 1%float.

(** ** The type sections *)

(** How often the variable [x] is named in a bucket. *)
Fixpoint mentions (x : string) (tokens : list ProcessedToken) : nat :=
  match tokens with
  | [] => 0
  | VARID name :: tokens => (if decide (name = x) then 1 else 0) + mentions x tokens
  | _ :: tokens => mentions x tokens
  end.

(** The type a variable of type [T] has after one mention in the general, the
    binary and the semi-continuous section. *)
Definition gen_type (T : VariableType) : VariableType :=
  if decide (T = SEMICONTINUOUS) then SEMIINTEGER else GENERAL.
Definition bin_type (T : VariableType) : VariableType := BINARY.
Definition semi_type (T : VariableType) : VariableType :=
  if decide (T = GENERAL) then SEMIINTEGER else SEMICONTINUOUS.

(** ** Expressions, item by item

    The items of an expression as the specification lists them, read off the
    tokens alone: what the expression parser returns is compared with
    them. *)

Definition add_quadterms (qs : list QuadTerm) (e : Expression) : Expression :=
  {| linterms := linterms e; quadterms := quadterms e ++ qs;
     offset := offset e; expr_name := expr_name e |}.

(** [block_terms tokens i j qs]: the tokens from [i] up to [j] are the terms
    [qs] of a quadratic block, each with the coefficient of its CONSTANT
    token, or 1 where it has none. *)
Inductive block_terms (tokens : list ProcessedToken) (i : nat)
  : nat -> list QuadTerm -> Prop :=
| block_empty : block_terms tokens i i []
| block_const_square j qs coef name e :
    block_terms tokens i j qs ->
    tokens !! j = Some (CONST coef) -> tokens !! (j + 1) = Some (VARID name) ->
    tokens !! (j + 2) = Some HAT -> tokens !! (j + 3) = Some (CONST e) ->
    is_two e = true ->
    block_terms tokens i (j + 4)
      (qs ++ [{| quad_coef := coef; quad_var1 := name; quad_var2 := name |}])
| block_square j qs name e :
    block_terms tokens i j qs ->
    tokens !! j = Some (VARID name) -> tokens !! (j + 1) = Some HAT ->
    tokens !! (j + 2) = Some (CONST e) -> is_two e = true ->
    block_terms tokens i (j + 3)
      (qs ++ [{| quad_coef := 1%float; quad_var1 := name; quad_var2 := name |}])
| block_const_product j qs coef name1 name2 :
    block_terms tokens i j qs ->
    tokens !! j = Some (CONST coef) -> tokens !! (j + 1) = Some (VARID name1) ->
    tokens !! (j + 2) = Some ASTERISK -> tokens !! (j + 3) = Some (VARID name2) ->
    block_terms tokens i (j + 4)
      (qs ++ [{| quad_coef := coef; quad_var1 := name1; quad_var2 := name2 |}])
| block_product j qs name1 name2 :
    block_terms tokens i j qs ->
    tokens !! j = Some (VARID name1) -> tokens !! (j + 1) = Some ASTERISK ->
    tokens !! (j + 2) = Some (VARID name2) ->
    block_terms tokens i (j + 3)
      (qs ++ [{| quad_coef := 1%float; quad_var1 := name1; quad_var2 := name2 |}]).

(** One item of an expression, from a cursor and the expression read so far
    to the cursor behind the item and the expression with the item: a linear
    term, an offset, or a quadratic block with its closing, which in the
    objective is the bracket followed by SLASH and a CONSTANT equal to 2 and
    in a constraint the bracket alone. *)
Inductive expression_item (tokens : list ProcessedToken) (isobj : bool)
  : nat * Expression -> nat * Expression -> Prop :=
| item_linterm i e coef name :
    tokens !! i = Some (CONST coef) -> tokens !! (i + 1) = Some (VARID name) ->
    expression_item tokens isobj (i, e)
      (i + 2, push_linterm {| lin_coef := coef; lin_var := name |} e)
| item_offset i e value :
    tokens !! i = Some (CONST value) ->
    (forall name, tokens !! (i + 1) <> Some (VARID name)) ->
    expression_item tokens isobj (i, e) (i + 1, set_offset value e)
| item_variable i e name :
    tokens !! i = Some (VARID name) ->
    expression_item tokens isobj (i, e)
      (i + 1, push_linterm {| lin_coef := 1%float; lin_var := name |} e)
| item_block_objective i j e qs value :
    isobj = true ->
    tokens !! i = Some BRKOP -> block_terms tokens (i + 1) j qs ->
    tokens !! j = Some BRKCL -> tokens !! (j + 1) = Some SLASH ->
    tokens !! (j + 2) = Some (CONST value) -> is_two value = true ->
    expression_item tokens isobj (i, e) (j + 3, add_quadterms qs e)
| item_block_constraint i j e qs :
    isobj = false ->
    tokens !! i = Some BRKOP -> block_terms tokens (i + 1) j qs ->
    tokens !! j = Some BRKCL ->
    expression_item tokens isobj (i, e) (j + 1, add_quadterms qs e).

(** The optional label in front of an expression, as the parser reads it: the
    token at the cursor, where it is a label and the first token of the
    section is one. *)
Inductive label_read (tokens : list ProcessedToken) (i : nat) (e : Expression)
  : nat * Expression -> Prop :=
| label_some first name :
    tokens !! 0 = Some (CONID first) -> tokens !! i = Some (CONID name) ->
    label_read tokens i e (i + 1, set_name name e)
| label_none :
    tokens !! i = None \/ (forall first, tokens !! 0 <> Some (CONID first)) ->
    label_read tokens i e (i, e).

(** [expression_read tokens isobj i e j e']: from the cursor [i] and the
    expression [e], the label and the items up to [j] give [e'], and no item
    begins at [j]. *)
Definition expression_read (tokens : list ProcessedToken) (isobj : bool)
    (i : nat) (e : Expression) (j : nat) (e' : Expression) : Prop :=
  exists s0, label_read tokens i e s0 /\
             relations.rtc (expression_item tokens isobj) s0 (j, e') /\
             forall s', ~ expression_item tokens isobj (j, e') s'.

(** The constraint that a comparison and a right-hand side make of an
    expression; none for a strict comparison. *)
Definition constraint_of (dir : LpComparisonType) (value : float) (expr : Expression)
  : option Constraint :=
  match dir with
  | EQ => Some {| con_lowerbound := value; con_upperbound := value; con_expr := expr |}
  | LEQ => Some {| con_lowerbound := neg_infinity; con_upperbound := value;
                   con_expr := expr |}
  | GEQ => Some {| con_lowerbound := value; con_upperbound := infinity;
                   con_expr := expr |}
  | L | G => None
  end.

(** [constraints_upto tokens i cons]: the tokens below [i] are the
    constraints [cons], each an expression, a comparison and a constant. *)
Inductive constraints_upto (tokens : list ProcessedToken)
  : nat -> list Constraint -> Prop :=
| constraints_none : constraints_upto tokens 0 []
| constraints_snoc i cons j expr dir value con :
    constraints_upto tokens i cons -> i < length tokens ->
    expression_read tokens false i new_Expression j expr ->
    tokens !! j = Some (COMP dir) -> tokens !! (j + 1) = Some (CONST value) ->
    constraint_of dir value expr = Some con ->
    constraints_upto tokens (j + 2) (cons ++ [con]).

(** ** Bounds, entry by entry *)

(** What a single comparison writes to the variable of a bounds entry, with
    the constant in front and with the variable in front; nothing for a
    strict comparison. *)
Definition constant_first (dir : LpComparisonType) (value : float)
  : option (Variable_ -> Variable_) :=
  match dir with
  | LEQ => Some (set_lowerbound value)
  | GEQ => Some (set_upperbound value)
  | EQ => Some (fun v => set_lowerbound value (set_upperbound value v))
  | L | G => None
  end.

Definition variable_first (dir : LpComparisonType) (value : float)
  : option (Variable_ -> Variable_) :=
  match dir with
  | LEQ => Some (set_upperbound value)
  | GEQ => Some (set_lowerbound value)
  | EQ => Some (fun v => set_lowerbound value (set_upperbound value v))
  | L | G => None
  end.

(** The store after the write [w.2] to the variable named [w.1], which is
    interned first. *)
Definition write_bound (m : gmap string Variable_)
    (w : string * (Variable_ -> Variable_)) : gmap string Variable_ :=
  <[w.1 := w.2 (default (new_Variable w.1) (m !! w.1))]> m.

(** [bounds_upto tokens i ws]: the tokens below [i] are bounds entries, and
    [ws] are the writes they stand for, in order. *)
Inductive bounds_upto (tokens : list ProcessedToken)
  : nat -> list (string * (Variable_ -> Variable_)) -> Prop :=
| bounds_none : bounds_upto tokens 0 []
| bounds_entry_free i ws name :
    bounds_upto tokens i ws ->
    tokens !! i = Some (VARID name) -> tokens !! (i + 1) = Some FREE ->
    bounds_upto tokens (i + 2)
      (ws ++ [(name, fun v => set_upperbound infinity (set_lowerbound neg_infinity v))])
| bounds_entry_double i ws lb name ub :
    bounds_upto tokens i ws ->
    tokens !! i = Some (CONST lb) -> tokens !! (i + 1) = Some (COMP LEQ) ->
    tokens !! (i + 2) = Some (VARID name) -> tokens !! (i + 3) = Some (COMP LEQ) ->
    tokens !! (i + 4) = Some (CONST ub) ->
    bounds_upto tokens (i + 5)
      (ws ++ [(name, fun v => set_upperbound ub (set_lowerbound lb v))])
| bounds_entry_constant_first i ws value dir name f :
    bounds_upto tokens i ws ->
    tokens !! i = Some (CONST value) -> tokens !! (i + 1) = Some (COMP dir) ->
    tokens !! (i + 2) = Some (VARID name) ->
    constant_first dir value = Some f ->
    bounds_upto tokens (i + 3) (ws ++ [(name, f)])
| bounds_entry_variable_first i ws name dir value f :
    bounds_upto tokens i ws ->
    tokens !! i = Some (VARID name) -> tokens !! (i + 1) = Some (COMP dir) ->
    tokens !! (i + 2) = Some (CONST value) ->
    variable_first dir value = Some f ->
    bounds_upto tokens (i + 3) (ws ++ [(name, f)]).

(** * Sample inputs

    Files are given as the raw tokens the lexer leaves for them (line ends
    leave no token), sections as their processed tokens. *)

(** [min / o: - [ x ^ 2 ] / 2 / end]. *)
Definition lp_minus_bracket : list RawToken :=
  [Raw.STR "min"; Raw.STR "o"; Raw.COLON; Raw.MINUS; Raw.BRKOP; Raw.STR "x";
   Raw.HAT; Raw.CONS 2%float; Raw.BRKCL; Raw.SLASH; Raw.CONS 2%float;
   Raw.STR "end"; Raw.FLEND].

(** The expression [x - y + 3]. *)
Definition raw_x_minus_y_plus_3 : list RawToken :=
  [Raw.STR "x"; Raw.MINUS; Raw.STR "y"; Raw.PLUS; Raw.CONS 3%float].

(** [min / x / st / st: x >= 1 / end], a constraint labelled [st]. *)
Definition lp_label_st : list RawToken :=
  [Raw.STR "min"; Raw.STR "x"; Raw.STR "st"; Raw.STR "st"; Raw.COLON;
   Raw.STR "x"; Raw.GREATER; Raw.EQUAL; Raw.CONS 1%float; Raw.STR "end"; Raw.FLEND].

(** The constraint [q: [ x * y ] <= 4] and the same with a [/ 2] trailer. *)
Definition con_quadratic : list ProcessedToken :=
  [CONID "q"; BRKOP; VARID "x"; ASTERISK; VARID "y"; BRKCL; COMP LEQ; CONST 4%float].
Definition con_quadratic_trailer : list ProcessedToken :=
  [CONID "q"; BRKOP; VARID "x"; ASTERISK; VARID "y"; BRKCL; SLASH; CONST 2%float;
   COMP LEQ; CONST 4%float].

(** The constraint [c: x < 3]. *)
Definition con_strict : list ProcessedToken :=
  [CONID "c"; VARID "x"; COMP L; CONST 3%float].

(** The bounds [1 <= x] and [y < 3]. *)
Definition bounds_lower : list ProcessedToken :=
  [CONST 1%float; COMP LEQ; VARID "x"].
Definition bounds_strict : list ProcessedToken :=
  [VARID "y"; COMP L; CONST 3%float].

(** [min / x / general / x / semi / x / end]. *)
Definition lp_general_semi : list RawToken :=
  [Raw.STR "min"; Raw.STR "x"; Raw.STR "general"; Raw.STR "x";
   Raw.STR "semi"; Raw.STR "x"; Raw.STR "end"; Raw.FLEND].

(** [min / x / general / x / binary / x / semi / x / end]. *)
Definition lp_general_binary_semi : list RawToken :=
  [Raw.STR "min"; Raw.STR "x"; Raw.STR "general"; Raw.STR "x";
   Raw.STR "binary"; Raw.STR "x"; Raw.STR "semi"; Raw.STR "x";
   Raw.STR "end"; Raw.FLEND].

(** [min / x / st / x >= 1 / bounds / x <= 4 / binary / x y / end]. *)
Definition lp_binary : list RawToken :=
  [Raw.STR "min"; Raw.STR "x"; Raw.STR "st"; Raw.STR "x"; Raw.GREATER; Raw.EQUAL;
   Raw.CONS 1%float; Raw.STR "bounds"; Raw.STR "x"; Raw.LESS; Raw.EQUAL;
   Raw.CONS 4%float; Raw.STR "binary"; Raw.STR "x"; Raw.STR "y"; Raw.STR "end";
   Raw.FLEND].

(** The constraints [x >= 1] and [c2: y <= 2], and the file
    [min / x / st / x >= 1 / c2: y <= 2 / end]. *)
Definition con_second_labelled : list ProcessedToken :=
  [VARID "x"; COMP GEQ; CONST 1%float; CONID "c2"; VARID "y"; COMP LEQ; CONST 2%float].
Definition lp_second_labelled : list RawToken :=
  [Raw.STR "min"; Raw.STR "x"; Raw.STR "st"; Raw.STR "x"; Raw.GREATER; Raw.EQUAL;
   Raw.CONS 1%float; Raw.STR "c2"; Raw.COLON; Raw.STR "y"; Raw.LESS; Raw.EQUAL;
   Raw.CONS 2%float; Raw.STR "end"; Raw.FLEND].

(** [min / x / st / c1: x >= 1 / y <= 2 / end]. *)
Definition lp_first_labelled : list RawToken :=
  [Raw.STR "min"; Raw.STR "x"; Raw.STR "st"; Raw.STR "c1"; Raw.COLON; Raw.STR "x";
   Raw.GREATER; Raw.EQUAL; Raw.CONS 1%float; Raw.STR "y"; Raw.LESS; Raw.EQUAL;
   Raw.CONS 2%float; Raw.STR "end"; Raw.FLEND].

(** [min / x / st / x >= 1 / bounds / bounds / x <= 4 / end]. *)
Definition lp_bounds_twice : list RawToken :=
  [Raw.STR "min"; Raw.STR "x"; Raw.STR "st"; Raw.STR "x"; Raw.GREATER; Raw.EQUAL;
   Raw.CONS 1%float; Raw.STR "bounds"; Raw.STR "bounds"; Raw.STR "x"; Raw.LESS;
   Raw.EQUAL; Raw.CONS 4%float; Raw.STR "end"; Raw.FLEND].

(** The file of the first scenario of the specification:
    [min / obj: 3 x + 2 y / st / c1: x + y <= 10 / bounds / 0 <= x <= 5 /
    y >= -1 / end]. *)
Definition lp_scenario_1 : list RawToken :=
  [Raw.STR "min"; Raw.STR "obj"; Raw.COLON; Raw.CONS 3%float; Raw.STR "x";
   Raw.PLUS; Raw.CONS 2%float; Raw.STR "y";
   Raw.STR "st"; Raw.STR "c1"; Raw.COLON; Raw.STR "x"; Raw.PLUS; Raw.STR "y";
   Raw.LESS; Raw.EQUAL; Raw.CONS 10%float;
   Raw.STR "bounds"; Raw.CONS 0%float; Raw.LESS; Raw.EQUAL; Raw.STR "x";
   Raw.LESS; Raw.EQUAL; Raw.CONS 5%float;
   Raw.STR "y"; Raw.GREATER; Raw.EQUAL; Raw.MINUS; Raw.CONS 1%float;
   Raw.STR "end"; Raw.FLEND].

(** The objective [o: [ 2 x ^ 2 ] / 2]. *)
Definition obj_quadratic : list ProcessedToken :=
  [CONID "o"; BRKOP; CONST 2%float; VARID "x"; HAT; CONST 2%float; BRKCL;
   SLASH; CONST 2%float].

(** The constraints [x >= 1], [y <= 2] and [x + y = 3]. *)
Definition con_second_plain : list ProcessedToken :=
  [VARID "x"; COMP GEQ; CONST 1%float; VARID "y"; COMP LEQ; CONST 2%float;
   VARID "x"; VARID "y"; COMP EQ; CONST 3%float].

(** The bounds [1 <= x], [y >= 2] and [x <= 9]. *)
Definition bounds_three : list ProcessedToken :=
  [CONST 1%float; COMP LEQ; VARID "x"; VARID "y"; COMP GEQ; CONST 2%float;
   VARID "x"; COMP LEQ; CONST 9%float].

(** * Vocabulary and sample inputs of the further properties *)

(** The string with every character through [tolower]. *)
Fixpoint lowercase (s : string) : string :=
  match s with
  | EmptyString => EmptyString
  | String c r => String (tolower c) (lowercase r)
  end.

(** The kind of a section header, [None] for any other token. *)
Definition header_kind (t : ProcessedToken) : option LpSectionKeyword :=
  match t with
  | SECID keyword => Some keyword
  | SECID_OBJ _ => Some OBJ
  | _ => None
  end.

(** A token as the classifier builds it from the raw tokens: a header names a
    section and an objective header a sense; a name is the text of a raw
    string; a constant is 1, -1, infinity, or a raw number or its negation. *)
Definition classified_from (rawtokens : list RawToken) (t : ProcessedToken) : Prop :=
  match t with
  | SECID keyword => keyword <> NONE
  | SECID_OBJ objsense => objsense <> ObjKw.NONE
  | VARID name | CONID name | SOSTYPE name => Raw.STR name ∈ rawtokens
  | CONST value =>
      value = 1%float \/ value = (-1)%float \/ value = infinity \/
      Raw.CONS value ∈ rawtokens \/
      exists w, Raw.CONS w ∈ rawtokens /\ value = PrimFloat.opp w
  | _ => True
  end.

(** The non-header tokens of [processedtokens] that fall into section [k]
    when the walk starts in section [currentsection]. *)
Fixpoint bucket (k currentsection : LpSectionKeyword)
    (processedtokens : list ProcessedToken) : list ProcessedToken :=
  match processedtokens with
  | [] => []
  | t :: processedtokens =>
      match header_kind t with
      | Some keyword => bucket k keyword processedtokens
      | None =>
          (if decide (currentsection = k) then [t] else [])
          ++ bucket k currentsection processedtokens
      end
  end.

(** The processed tokens of [min / x / st / x >= 1 / end]. *)
Definition tokens_min_st : list ProcessedToken :=
  [SECID_OBJ ObjKw.MIN; VARID "x"; SECID CON; VARID "x"; COMP GEQ; CONST 1%float;
   SECID END].

(** The processed tokens of [min / x / st / x >= 1 / st / x <= 4 / end]. *)
Definition tokens_st_twice : list ProcessedToken :=
  [SECID_OBJ ObjKw.MIN; VARID "x"; SECID CON; VARID "x"; COMP GEQ; CONST 1%float;
   SECID CON; VARID "x"; COMP LEQ; CONST 4%float; SECID END].

(** [b'] is [b] after some calls of [getvarbyname]. *)
Inductive interns : Builder -> Builder -> Prop :=
| interns_refl b : interns b b
| interns_step b name var b1 b2 :
    getvarbyname name b = (var, b1) -> interns b1 b2 -> interns b b2.

(** The parts of the model that are not the list of variables are the same
    in [b] and [b'], the objective apart. *)
Definition same_sense_constraints_soss (b b' : Builder) : Prop :=
  sense (model b') = sense (model b) /\
  constraints (model b') = constraints (model b) /\
  soss (model b') = soss (model b).

(** The objective [obj: 3 x + 2 y]. *)
Definition obj_linear : list ProcessedToken :=
  [CONID "obj"; CONST 3%float; VARID "x"; CONST 2%float; VARID "y"].

(** ** The SOS section *)

Definition sos_token (t : ProcessedToken) : bool :=
  match t with
  | CONID _ | SOSTYPE _ | CONST _ => true
  | _ => false
  end.

(** An SOS set of type 1 or 2 whose entries name variables of the store. *)
Definition sos_ok (b : Builder) (g : SOSSet) : Prop :=
  (sos_type g = 1 \/ sos_type g = 2) /\
  forall x w, (x, w) ∈ sos_entries g -> is_Some (variables b !! x).

(** The SOS section [g1: S1 :: x:1 y:2]. *)
Definition sos_g1 : list ProcessedToken :=
  [CONID "g1"; SOSTYPE "S1"; CONID "x"; CONST 1%float; CONID "y"; CONST 2%float].

(** The sense, the objective, the constraints and the SOS sets of the model
    are the same in [b] and [b']. *)
Definition same_model_parts (b b' : Builder) : Prop :=
  sense (model b') = sense (model b) /\
  objective (model b') = objective (model b) /\
  constraints (model b') = constraints (model b) /\
  soss (model b') = soss (model b).

(** The bounds [x free], [0 <= x <= 5] and [5 >= x >= 0]. *)
Definition bounds_free : list ProcessedToken := [VARID "x"; FREE].

Definition bounds_double : list ProcessedToken :=
  [CONST 0%float; COMP LEQ; VARID "x"; COMP LEQ; CONST 5%float].

Definition bounds_double_geq : list ProcessedToken :=
  [CONST 5%float; COMP GEQ; VARID "x"; COMP GEQ; CONST 0%float].

(** ** The type sections, token by token *)

Definition is_varid (t : ProcessedToken) : Prop := exists name, t = VARID name.

(** The bounds of a variable. *)
Definition bounds_of (v : Variable_) : float * float :=
  (var_lowerbound v, var_upperbound v).

Definition same_bounds (v v' : Variable_) : Prop := bounds_of v' = bounds_of v.

(** The general section [x y]. *)
Definition gen_x_y : list ProcessedToken := [VARID "x"; VARID "y"].

(** [min / x / general / x / binary / x / end]. *)
Definition lp_general_binary : list RawToken :=
  [Raw.STR "min"; Raw.STR "x"; Raw.STR "general"; Raw.STR "x";
   Raw.STR "binary"; Raw.STR "x"; Raw.STR "end"; Raw.FLEND].

(** A constraint as [processconsec] builds it: one of its sides, at least,
    is the default, or both are the same right-hand side. *)
Definition one_sided_or_equal (con : Constraint) : Prop :=
  con_lowerbound con = con_lowerbound new_Constraint \/
  con_upperbound con = con_upperbound new_Constraint \/
  con_lowerbound con = con_upperbound con.

(** [b'] has the sense, the objective and the SOS sets of [b], and its
    constraints followed by new ones of that shape. *)
Definition appends_constraints (b b' : Builder) : Prop :=
  sense (model b') = sense (model b) /\
  objective (model b') = objective (model b) /\
  soss (model b') = soss (model b) /\
  exists new, constraints (model b') = constraints (model b) ++ new /\
              Forall one_sided_or_equal new.

(** * The lexer: [Reader::tokenize] and [Reader::readnexttoken] *)

(** The state of the reader that the lexer works on.  [file] holds what the
    calls of [std::getline] leave in the line buffer, one after the other,
    until [file.eof()] holds: the lines still to be read, and one more,
    empty, where the stream ends in a newline or is empty. *)
Record LexerState := {
  file : list string;
  linebuffer : string;
  linebufferpos : nat;
  rawtokens : list RawToken }.

(** The outcomes of one call: the call returns in a new state, the [assert]
    of the empty-line case fails (it is taken as compiled in), or the final
    [lpassert(false)] is reached. *)
Inductive Lexed :=
| Returns (r : LexerState)
| AssertFails
| LpassertFails.

(** [linebuffer[linebufferpos]]: the character at the position, the
    terminating null character at the end of the buffer. *)
Definition char_at (linebuffer : string) (linebufferpos : nat) : ascii :=
  default "000"%char (String.get linebufferpos linebuffer).

(** The characters of ["\t\n\\:+<>^= /-*"], the argument of [find_first_of]. *)
Definition delimiters : list ascii :=
  ["009"; "010"; "\"; ":"; "+"; "<"; ">"; "^"; "="; " "; "/"; "-"; "*"]%char.

Definition is_delimiter (c : ascii) : bool := bool_decide (c ∈ delimiters).

(** [linebuffer.find_first_of(delimiters, pos)], [None] for [npos]. *)
Fixpoint find_first_of (linebuffer : string) (pos : nat) : option nat :=
  match linebuffer with
  | EmptyString => None
  | String c rest =>
      match pos with
      | O => if is_delimiter c then Some 0 else S <$> find_first_of rest 0
      | S pos => S <$> find_first_of rest pos
      end
  end.

(** The C string at [linebuffer.data() + linebufferpos]: the characters from
    the position up to the first null character. *)
Fixpoint until_null (s : string) : string :=
  match s with
  | EmptyString => EmptyString
  | String c rest => if decide (c = "000"%char) then EmptyString
                     else String c (until_null rest)
  end.

Definition c_str_at (linebuffer : string) (linebufferpos : nat) : string :=
  until_null (String.substring linebufferpos
                (String.length linebuffer - linebufferpos) linebuffer).

(** The tokens of a single character. *)
Definition single_character (c : ascii) : option RawToken :=
  if decide (c = "["%char) then Some Raw.BRKOP
  else if decide (c = "]"%char) then Some Raw.BRKCL
  else if decide (c = "<"%char) then Some Raw.LESS
  else if decide (c = ">"%char) then Some Raw.GREATER
  else if decide (c = "="%char) then Some Raw.EQUAL
  else if decide (c = ":"%char) then Some Raw.COLON
  else if decide (c = "+"%char) then Some Raw.PLUS
  else if decide (c = "^"%char) then Some Raw.HAT
  else if decide (c = "/"%char) then Some Raw.SLASH
  else if decide (c = "*"%char) then Some Raw.ASTERISK
  else if decide (c = "-"%char) then Some Raw.MINUS
  else None.

(** What a call does once the line buffer is in place: the token it pushes,
    if any, and the position it leaves. *)
Inductive Scanned :=
| Emit (t : RawToken) (linebufferpos : nat)
| Move (linebufferpos : nat)
| ScanAssertFails
| ScanLpassertFails.

(** [linebuffer.pop_back()] when the line ends in a carriage return. *)
Fixpoint drop_cr (line : string) : string :=
  match line with
  | EmptyString => EmptyString
  | String c EmptyString => if decide (c = "013"%char) then EmptyString else line
  | String c rest => String c (drop_cr rest)
  end.

Section lexer.

(** [strtod] of the C library, on the C string at the position: the value and
    the number of characters converted ([endptr - startptr]), 0 when there is
    no conversion. *)
Variable strtod : string -> float * nat.

Definition scan (linebuffer : string) (linebufferpos : nat) : Scanned :=
  let size := String.length linebuffer in
  let nextchar := char_at linebuffer linebufferpos in
  (* check for comment *)
  if decide (nextchar = "\"%char) then Move size
  else
    match single_character nextchar with
    | Some t => Emit t (linebufferpos + 1)
    | None =>
        (* check for whitespace *)
        if decide (nextchar = " "%char \/ nextchar = "009"%char)
        then Move (linebufferpos + 1)
        (* check for line end *)
        else if decide (nextchar = ";"%char \/ nextchar = "010"%char)
        then Move size
        (* empty line *)
        else if decide (nextchar = "000"%char)
        then (if decide (linebufferpos = size) then Move linebufferpos
              else ScanAssertFails)
        else
          (* check for double value *)
          let '(constant, converted) := strtod (c_str_at linebuffer linebufferpos) in
          if decide (converted <> 0) then
            Emit (Raw.CONS constant) (linebufferpos + converted)
          else
            (* assume it's an (section/variable/constraint) identifier *)
            let endpos := default size (find_first_of linebuffer linebufferpos) in
            if decide (linebufferpos < endpos) then
              Emit (Raw.STR (String.substring linebufferpos (endpos - linebufferpos)
                               linebuffer)) endpos
            else ScanLpassertFails
    end.

Definition scan_in (r : LexerState) : Lexed :=
  match scan (linebuffer r) (linebufferpos r) with
  | Emit t pos =>
      Returns {| file := file r; linebuffer := linebuffer r; linebufferpos := pos;
                 rawtokens := rawtokens r ++ [t] |}
  | Move pos =>
      Returns {| file := file r; linebuffer := linebuffer r; linebufferpos := pos;
                 rawtokens := rawtokens r |}
  | ScanAssertFails => AssertFails
  | ScanLpassertFails => LpassertFails
  end.

Definition readnexttoken (r : LexerState) : Lexed :=
  if decide (linebufferpos r = String.length (linebuffer r)) then
    (* read next line if any are left. *)
    match file r with
    | [] =>
        Returns {| file := file r; linebuffer := linebuffer r;
                   linebufferpos := linebufferpos r;
                   rawtokens := rawtokens r ++ [Raw.FLEND] |}
    | line :: rest =>
        scan_in {| file := rest; linebuffer := drop_cr line; linebufferpos := 0;
                   rawtokens := rawtokens r |}
    end
  else scan_in r.

End lexer.

(** The characters that are still to be scanned: those of the pending lines,
    one more for each line, and the rest of the line buffer. *)
Definition pending (r : LexerState) : nat :=
  sum_list (map (fun line => S (String.length line)) (file r))
  + (String.length (linebuffer r) - linebufferpos r).

(** [Reader::tokenize]: calls the lexer until the last raw token is the end
    of the file.  [None] when the fuel runs out. *)
Fixpoint tokenize_loop (strtod : string -> float * nat) (fuel : nat)
    (r : LexerState) : option Lexed :=
  match fuel with
  | O => None
  | S fuel =>
      match readnexttoken strtod r with
      | Returns r' =>
          match list.last (rawtokens r') with
          | Some Raw.FLEND => Some (Returns r')
          | _ => tokenize_loop strtod fuel r'
          end
      | failure => Some failure
      end
  end.

Definition tokenize (strtod : string -> float * nat) (fuel : nat)
    (r : LexerState) : option Lexed :=
  tokenize_loop strtod fuel
    {| file := file r; linebuffer := linebuffer r; linebufferpos := 0;
       rawtokens := rawtokens r |}.

(** The raw tokens that stand for text: all but the markers. *)
Definition lexeme (t : RawToken) : Prop :=
  match t with
  | Raw.NONE | Raw.LNEND | Raw.FLEND => False
  | _ => True
  end.

(** Whether the string holds a null character. *)
Fixpoint has_null (s : string) : bool :=
  match s with
  | EmptyString => false
  | String c rest => bool_decide (c = "000"%char) || has_null rest
  end.

(** No null character in the line buffer and in the pending lines. *)
Definition null_free (r : LexerState) : bool :=
  forallb (fun line => negb (has_null line)) (linebuffer r :: file r).

(** A sample conversion for the examples: it reads one decimal digit. *)
Definition strtod_digit (s : string) : float * nat :=
  match s with
  | String c _ =>
      if decide (c = "0"%char) then (0%float, 1)
      else if decide (c = "1"%char) then (1%float, 1)
      else if decide (c = "2"%char) then (2%float, 1)
      else (0%float, 0)
  | EmptyString => (0%float, 0)
  end.

(** The reader as [tokenize] finds it, on a file of the given lines. *)
Definition reader_on (lines : list string) : LexerState :=
  {| file := lines; linebuffer := ""; linebufferpos := 0; rawtokens := [] |}.

(** The size of the input that [tokenize] starts on. *)
Definition input_size (r : LexerState) : nat :=
  sum_list (map (fun line => S (String.length line)) (file r))
  + String.length (linebuffer r).

(** Two sample files. *)
Definition line_2_x : list string := ["2 x"].

Definition lines_min_2_x : list string := ["min 2 x"; "end"].

(** What [scan] does at a position inside the line buffer: it pushes a
    lexeme and advances, advances only, stays at the end of the buffer, or
    fails the assertion on a null character. *)
Inductive scan_result (lb : string) (pos : nat) : Scanned -> Prop :=
| scan_emit t pos' :
    lexeme t -> pos < pos' <= String.length lb ->
    scan_result lb pos (Emit t pos')
| scan_move pos' :
    pos < pos' <= String.length lb ->
    scan_result lb pos (Move pos')
| scan_stay :
    pos = String.length lb -> scan_result lb pos (Move pos)
| scan_assert :
    pos < String.length lb -> char_at lb pos = "000"%char ->
    scan_result lb pos ScanAssertFails.

(** The call found no line left and pushed the end-of-file token. *)
Definition ends_file (r r' : LexerState) : Prop :=
  file r = [] /\ linebufferpos r = String.length (linebuffer r) /\
  file r' = [] /\ linebuffer r' = linebuffer r /\
  linebufferpos r' = linebufferpos r /\
  rawtokens r' = rawtokens r ++ [Raw.FLEND].

(** The call consumed input and pushed at most one token, a lexeme. *)
Definition lexes (r r' : LexerState) : Prop :=
  pending r' < pending r /\
  exists ts, rawtokens r' = rawtokens r ++ ts /\ length ts <= 1 /\ Forall lexeme ts.

(** * Properties *)

(** ** The embedding at work *)

Example read_scenario_1 :
  exists b,
    read_tokens lp_scenario_1 = Ok b /\
    sense (model b) = MIN /\
    objective (model b)
    = {| linterms := [{| lin_coef := 3%float; lin_var := "x" |};
                      {| lin_coef := 2%float; lin_var := "y" |}];
         quadterms := []; offset := 0%float; expr_name := "obj" |} /\
    constraints (model b)
    = [{| con_lowerbound := neg_infinity; con_upperbound := 10%float;
          con_expr :=
            {| linterms := [{| lin_coef := 1%float; lin_var := "x" |};
                            {| lin_coef := 1%float; lin_var := "y" |}];
               quadterms := []; offset := 0%float; expr_name := "c1" |} |}] /\
    model_variables (model b) = ["x"; "y"] /\
    variables b !! "x"
    = Some {| var_type := CONTINUOUS; var_lowerbound := 0%float;
              var_upperbound := 5%float; var_name := "x" |} /\
    variables b !! "y"
    = Some {| var_type := CONTINUOUS; var_lowerbound := (-1)%float;
              var_upperbound := infinity; var_name := "y" |}.
Proof. eexists. repeat split. Qed.

(** ** Outcomes and loops *)

Lemma bind_Ok {A B} (m : result A) (f : A -> result B) (y : B) :
  bind m f = Ok y <-> exists x, m = Ok x /\ f x = Ok y.
Proof.
  destruct m as [x|e]; simpl; split.
  - intros H. by exists x.
  - by intros (x' & [= <-] & H).
  - intros H. discriminate H.
  - by intros (x' & H & _).
Qed.

Lemma bind_nofuel {A B} (m : result A) (f : A -> result B) :
  m <> Err OutOfFuel -> (forall x, m = Ok x -> f x <> Err OutOfFuel) ->
  bind m f <> Err OutOfFuel.
Proof.
  destruct m as [x|e]; simpl; intros Hm Hf.
  - by apply Hf.
  - intros [= ->]. by apply Hm.
Qed.

Lemma lpassert_Ok (c : bool) (u : unit) : lpassert c = Ok u <-> c = true.
Proof. destruct c, u; simpl; split; congruence. Qed.

Lemma lpassert_nofuel (c : bool) : lpassert c <> Err OutOfFuel.
Proof. by destruct c. Qed.

Section while_loop.
Context {S : Type} (cond : S -> bool) (body : S -> result (option S)).

(** A property kept by every iteration holds when the loop is left. *)
Lemma while_loop_inv (I : S -> Prop) :
  (forall s s', I s -> cond s = true -> body s = Ok (Some s') -> I s') ->
  forall fuel s s', I s -> while_loop fuel cond body s = Ok s' -> I s'.
Proof.
  intros Hstep fuel. induction fuel as [|fuel IH]; intros s s' Hs; simpl.
  - destruct (cond s); [discriminate | by intros [= <-]].
  - destruct (cond s) eqn:Hc; [|by intros [= <-]].
    destruct (body s) as [[s1|]|e] eqn:Hb; [|by intros [= <-]|discriminate].
    intros Hloop. eapply IH; [|exact Hloop]. by eapply Hstep.
Qed.

(** The loop is left where its condition fails or its body breaks. *)
Lemma while_loop_exit (fuel : nat) (s s' : S) :
  while_loop fuel cond body s = Ok s' ->
  cond s' = false \/ (cond s' = true /\ body s' = Ok None).
Proof.
  revert s. induction fuel as [|fuel IH]; intros s; simpl.
  - destruct (cond s) eqn:Hc; [discriminate | intros [= <-]; by left].
  - destruct (cond s) eqn:Hc; [|intros [= <-]; by left].
    destruct (body s) as [[s1|]|e] eqn:Hb; [apply IH| |discriminate].
    intros [= <-]. by right.
Qed.

(** With a measure that is positive while the condition holds and that
    every iteration decreases, the fuel suffices. *)
Lemma while_loop_nofuel (I : S -> Prop) (mu : S -> nat) :
  (forall s, I s -> cond s = true -> 0 < mu s) ->
  (forall s s', I s -> cond s = true -> body s = Ok (Some s') -> I s' /\ mu s' < mu s) ->
  (forall s, I s -> cond s = true -> body s <> Err OutOfFuel) ->
  forall fuel s, I s -> mu s <= fuel ->
  while_loop fuel cond body s <> Err OutOfFuel.
Proof.
  intros Hpos Hstep Hbody fuel.
  induction fuel as [|fuel IH]; intros s Hs Hmu; simpl.
  - destruct (cond s) eqn:Hc; [|done]. specialize (Hpos s Hs Hc). lia.
  - destruct (cond s) eqn:Hc; [|done].
    destruct (body s) as [[s1|]|e] eqn:Hb; [|done|].
    + destruct (Hstep s s1 Hs Hc Hb) as [Hs1 Hlt]. apply IH; [done|lia].
    + intros [= ->]. by eapply Hbody.
Qed.
End while_loop.

(** ** The classifier *)

Ltac unfold_alternatives :=
  unfold alternatives, first_match,
    alt_keyword_hyphen, alt_keyword_space, alt_keyword, alt_sostype, alt_conid,
    alt_free, alt_infinity, alt_varid, alt_plus_cons, alt_minus_cons,
    alt_plus_brkop, alt_plus, alt_minus, alt_cons, alt_brkop, alt_brkcl,
    alt_slash, alt_asterisk, alt_hat, alt_leq, alt_less, alt_geq, alt_greater,
    alt_equal, alt_flend, alt_token.

Lemma first_match_alternatives_out rawtokens i out i' :
  first_match alternatives rawtokens i = Ok (out, i') ->
  i < i' /\ Forall name_not_keyword out.
Proof.
  unfold_alternatives.
  destruct (rawtokens !! i) as [t0|]; [|discriminate].
  destruct t0; try discriminate;
    repeat (case_match; try discriminate);
    intros ?; simplify_eq; (split; [lia|]);
    repeat first [apply Forall_nil | apply Forall_cons; [simpl|]]; try done;
    by apply dec_stable.
Qed.

Lemma parsesectionkeyword_OBJ str :
  parsesectionkeyword str = OBJ -> parseobjectivesectionkeyword str <> ObjKw.NONE.
Proof.
  unfold parsesectionkeyword. case_decide; [done|].
  repeat case_match; discriminate.
Qed.

(** Every keyword string that one pass through the alternatives consumes, at
    the cursor or behind it, is consumed into a section header. *)
Lemma first_match_alternatives_keyword rawtokens i out i' k value :
  first_match alternatives rawtokens i = Ok (out, i') ->
  i <= k < i' -> rawtokens !! k = Some (Raw.STR value) ->
  parsesectionkeyword value <> NONE ->
  exists t, out = [t] /\ is_section_header t.
Proof.
  unfold_alternatives.
  destruct (rawtokens !! i) as [t0|] eqn:H0; [|discriminate].
  destruct t0; try discriminate;
    repeat (case_match; try discriminate);
    intros ? Hk Hstr Hkw; simplify_eq;
    try (eexists; split; [reflexivity|]; simpl; first [done|by apply parsesectionkeyword_OBJ]);
    exfalso;
    (assert (k = i \/ k = i + 1 \/ k = i + 2) as Hcursor by lia);
    destruct_or! Hcursor; subst k; simplify_eq; first [contradiction|lia].
Qed.

Lemma processtokens_names rawtokens processedtokens :
  processtokens rawtokens = Ok processedtokens ->
  names_not_keywords processedtokens.
Proof.
  unfold processtokens. intros ([out i] & Hloop & [= <-])%bind_Ok.
  revert Hloop.
  apply (while_loop_inv _ _ (fun s => names_not_keywords s.1)); [|by constructor].
  intros [p j] [p' j'] Hp _ Hstep. simpl in *.
  apply bind_Ok in Hstep as ([o k] & Hfm & [= <- <-]).
  apply Forall_app. split; [done|].
  by apply first_match_alternatives_out in Hfm as [_ ?].
Qed.

(** The classifier always comes to an end. *)
Lemma processtokens_terminates rawtokens :
  processtokens rawtokens <> Err OutOfFuel.
Proof.
  unfold processtokens. apply bind_nofuel; [|by intros [? ?]].
  apply (while_loop_nofuel _ _ (fun _ => True) (fun s => length rawtokens - s.2)).
  - intros [p i] _ Hc%Nat.ltb_lt. simpl in *. lia.
  - intros [p i] [p' i'] _ Hc%Nat.ltb_lt Hstep. simpl in *. split; [done|].
    apply bind_Ok in Hstep as ([o k] & Hfm & [= <- <-]).
    apply first_match_alternatives_out in Hfm as [? _]. lia.
  - intros [p i] _ _. unfold processtokens_step.
    apply bind_nofuel; [|by intros [? ?]].
    generalize alternatives. intros alts. induction alts as [|alt alts IH]; simpl; [done|].
    by destruct (alt rawtokens i).
  - done.
  - simpl. lia.
Qed.

Ltac classify_at H :=
  unfold processtokens_step; unfold_alternatives; rewrite ?H; simpl.

(** C3 (as amended). The classifier rewrites a PLUS immediately followed by
    BRACKET_OPEN into a single BRACKET_OPEN.  A MINUS immediately followed by
    BRACKET_OPEN is not rejected by the classifier: the bare-MINUS alternative
    turns it into CONSTANT(-1), and the bracket is classified next on its
    own. *)
Theorem sign_before_bracket rawtokens processedtokens i :
  rawtokens !! (i + 1) = Some Raw.BRKOP ->
  (rawtokens !! i = Some Raw.PLUS ->
   processtokens_step rawtokens (processedtokens, i)
   = Ok (Some (processedtokens ++ [BRKOP], i + 2))) /\
  (rawtokens !! i = Some Raw.MINUS ->
   processtokens_step rawtokens (processedtokens, i)
   = Ok (Some (processedtokens ++ [CONST (-1)%float], i + 1)) /\
   processtokens_step rawtokens (processedtokens ++ [CONST (-1)%float], i + 1)
   = Ok (Some ((processedtokens ++ [CONST (-1)%float]) ++ [BRKOP], i + 1 + 1))).
Proof.
  intros H1. split; intros H0.
  - classify_at H0. by rewrite H1.
  - split.
    + classify_at H0. by rewrite H1.
    + classify_at H1. done.
Qed.

Lemma sign_before_bracket_witness :
  processtokens_step [Raw.PLUS; Raw.BRKOP] ([], 0) = Ok (Some ([BRKOP], 2)) /\
  processtokens_step [Raw.MINUS; Raw.BRKOP] ([], 0) = Ok (Some ([CONST (-1)%float], 1)).
Proof.
  split.
  - apply (sign_before_bracket [Raw.PLUS; Raw.BRKOP] [] 0); reflexivity.
  - apply (sign_before_bracket [Raw.MINUS; Raw.BRKOP] [] 0); reflexivity.
Defined.

(** C3 (as stated) fails: a MINUS immediately before a BRACKET_OPEN is read
    without error; the -1 ends as the offset of the objective. *)
Lemma minus_before_bracket_is_read :
  lp_minus_bracket !! 3 = Some Raw.MINUS /\
  lp_minus_bracket !! 4 = Some Raw.BRKOP /\
  exists b,
    read_tokens lp_minus_bracket = Ok b /\
    objective (model b)
    = {| linterms := [];
         quadterms := [{| quad_coef := 1%float; quad_var1 := "x"; quad_var2 := "x" |}];
         offset := (-1)%float; expr_name := "o" |}.
Proof. repeat split. eexists. split; reflexivity. Qed.

(** C9. Implicit signs act as coefficients: a PLUS followed neither by a
    number nor by an opening bracket becomes CONSTANT(+1), a MINUS not
    followed by a number becomes CONSTANT(-1); the expression [x - y + 3] is
    classified as x, -1, y, 3 and parsed (as objective or as constraint) into
    the linear terms (+1, x), (-1, y) in that order, offset 3 and no quadratic
    term. *)
Theorem implicit_signs_are_coefficients rawtokens processedtokens i :
  (rawtokens !! i = Some Raw.PLUS ->
   (forall value, rawtokens !! (i + 1) <> Some (Raw.CONS value)) ->
   rawtokens !! (i + 1) <> Some Raw.BRKOP ->
   processtokens_step rawtokens (processedtokens, i)
   = Ok (Some (processedtokens ++ [CONST 1%float], i + 1))) /\
  (rawtokens !! i = Some Raw.MINUS ->
   (forall value, rawtokens !! (i + 1) <> Some (Raw.CONS value)) ->
   processtokens_step rawtokens (processedtokens, i)
   = Ok (Some (processedtokens ++ [CONST (-1)%float], i + 1))) /\
  processtokens raw_x_minus_y_plus_3
  = Ok [VARID "x"; CONST (-1)%float; VARID "y"; CONST 3%float] /\
  forall isobj, exists b,
    parseexpression [VARID "x"; CONST (-1)%float; VARID "y"; CONST 3%float]
      new_Expression 0 isobj new_Builder
    = Ok ({| linterms := [{| lin_coef := 1%float; lin_var := "x" |};
                          {| lin_coef := (-1)%float; lin_var := "y" |}];
             quadterms := []; offset := 3%float; expr_name := "" |}, 4, b).
Proof.
  repeat split.
  - intros H0 Hcons Hbrk. classify_at H0.
    destruct (rawtokens !! (i + 1)) as [[]|]; try done. by destruct (Hcons value).
  - intros H0 Hcons. classify_at H0.
    destruct (rawtokens !! (i + 1)) as [[]|]; try done. by destruct (Hcons value).
  - intros []; eexists; reflexivity.
Qed.

Lemma implicit_signs_are_coefficients_witness :
  processtokens_step raw_x_minus_y_plus_3 ([VARID "x"], 1)
  = Ok (Some ([VARID "x"; CONST (-1)%float], 2)).
Proof.
  apply (implicit_signs_are_coefficients raw_x_minus_y_plus_3 [VARID "x"] 1).
  - reflexivity.
  - intros value. discriminate.
Defined.

(** C10. Section-keyword recognition takes precedence over every other
    classification of a string.  With the cursor on a STRING that matches a
    section keyword, the classifier pushes exactly one section header; every
    such string that a pass through the alternatives consumes, at the cursor
    or behind it, is consumed into a section header; no list of processed
    tokens that the classifier returns holds a VARIABLE_ID or a
    CONSTRAINT_LABEL whose name is a section keyword; and when such a string
    is followed by a colon, the header consumes the string alone and the
    classifier fails on the colon. *)
Theorem section_keywords_take_precedence rawtokens :
  (forall i value, rawtokens !! i = Some (Raw.STR value) ->
     parsesectionkeyword value <> NONE ->
     exists t i', first_match alternatives rawtokens i = Ok ([t], i') /\
                  is_section_header t /\ i < i') /\
  (forall i out i' k value,
     first_match alternatives rawtokens i = Ok (out, i') ->
     i <= k < i' -> rawtokens !! k = Some (Raw.STR value) ->
     parsesectionkeyword value <> NONE ->
     exists t, out = [t] /\ is_section_header t) /\
  (forall processedtokens, processtokens rawtokens = Ok processedtokens ->
     forall name, VARID name ∈ processedtokens \/ CONID name ∈ processedtokens ->
     parsesectionkeyword name = NONE) /\
  (forall i value, rawtokens !! i = Some (Raw.STR value) ->
     parsesectionkeyword value <> NONE ->
     rawtokens !! (i + 1) = Some Raw.COLON ->
     (exists t, first_match alternatives rawtokens i = Ok ([t], i + 1) /\
                is_section_header t) /\
     first_match alternatives rawtokens (i + 1) = Err ParseError).
Proof.
  split; [|split; [|split]].
  - intros i value H0 Hkw.
    destruct (first_match alternatives rawtokens i) as [[out i']|e] eqn:Hfm.
    + pose proof Hfm as [Hlt _]%first_match_alternatives_out.
      eapply (first_match_alternatives_keyword _ _ _ _ i) in Hfm as (t & -> & Ht);
        [|lia|done|done].
      by eauto.
    + revert Hfm. unfold_alternatives. rewrite H0.
      repeat (case_match; try discriminate).
  - intros i out i' k value. apply first_match_alternatives_keyword.
  - intros processedtokens Hp name Hin.
    apply processtokens_names in Hp.
    unfold names_not_keywords in Hp. rewrite list.Forall_forall in Hp.
    destruct Hin as [Hin|Hin]; by apply Hp in Hin.
  - intros i value H0 Hkw H1. split.
    + unfold_alternatives. rewrite H0, H1.
      repeat (case_match; try done); simplify_eq;
        eexists; (split; [done|]); simpl; try done.
      by apply parsesectionkeyword_OBJ.
    + unfold_alternatives. by rewrite H1.
Qed.

Lemma section_keywords_take_precedence_witness :
  first_match alternatives lp_label_st (3 + 1) = Err ParseError /\
  read_tokens lp_label_st = Err ParseError.
Proof.
  split; [|reflexivity].
  apply (proj2 (proj2 (proj2 (section_keywords_take_precedence lp_label_st))))
    with (value := "st"); [reflexivity|discriminate|reflexivity].
Defined.

(** ** The builder *)

Lemma grows_refl b : grows b b.
Proof. intros x. by left. Qed.

Lemma grows_trans b1 b2 b3 : grows b1 b2 -> grows b2 b3 -> grows b1 b3.
Proof.
  intros H12 H23 x. destruct (H12 x) as [E12|[N1 E2]], (H23 x) as [E23|[N2 E3]].
  - left. congruence.
  - right. split; congruence.
  - right. split; congruence.
  - congruence.
Qed.

Lemma getvarbyname_grows name b var b' :
  getvarbyname name b = (var, b') ->
  var = name /\ grows b b' /\ is_Some (variables b' !! name).
Proof.
  unfold getvarbyname. destruct (variables b !! name) as [v|] eqn:Hv; intros [= <- <-].
  - split; [done|]. split; [apply grows_refl | by rewrite Hv].
  - split; [done|]. split.
    + intros x. simpl. destruct (decide (name = x)) as [->|Hne].
      * right. by rewrite lookup_insert_eq.
      * left. by rewrite lookup_insert_ne.
    + simpl. by rewrite lookup_insert_eq.
Qed.

Lemma grows_type_of b b' x : grows b b' -> type_of b' x = type_of b x.
Proof.
  intros H. unfold type_of. destruct (H x) as [->|[-> ->]]; done.
Qed.

Lemma grows_is_Some b b' x :
  grows b b' -> is_Some (variables b !! x) -> is_Some (variables b' !! x).
Proof. intros H [v Hv]. destruct (H x) as [->|[? ?]]; [by eauto | congruence]. Qed.

Lemma grows_store_inv Q b b' :
  (forall name, Q (new_Variable name)) -> grows b b' -> store_inv Q b -> store_inv Q b'.
Proof.
  intros Hnew H HQ x v Hv. destruct (H x) as [E|[_ E]]; rewrite E in Hv.
  - by eapply HQ.
  - injection Hv as <-. apply Hnew.
Qed.

(** ** Consumed tokens *)

Lemma prefix_ok_extend P tokens i j :
  prefix_ok P tokens i ->
  (forall k t, i <= k < j -> tokens !! k = Some t -> P t = true) ->
  prefix_ok P tokens j.
Proof.
  intros Hi Hij k t Hk Ht. destruct (decide (k < i)); [by eapply Hi|].
  eapply Hij; [|done]. lia.
Qed.

Lemma prefix_ok_all P tokens i :
  prefix_ok P tokens i -> length tokens <= i -> Forall (fun t => P t = true) tokens.
Proof.
  intros Hi Hlen. apply list.Forall_forall. intros t [k Hk]%list_elem_of_lookup.
  eapply Hi; [|done]. apply lookup_lt_Some in Hk. lia.
Qed.

(** The tokens between the old and the new cursor are known from the lookups
    in the context. *)
Ltac cursor_cases k i :=
  assert (k = i \/ k = i + 1 \/ k = i + 2 \/ k = i + 3 \/ k = i + 4) as Hcursor by lia;
  destruct_or! Hcursor; subst k; first [lia | simplify_eq; done].

Ltac extend_prefix_by HP i :=
  let Hpre := fresh "Hpre" in
  let k := fresh "k" in
  let t := fresh "t" in
  intros Hpre; eapply prefix_ok_extend; [exact Hpre|];
  intros k t ? ?; apply HP; cursor_cases k i.

Lemma quadterm_step_spec P tokens e i b e' i' b' :
  (forall t, expr_token false t = true -> P t = true) ->
  quadterm_step tokens (e, i, b) = Ok (Some (e', i', b')) ->
  i < i' /\ grows b b' /\ (prefix_ok P tokens i -> prefix_ok P tokens i').
Proof.
  intros HP. unfold quadterm_step.
  repeat (case_match; try discriminate); simpl;
    intros ?; simplify_eq;
    repeat match goal with
           | H : lpassert _ = Ok _ |- _ => clear H
           | H : bind _ _ = Ok _ |- _ => apply bind_Ok in H as (? & ? & ?); simplify_eq
           | H : getvarbyname _ _ = _ |- _ => apply getvarbyname_grows in H as (? & ? & ?)
           end.
  all: (split; [lia|]); (split; [by eauto using grows_trans|]).
  all: extend_prefix_by HP i.
Qed.

Lemma while_loop_done {S} fuel cond body (s : S) :
  cond s = false -> while_loop fuel cond body s = Ok s.
Proof. intros H. destruct fuel; simpl; by rewrite H. Qed.

Lemma quadterm_step_nofuel tokens s : quadterm_step tokens s <> Err OutOfFuel.
Proof.
  destruct s as [[e i] b]. unfold quadterm_step.
  repeat (case_match; try discriminate); simpl;
    repeat (apply bind_nofuel; [apply lpassert_nofuel|intros ? _]);
    repeat case_match; done.
Qed.

Lemma quadterm_loop_spec P tokens fuel e i b e' i' b' :
  (forall t, expr_token false t = true -> P t = true) ->
  while_loop fuel (quadterm_cond tokens) (quadterm_step tokens) (e, i, b)
  = Ok (e', i', b') ->
  i <= i' /\ grows b b' /\ (prefix_ok P tokens i -> prefix_ok P tokens i').
Proof.
  intros HP.
  apply (while_loop_inv _ _
    (fun s => i <= s.1.2 /\ grows b s.2 /\ (prefix_ok P tokens i -> prefix_ok P tokens s.1.2))).
  - intros [[e1 i1] b1] [[e2 i2] b2] (Hle & Hg & Hpre) _ Hstep. simpl in *.
    eapply quadterm_step_spec in Hstep as (? & ? & ?); [|exact HP].
    split; [lia|]. split; [by eapply grows_trans|]. by eauto.
  - simpl. split; [lia|]. split; [apply grows_refl|done].
Qed.

Lemma quadterm_loop_nofuel tokens e i b :
  while_loop (length tokens) (quadterm_cond tokens) (quadterm_step tokens) (e, i, b)
  <> Err OutOfFuel.
Proof.
  destruct (decide (i <= length tokens)) as [Hi|Hi].
  - apply (while_loop_nofuel _ _ (fun _ => True) (fun s => length tokens - s.1.2)).
    + intros [[e1 i1] b1] _. unfold quadterm_cond. simpl.
      destruct (tokens !! i1) eqn:Hl; [|done]. apply lookup_lt_Some in Hl. lia.
    + intros [[e1 i1] b1] [[e2 i2] b2] _ Hc Hstep. split; [done|].
      apply (quadterm_step_spec (fun _ => true)) in Hstep as (? & _); [|done].
      unfold quadterm_cond in Hc. simpl in *.
      destruct (tokens !! i1) eqn:Hl; [|done]. apply lookup_lt_Some in Hl. lia.
    + intros s _ _. apply quadterm_step_nofuel.
    + done.
    + simpl. lia.
  - rewrite while_loop_done; [done|].
    unfold quadterm_cond. simpl. rewrite lookup_ge_None_2; [done|lia].
Qed.

Lemma close_bracket_spec P tokens isobj i i' :
  (forall t, expr_token isobj t = true -> P t = true) ->
  close_bracket tokens isobj i = Ok i' ->
  i < i' /\ (prefix_ok P tokens i -> prefix_ok P tokens i').
Proof.
  intros HP. unfold close_bracket.
  destruct isobj; repeat (case_match; try discriminate); simpl;
    intros ?; simplify_eq;
    repeat match goal with
           | H : bind _ _ = Ok _ |- _ => apply bind_Ok in H as (? & ? & ?); simplify_eq
           end.
  all: (split; [lia|]).
  all: extend_prefix_by HP i.
Qed.

Lemma close_bracket_nofuel tokens isobj i :
  close_bracket tokens isobj i <> Err OutOfFuel.
Proof.
  unfold close_bracket.
  destruct isobj; repeat (case_match; try discriminate); simpl;
    repeat (apply bind_nofuel; [apply lpassert_nofuel|intros ? _]); done.
Qed.

Lemma expr_token_mono isobj t : expr_token false t = true -> expr_token isobj t = true.
Proof. by destruct t, isobj. Qed.

Lemma expression_step_spec P tokens isobj e i b e' i' b' :
  (forall t, expr_token isobj t = true -> P t = true) ->
  expression_step tokens isobj (e, i, b) = Ok (Some (e', i', b')) ->
  i < i' /\ grows b b' /\ (prefix_ok P tokens i -> prefix_ok P tokens i').
Proof.
  intros HP. unfold expression_step.
  destruct (tokens !! i) as [t0|] eqn:H0; [|discriminate].
  destruct t0; try discriminate.
  - (* var *)
    destruct (tokens !! (i + 1)) as [[]|] eqn:H1;
      repeat (case_match; try discriminate); intros ?; simplify_eq;
      repeat match goal with
             | H : getvarbyname _ _ = _ |- _ => apply getvarbyname_grows in H as (? & ? & ?)
             end;
      (split; [lia|]); (split; [done|]);
      extend_prefix_by HP i.
  - (* const var, const *)
    destruct (tokens !! (i + 1)) as [[]|] eqn:H1;
      repeat (case_match; try discriminate); intros ?; simplify_eq;
      repeat match goal with
             | H : getvarbyname _ _ = _ |- _ => apply getvarbyname_grows in H as (? & ? & ?)
             end;
      (split; [lia|]); (split; [first [done | apply grows_refl]|]);
      extend_prefix_by HP i.
  - (* quadratic expression *)
    destruct (tokens !! (i + 1)) as [t1|] eqn:H1; [|discriminate].
    intros (((e1 & i1) & b1) & Hloop & (i2 & Hclose & ?)%bind_Ok)%bind_Ok.
    simplify_eq.
    eapply (quadterm_loop_spec P) in Hloop as (? & ? & Hq);
      [|intros; by apply HP, expr_token_mono].
    eapply (close_bracket_spec P) in Hclose as (? & Hc); [|done].
    split; [lia|]. split; [done|]. intros Hpre. apply Hc, Hq.
    eapply prefix_ok_extend; [exact Hpre|].
    intros k t ? ?; apply HP; cursor_cases k i.
Qed.

Lemma expression_step_nofuel tokens isobj s :
  expression_step tokens isobj s <> Err OutOfFuel.
Proof.
  destruct s as [[e i] b]. unfold expression_step.
  destruct (tokens !! i) as [[]|]; try done;
    destruct (tokens !! (i + 1)) as [[]|]; try done; try (by case_match).
  all: apply bind_nofuel; [apply quadterm_loop_nofuel|intros [[? ?] ?] _].
  all: apply bind_nofuel; [apply close_bracket_nofuel|done].
Qed.

Lemma parse_label_spec P tokens isobj e i b e' i' b' :
  (forall t, expr_token isobj t = true -> P t = true) ->
  parse_label tokens (e, i, b) = Ok (e', i', b') ->
  i <= i' /\ b' = b /\ (prefix_ok P tokens i -> prefix_ok P tokens i').
Proof.
  intros HP. unfold parse_label.
  repeat (case_match; try discriminate); intros ?; simplify_eq;
    (split; [lia|]); (split; [done|]); try done.
  extend_prefix_by HP i.
Qed.

Lemma parse_label_nofuel tokens s : parse_label tokens s <> Err OutOfFuel.
Proof. destruct s as [[e i] b]. unfold parse_label. by repeat case_match. Qed.

Lemma parseexpression_spec P tokens isobj e i b e' i' b' :
  (forall t, expr_token isobj t = true -> P t = true) ->
  parseexpression tokens e i isobj b = Ok (e', i', b') ->
  i <= i' /\ grows b b' /\ (prefix_ok P tokens i -> prefix_ok P tokens i').
Proof.
  intros HP. unfold parseexpression.
  intros ([[e0 i0] b0] & Hlabel & Hloop)%bind_Ok.
  eapply parse_label_spec in Hlabel as (Hle & -> & Hpre0); [|exact HP].
  revert Hloop.
  apply (while_loop_inv _ _
    (fun s => i <= s.1.2 /\ grows b s.2 /\ (prefix_ok P tokens i -> prefix_ok P tokens s.1.2))).
  - intros [[e1 i1] b1] [[e2 i2] b2] (Hle1 & Hg & Hpre) _ Hstep. simpl in *.
    eapply expression_step_spec in Hstep as (? & ? & ?); [|exact HP].
    split; [lia|]. split; [by eapply grows_trans|]. by eauto.
  - simpl. split; [lia|]. split; [apply grows_refl|done].
Qed.

Lemma parseexpression_terminates tokens e i isobj b :
  parseexpression tokens e i isobj b <> Err OutOfFuel.
Proof.
  unfold parseexpression.
  apply bind_nofuel; [apply parse_label_nofuel|intros [[e0 i0] b0] _].
  apply (while_loop_nofuel _ _ (fun _ => True) (fun s => length tokens - s.1.2)).
  - intros [[e1 i1] b1] _ Hc%Nat.ltb_lt. simpl in *. lia.
  - intros [[e1 i1] b1] [[e2 i2] b2] _ Hc%Nat.ltb_lt Hstep. split; [done|].
    apply (expression_step_spec (fun _ => true)) in Hstep as (? & _); [|done].
    simpl in *. lia.
  - intros s _ _. apply expression_step_nofuel.
  - done.
  - simpl. lia.
Qed.

Lemma expr_token_con_token t : expr_token false t = true -> con_token t = true.
Proof. by destruct t. Qed.

Lemma processconsec_step_spec tokens i b i' b' :
  processconsec_step tokens (i, b) = Ok (Some (i', b')) ->
  i < i' /\ grows b b' /\
  (prefix_ok con_token tokens i -> prefix_ok con_token tokens i').
Proof.
  unfold processconsec_step.
  intros ([[e1 i1] b1] & Hexpr & Hrest)%bind_Ok.
  eapply (parseexpression_spec con_token) in Hexpr as (? & ? & Hpre1);
    [|apply expr_token_con_token].
  destruct (tokens !! i1) as [[]|] eqn:Ht0; try discriminate.
  destruct (tokens !! (i1 + 1)) as [[]|] eqn:Ht1; try discriminate.
  apply bind_Ok in Hrest as (con & Hcon & [= <- <-]).
  split; [lia|]. split; [done|]. intros Hpre%Hpre1. revert Hpre.
  destruct dir; try discriminate; extend_prefix_by (fun t (H : con_token t = true) => H) i1.
Qed.

Lemma processconsec_step_nofuel tokens s :
  processconsec_step tokens s <> Err OutOfFuel.
Proof.
  destruct s as [i b]. unfold processconsec_step.
  apply bind_nofuel; [apply parseexpression_terminates|intros [[e1 i1] b1] _].
  repeat (case_match; try done).
Qed.

Lemma processconsec_spec sectiontokens b b' :
  processconsec sectiontokens b = Ok b' ->
  grows b b' /\ Forall (fun t => con_token t = true) (sectiontokens CON).
Proof.
  unfold processconsec. intros ([i1 b1] & Hloop & [= <-])%bind_Ok.
  pose proof Hloop as Hexit%while_loop_exit.
  revert Hloop.
  intros Hinv%(while_loop_inv _ _
    (fun s => grows b s.2 /\ prefix_ok con_token (sectiontokens CON) s.1)).
  - destruct Hinv as [Hg Hpre]. split; [done|]. simpl in *.
    eapply prefix_ok_all; [exact Hpre|].
    destruct Hexit as [Hc%Nat.ltb_ge|[_ Hbreak]]; [done|].
    unfold processconsec_step in Hbreak.
    apply bind_Ok in Hbreak as ([[e2 i2] b2] & _ & Hbreak).
    repeat (case_match; try discriminate).
  - intros [i2 b2] [i3 b3] [Hg Hpre] _ Hstep. simpl in *.
    apply processconsec_step_spec in Hstep as (? & ? & ?).
    split; [by eapply grows_trans|by eauto].
  - simpl. split; [apply grows_refl|]. intros k t Hk. lia.
Qed.

Lemma processconsec_terminates sectiontokens b :
  processconsec sectiontokens b <> Err OutOfFuel.
Proof.
  unfold processconsec. apply bind_nofuel; [|by intros [? ?]].
  apply (while_loop_nofuel _ _ (fun _ => True)
           (fun s => length (sectiontokens CON) - s.1)).
  - intros [i1 b1] _ Hc%Nat.ltb_lt. simpl in *. lia.
  - intros [i1 b1] [i2 b2] _ Hc%Nat.ltb_lt Hstep. split; [done|].
    apply processconsec_step_spec in Hstep as (? & _). simpl in *. lia.
  - intros s _ _. apply processconsec_step_nofuel.
  - done.
  - simpl. lia.
Qed.

(** The errors of a loop are those of its body, fuel apart. *)
Lemma while_loop_Err {S} fuel cond body (s : S) e :
  while_loop fuel cond body s = Err e ->
  e = OutOfFuel \/ exists s', body s' = Err e.
Proof.
  revert s. induction fuel as [|fuel IH]; intros s; simpl.
  - destruct (cond s); [|discriminate]. intros [= <-]. by left.
  - destruct (cond s); [|discriminate].
    destruct (body s) as [[s1|]|e1] eqn:Hb; [apply IH|discriminate|].
    intros [= <-]. right. by exists s.
Qed.

Lemma quadterm_step_Err tokens s e : quadterm_step tokens s = Err e -> e = ParseError.
Proof.
  destruct s as [[ex i] b]. unfold quadterm_step.
  repeat (case_match; try discriminate); simpl;
    destruct (is_two _); simpl; repeat case_match; congruence.
Qed.

Lemma close_bracket_Err tokens isobj i e :
  close_bracket tokens isobj i = Err e -> e = ParseError.
Proof.
  unfold close_bracket.
  destruct isobj; repeat (case_match; try discriminate); simpl;
    try destruct (is_two _); simpl; congruence.
Qed.

Lemma expression_step_Err tokens isobj s e :
  expression_step tokens isobj s = Err e -> e = ParseError.
Proof.
  destruct s as [[ex i] b]. unfold expression_step.
  destruct (tokens !! i) as [[]|]; try done;
    destruct (tokens !! (i + 1)) as [[]|]; try done; try (by case_match).
  all: destruct (while_loop _ _ _ _) as [[[e1 i1] b1]|e1] eqn:Hloop; simpl.
  all: try (destruct (close_bracket tokens isobj i1) eqn:Hclose; simpl; try done;
            intros [= <-]; by eapply close_bracket_Err).
  all: intros [= <-]; destruct (while_loop_Err _ _ _ _ _ Hloop) as [->|[s' Hs']];
       [by apply quadterm_loop_nofuel in Hloop|by eapply quadterm_step_Err].
Qed.

Lemma quadterm_step_coef tokens e i b e' i' b' :
  quadterm_step tokens (e, i, b) = Ok (Some (e', i', b')) ->
  exists q, quadterms e' = quadterms e ++ [q] /\ linterms e' = linterms e /\
            offset e' = offset e /\
            (tokens !! i = Some (CONST (quad_coef q)) \/
             (exists name, tokens !! i = Some (VARID name)) /\ quad_coef q = 1%float).
Proof.
  unfold quadterm_step.
  repeat (case_match; try discriminate); simpl;
    intros ?; simplify_eq;
    repeat match goal with
           | H : bind _ _ = Ok _ |- _ => apply bind_Ok in H as (? & ? & ?); simplify_eq
           end;
    eexists; simpl; (split; [done|]); (split; [done|]); (split; [done|]); simpl;
    by eauto.
Qed.

(** ** Interning *)

Lemma interns_trans b1 b2 b3 : interns b1 b2 -> interns b2 b3 -> interns b1 b3.
Proof.
  induction 1 as [|b name var b1 b2 Hget _ IH]; [done|].
  intros H23. eapply interns_step; [exact Hget|by apply IH].
Qed.

Lemma interns_one name b var b' : getvarbyname name b = (var, b') -> interns b b'.
Proof. intros Hget. eapply interns_step; [exact Hget|apply interns_refl]. Qed.

(** Interning leaves the sense, the objective, the constraints and the SOS
    sets of the model alone. *)
Lemma interns_model b b' :
  interns b b' ->
  sense (model b') = sense (model b) /\
  objective (model b') = objective (model b) /\
  constraints (model b') = constraints (model b) /\
  soss (model b') = soss (model b).
Proof.
  induction 1 as [|b name var b1 b2 Hget _ IH]; [done|].
  destruct IH as (-> & -> & -> & ->). unfold getvarbyname in Hget.
  by destruct (variables b !! name); simplify_eq.
Qed.

Ltac interns_tac :=
  repeat match goal with
         | H : getvarbyname _ _ = _ |- _ => apply interns_one in H
         end;
  eauto using interns_refl, interns_trans.

Lemma quadterm_step_interns tokens e i b e' i' b' :
  quadterm_step tokens (e, i, b) = Ok (Some (e', i', b')) -> interns b b'.
Proof.
  unfold quadterm_step.
  repeat (case_match; try discriminate); simpl;
    intros ?; simplify_eq;
    repeat match goal with
           | H : bind _ _ = Ok _ |- _ => apply bind_Ok in H as (? & ? & ?); simplify_eq
           end;
    interns_tac.
Qed.

Lemma expression_step_interns tokens isobj e i b e' i' b' :
  expression_step tokens isobj (e, i, b) = Ok (Some (e', i', b')) -> interns b b'.
Proof.
  unfold expression_step.
  destruct (tokens !! i) as [[]|]; try discriminate;
    destruct (tokens !! (i + 1)) as [[]|]; try discriminate;
    repeat (case_match; try discriminate);
    try (intros ?; simplify_eq; by interns_tac).
  all: intros (((e1 & i1) & b1) & Hloop & (i2 & _ & ?)%bind_Ok)%bind_Ok; simplify_eq.
  all: revert Hloop; apply (while_loop_inv _ _ (fun s => interns b s.2));
       [|apply interns_refl].
  all: intros [[e2 i2] b2] [[e3 i3] b3] Hb _ Hstep%quadterm_step_interns;
       by eapply interns_trans.
Qed.

Lemma parseexpression_interns tokens e i isobj b e' i' b' :
  parseexpression tokens e i isobj b = Ok (e', i', b') -> interns b b'.
Proof.
  unfold parseexpression. intros ([[e0 i0] b0] & Hlabel & Hloop)%bind_Ok.
  eapply (parse_label_spec (fun _ => true) _ true) in Hlabel as (_ & -> & _); [|done].
  revert Hloop. apply (while_loop_inv _ _ (fun s => interns b s.2));
    [|apply interns_refl].
  intros [[e2 i2] b2] [[e3 i3] b3] Hb _ Hstep%expression_step_interns.
  by eapply interns_trans.
Qed.

(** ** Expressions, item by item *)

Lemma add_quadterms_nil e : add_quadterms [] e = e.
Proof. destruct e. unfold add_quadterms; simpl. by rewrite app_nil_r. Qed.

Lemma push_add_quadterms q qs e :
  push_quadterm q (add_quadterms qs e) = add_quadterms (qs ++ [q]) e.
Proof. unfold push_quadterm, add_quadterms; simpl. by rewrite app_assoc. Qed.

Lemma getvarbyname_name name b var b' : getvarbyname name b = (var, b') -> var = name.
Proof. unfold getvarbyname. by case_match; intros [= <- _]. Qed.

Lemma quadterm_step_block tokens i0 e0 qs e i b e' i' b' :
  block_terms tokens i0 i qs -> e = add_quadterms qs e0 ->
  quadterm_step tokens (e, i, b) = Ok (Some (e', i', b')) ->
  exists qs', block_terms tokens i0 i' qs' /\ e' = add_quadterms qs' e0.
Proof.
  intros Hqs ->. unfold quadterm_step.
  repeat (case_match; try discriminate); simpl;
    intros ?; simplify_eq;
    repeat match goal with
           | H : bind _ _ = Ok _ |- _ => apply bind_Ok in H as (? & ? & ?); simplify_eq
           | H : lpassert _ = Ok _ |- _ => apply lpassert_Ok in H
           | H : getvarbyname _ _ = _ |- _ => apply getvarbyname_name in H as ->
           end;
    eexists; (split; [|by apply push_add_quadterms]).
  all: first [by eapply block_const_square | by eapply block_square
             | by eapply block_const_product | by eapply block_product].
Qed.

Lemma block_terms_le tokens i j qs : block_terms tokens i j qs -> i <= j.
Proof. induction 1; lia. Qed.

Lemma quadterm_loop_block tokens fuel e i b e' i' b' :
  while_loop fuel (quadterm_cond tokens) (quadterm_step tokens) (e, i, b)
  = Ok (e', i', b') ->
  exists qs, block_terms tokens i i' qs /\ e' = add_quadterms qs e.
Proof.
  apply (while_loop_inv _ _
    (fun s => exists qs, block_terms tokens i s.1.2 qs /\ s.1.1 = add_quadterms qs e)).
  - intros [[e1 i1] b1] [[e2 i2] b2] (qs & Hqs & He) _ Hstep. simpl in *.
    by eapply quadterm_step_block.
  - exists []. split; [constructor|]. simpl. by rewrite add_quadterms_nil.
Qed.

Lemma expression_step_block tokens isobj e i b e' i' b' :
  tokens !! i = Some BRKOP ->
  expression_step tokens isobj (e, i, b) = Ok (Some (e', i', b')) ->
  exists j qs, i < j /\ block_terms tokens (i + 1) j qs /\
    tokens !! j = Some BRKCL /\ e' = add_quadterms qs e /\
    if isobj then
      tokens !! (j + 1) = Some SLASH /\
      (exists value, tokens !! (j + 2) = Some (CONST value) /\ is_two value = true) /\
      i' = j + 3
    else i' = j + 1.
Proof.
  intros H0. unfold expression_step. rewrite H0.
  destruct (tokens !! (i + 1)) as [t1|]; [|discriminate].
  intros ([[e1 i1] b1] & Hloop & (i2 & Hclose & [= <- <- <-])%bind_Ok)%bind_Ok.
  apply quadterm_loop_block in Hloop as (qs & Hqs & ->).
  pose proof (block_terms_le _ _ _ _ Hqs).
  exists i1, qs. split; [lia|]. split; [done|]. revert Hclose. unfold close_bracket.
  destruct isobj; repeat (case_match; try discriminate); simpl.
  - intros (? & Htwo%lpassert_Ok & [= <-])%bind_Ok. by eauto 10.
  - by intros [= <-].
Qed.

Lemma expression_step_item tokens isobj e i b e' i' b' :
  expression_step tokens isobj (e, i, b) = Ok (Some (e', i', b')) ->
  expression_item tokens isobj (i, e) (i', e').
Proof.
  intros Hstep.
  destruct (tokens !! i) as [t0|] eqn:H0;
    [|unfold expression_step in Hstep; by rewrite H0 in Hstep].
  destruct t0;
    try (unfold expression_step in Hstep; rewrite H0 in Hstep; by repeat case_match).
  - unfold expression_step in Hstep. rewrite H0 in Hstep.
    destruct (getvarbyname name b) as [var b1] eqn:Hvar.
    apply getvarbyname_name in Hvar as ->.
    assert (e' = push_linterm {| lin_coef := 1%float; lin_var := name |} e /\ i' = i + 1)
      as [-> ->] by (repeat case_match; by simplify_eq).
    by apply item_variable.
  - unfold expression_step in Hstep. rewrite H0 in Hstep.
    destruct (tokens !! (i + 1)) as [t1|] eqn:H1.
    + destruct t1; simplify_eq;
        try (apply item_offset; [done|intros ?; congruence]).
      destruct (getvarbyname name b) as [var b1] eqn:Hvar.
      apply getvarbyname_name in Hvar as ->. simplify_eq. by apply item_linterm.
    + simplify_eq. apply item_offset; [done|intros ?; congruence].
  - destruct (expression_step_block _ _ _ _ _ _ _ _ H0 Hstep)
      as (j & qs & _ & Hqs & Hj & -> & Hclose).
    destruct isobj.
    + destruct Hclose as (? & (value & ? & ?) & ->). by eapply item_block_objective.
    + subst i'. by eapply item_block_constraint.
Qed.

Lemma expression_item_lookup tokens isobj i e s' :
  expression_item tokens isobj (i, e) s' ->
  (exists coef, tokens !! i = Some (CONST coef)) \/
  (exists name, tokens !! i = Some (VARID name)) \/
  (tokens !! i = Some BRKOP /\ is_Some (tokens !! (i + 1))).
Proof.
  inversion 1; subst; eauto.
  all: right; right; split; [done|].
  all: match goal with H : block_terms _ _ _ _ |- _ => apply block_terms_le in H end.
  all: match goal with H : _ !! ?j = Some BRKCL |- _ => apply lookup_lt_Some in H end.
  all: apply lookup_lt_is_Some; lia.
Qed.

Lemma expression_step_none tokens isobj e i b s' :
  expression_step tokens isobj (e, i, b) = Ok None ->
  ~ expression_item tokens isobj (i, e) s'.
Proof.
  unfold expression_step. intros Hstep Hitem.
  apply expression_item_lookup in Hitem as [[c H0]|[[n H0]|[H0 [t H1]]]];
    rewrite H0 in Hstep.
  - by repeat case_match.
  - by repeat case_match.
  - rewrite H1 in Hstep.
    by apply bind_Ok in Hstep as ([[? ?] ?] & _ & (? & _ & ?)%bind_Ok).
Qed.

Lemma parse_label_read tokens e i b e0 i0 b0 :
  parse_label tokens (e, i, b) = Ok (e0, i0, b0) ->
  label_read tokens i e (i0, e0) /\ b0 = b.
Proof.
  unfold parse_label.
  destruct (tokens !! i) as [t|] eqn:Hi.
  - destruct (tokens !! 0) as [t0|] eqn:H0.
    + destruct t0; try (intros [= <- <- <-]; split; [|done];
                        apply label_none; right; congruence).
      destruct t; try discriminate. intros [= <- <- <-]. split; [|done].
      by eapply label_some.
    + intros [= <- <- <-]. split; [|done]. apply label_none. right. congruence.
  - intros [= <- <- <-]. split; [|done]. apply label_none. by left.
Qed.

Lemma parseexpression_read tokens e i isobj b e' i' b' :
  parseexpression tokens e i isobj b = Ok (e', i', b') ->
  expression_read tokens isobj i e i' e'.
Proof.
  unfold parseexpression. intros ([[e0 i0] b0] & Hlabel & Hloop)%bind_Ok.
  apply parse_label_read in Hlabel as [Hlabel ->].
  exists (i0, e0). split; [done|].
  pose proof Hloop as Hexit%while_loop_exit. split.
  - revert Hloop.
    apply (while_loop_inv _ _
      (fun s => relations.rtc (expression_item tokens isobj) (i0, e0) (s.1.2, s.1.1)));
      [|done].
    intros [[e1 i1] b1] [[e2 i2] b2] Hrtc _ Hstep%expression_step_item. simpl in *.
    by eapply relations.rtc_r.
  - intros s' Hitem. simpl in Hexit. destruct Hexit as [Hc%Nat.ltb_ge|[_ Hnone]].
    + apply expression_item_lookup in Hitem as [[? H0]|[[? H0]|[H0 _]]];
        apply lookup_lt_Some in H0; lia.
    + by eapply expression_step_none.
Qed.

Lemma processobjsec_objective sectiontokens b b' :
  processobjsec sectiontokens b = Ok b' ->
  expression_read (sectiontokens OBJ) true 0 new_Expression
    (length (sectiontokens OBJ)) (objective (model b')).
Proof.
  unfold processobjsec.
  intros ([[e1 i1] b1] & Hexpr%parseexpression_read & Hrest)%bind_Ok.
  apply bind_Ok in Hrest as (u & Hend & [= <-]).
  apply lpassert_Ok, Nat.eqb_eq in Hend. by subst i1.
Qed.

Lemma constraints_upto_le tokens i cons :
  constraints_upto tokens i cons -> i <= length tokens.
Proof.
  destruct 1 as [|i cons j expr dir value con _ _ _ _ H1 _]; [lia|].
  apply lookup_lt_Some in H1. lia.
Qed.

Lemma processconsec_step_constraint tokens i b i' b' :
  processconsec_step tokens (i, b) = Ok (Some (i', b')) ->
  exists expr j b1 dir value con,
    parseexpression tokens new_Expression i false b = Ok (expr, j, b1) /\
    tokens !! j = Some (COMP dir) /\ tokens !! (j + 1) = Some (CONST value) /\
    i' = j + 2 /\ constraint_of dir value expr = Some con /\
    b' = set_model (push_constraint con) b1.
Proof.
  unfold processconsec_step.
  intros ([[e1 i1] b1] & Hexpr & Hrest)%bind_Ok.
  destruct (tokens !! i1) as [[]|] eqn:Ht0; try discriminate.
  destruct (tokens !! (i1 + 1)) as [[]|] eqn:Ht1; try discriminate.
  apply bind_Ok in Hrest as (con & Hcon & [= <- <-]).
  exists e1, i1, b1, dir, value, con.
  destruct dir; try discriminate; injection Hcon as <-; simpl; done.
Qed.

Lemma processconsec_constraints sectiontokens b b' :
  processconsec sectiontokens b = Ok b' ->
  exists new, constraints (model b') = constraints (model b) ++ new /\
              constraints_upto (sectiontokens CON) (length (sectiontokens CON)) new.
Proof.
  unfold processconsec. intros ([i1 b1] & Hloop & [= <-])%bind_Ok.
  pose proof Hloop as Hexit%while_loop_exit.
  revert Hloop.
  intros Hinv%(while_loop_inv _ _
    (fun s => exists new, constraints (model s.2) = constraints (model b) ++ new /\
                          constraints_upto (sectiontokens CON) s.1 new)).
  - destruct Hinv as (new & Hc & Hupto). exists new. split; [done|].
    pose proof (constraints_upto_le _ _ _ Hupto) as Hle.
    destruct Hexit as [Hge%Nat.ltb_ge|[_ Hbreak]].
    + simpl in *. by replace (length (sectiontokens CON)) with i1 by lia.
    + unfold processconsec_step in Hbreak.
      apply bind_Ok in Hbreak as ([[e2 i2] b2] & _ & Hbreak).
      repeat (case_match; try discriminate).
  - intros [i2 b2] [i3 b3] (new & Hc & Hupto) Hlt%Nat.ltb_lt Hstep. simpl in *.
    apply processconsec_step_constraint in Hstep
      as (expr & j & b4 & dir & value & con & Hexpr & H0 & H1 & -> & Hcon & ->).
    pose proof (interns_model _ _ (parseexpression_interns _ _ _ _ _ _ _ _ Hexpr))
      as (_ & _ & Hsame & _).
    exists (new ++ [con]). simpl. rewrite Hsame, Hc, app_assoc. split; [done|].
    eapply constraints_snoc; eauto. by eapply parseexpression_read.
  - exists []. simpl. rewrite app_nil_r. split; [done|constructor].
Qed.

Lemma while_loop_unroll {S} fuel cond body (s s1 : S) :
  cond s = true -> body s = Ok (Some s1) ->
  while_loop (Datatypes.S fuel) cond body s = while_loop fuel cond body s1.
Proof. intros Hc Hb. simpl. by rewrite Hc, Hb. Qed.

Lemma block_terms_run tokens i j qs e b :
  block_terms tokens i j qs ->
  exists k b', 3 * k <= j - i /\ forall fuel,
    while_loop (k + fuel) (quadterm_cond tokens) (quadterm_step tokens) (e, i, b) =
    while_loop fuel (quadterm_cond tokens) (quadterm_step tokens)
      (add_quadterms qs e, j, b').
Proof.
  induction 1 as [|j qs coef name v Hqs IH H0 H1 H2 H3 Htwo
                  |j qs name v Hqs IH H0 H1 H2 Htwo
                  |j qs coef name1 name2 Hqs IH H0 H1 H2 H3
                  |j qs name1 name2 Hqs IH H0 H1 H2].
  - exists 0, b. split; [lia|]. intros fuel. by rewrite add_quadterms_nil.
  - destruct IH as (k & b1 & Hk & IH). pose proof (block_terms_le _ _ _ _ Hqs).
    destruct (getvarbyname name b1) as [var1 b2] eqn:Hv1.
    destruct (getvarbyname name b2) as [var2 b3] eqn:Hv2.
    exists (S k), b3. split; [lia|]. intros fuel.
    replace (S k + fuel) with (k + S fuel) by lia. rewrite IH.
    rewrite <- push_add_quadterms. apply while_loop_unroll.
    + unfold quadterm_cond; simpl. by rewrite H0.
    + unfold quadterm_step. rewrite H0, H1, H2, H3, Htwo. simpl. rewrite Hv1, Hv2.
      apply getvarbyname_name in Hv1 as ->. by apply getvarbyname_name in Hv2 as ->.
  - destruct IH as (k & b1 & Hk & IH). pose proof (block_terms_le _ _ _ _ Hqs).
    destruct (getvarbyname name b1) as [var1 b2] eqn:Hv1.
    destruct (getvarbyname name b2) as [var2 b3] eqn:Hv2.
    exists (S k), b3. split; [lia|]. intros fuel.
    replace (S k + fuel) with (k + S fuel) by lia. rewrite IH.
    rewrite <- push_add_quadterms. apply while_loop_unroll.
    + unfold quadterm_cond; simpl. by rewrite H0.
    + unfold quadterm_step. rewrite H0, H1, H2, Htwo. simpl. rewrite Hv1, Hv2.
      apply getvarbyname_name in Hv1 as ->. apply getvarbyname_name in Hv2 as ->.
      by repeat case_match.
  - destruct IH as (k & b1 & Hk & IH). pose proof (block_terms_le _ _ _ _ Hqs).
    destruct (getvarbyname name1 b1) as [var1 b2] eqn:Hv1.
    destruct (getvarbyname name2 b2) as [var2 b3] eqn:Hv2.
    exists (S k), b3. split; [lia|]. intros fuel.
    replace (S k + fuel) with (k + S fuel) by lia. rewrite IH.
    rewrite <- push_add_quadterms. apply while_loop_unroll.
    + unfold quadterm_cond; simpl. by rewrite H0.
    + unfold quadterm_step. rewrite H0, H1, H2, H3. simpl. rewrite Hv1, Hv2.
      apply getvarbyname_name in Hv1 as ->. by apply getvarbyname_name in Hv2 as ->.
  - destruct IH as (k & b1 & Hk & IH). pose proof (block_terms_le _ _ _ _ Hqs).
    destruct (getvarbyname name1 b1) as [var1 b2] eqn:Hv1.
    destruct (getvarbyname name2 b2) as [var2 b3] eqn:Hv2.
    exists (S k), b3. split; [lia|]. intros fuel.
    replace (S k + fuel) with (k + S fuel) by lia. rewrite IH.
    rewrite <- push_add_quadterms. apply while_loop_unroll.
    + unfold quadterm_cond; simpl. by rewrite H0.
    + unfold quadterm_step. rewrite H0, H1, H2. simpl. rewrite Hv1, Hv2.
      apply getvarbyname_name in Hv1 as ->. apply getvarbyname_name in Hv2 as ->.
      by repeat case_match.
Qed.

Lemma expression_step_block_run tokens isobj e i b j qs :
  tokens !! i = Some BRKOP -> block_terms tokens (i + 1) j qs ->
  tokens !! j = Some BRKCL ->
  (isobj = true ->
   tokens !! (j + 1) = Some SLASH /\
   exists value, tokens !! (j + 2) = Some (CONST value) /\ is_two value = true) ->
  exists b', expression_step tokens isobj (e, i, b)
             = Ok (Some (add_quadterms qs e, (if isobj then j + 3 else j + 1), b')).
Proof.
  intros H0 Hqs Hj Hclose.
  pose proof (block_terms_le _ _ _ _ Hqs) as Hle.
  pose proof (lookup_lt_Some _ _ _ Hj) as Hlt.
  destruct (block_terms_run _ _ _ _ e b Hqs) as (k & b' & Hk & Hrun).
  exists b'. unfold expression_step. rewrite H0.
  destruct (tokens !! (i + 1)) as [t1|] eqn:H1;
    [|apply lookup_ge_None in H1; lia].
  replace (length tokens) with (k + (length tokens - k)) by lia.
  rewrite Hrun, while_loop_done by (unfold quadterm_cond; simpl; by rewrite Hj).
  simpl. unfold close_bracket. rewrite Hj. destruct isobj; [|done].
  destruct Hclose as (-> & value & -> & ->); done.
Qed.

(** C4. A step of the expression parser on an opening bracket reads the
    terms of the block up to the closing bracket and adds them to the
    quadratic terms of the expression, each with the coefficient of its
    CONSTANT token (1 where it has none), never divided by 2; in the
    objective it further requires and consumes SLASH and a CONSTANT equal to
    2, in a constraint it consumes the closing bracket alone.  The step
    succeeds on every block of that form, and a step on an opening bracket
    that is not the last token either succeeds or fails with a parse error.
    A constraints section that is accepted holds no SLASH at all, so a [/2]
    trailer there makes the parse fail.  What [parseexpression] returns is
    the expression that the label and the items at the cursor spell, and this
    is what reaches the model: the objective is the expression of the
    objective section, and the constraints appended are those that the
    constraints section spells. *)
Theorem quadratic_block_closing tokens :
  (forall isobj e i b e' i' b',
     tokens !! i = Some BRKOP ->
     expression_step tokens isobj (e, i, b) = Ok (Some (e', i', b')) ->
     exists j qs, i < j /\ block_terms tokens (i + 1) j qs /\
       tokens !! j = Some BRKCL /\ e' = add_quadterms qs e /\
       if isobj then
         tokens !! (j + 1) = Some SLASH /\
         (exists value, tokens !! (j + 2) = Some (CONST value) /\ is_two value = true) /\
         i' = j + 3
       else i' = j + 1) /\
  (forall isobj e i b j qs,
     tokens !! i = Some BRKOP -> block_terms tokens (i + 1) j qs ->
     tokens !! j = Some BRKCL ->
     (isobj = true ->
      tokens !! (j + 1) = Some SLASH /\
      exists value, tokens !! (j + 2) = Some (CONST value) /\ is_two value = true) ->
     exists b', expression_step tokens isobj (e, i, b)
                = Ok (Some (add_quadterms qs e, (if isobj then j + 3 else j + 1), b'))) /\
  (forall isobj e i b,
     tokens !! i = Some BRKOP -> is_Some (tokens !! (i + 1)) ->
     (exists s', expression_step tokens isobj (e, i, b) = Ok (Some s')) \/
     expression_step tokens isobj (e, i, b) = Err ParseError) /\
  (forall sectiontokens b b',
     sectiontokens CON = tokens -> processconsec sectiontokens b = Ok b' ->
     SLASH ∉ tokens) /\
  (forall e i b e' i' b',
     quadterm_step tokens (e, i, b) = Ok (Some (e', i', b')) ->
     exists q, quadterms e' = quadterms e ++ [q] /\
       (tokens !! i = Some (CONST (quad_coef q)) \/
        (exists name, tokens !! i = Some (VARID name)) /\ quad_coef q = 1%float)) /\
  (forall e i isobj b e' i' b',
     parseexpression tokens e i isobj b = Ok (e', i', b') ->
     expression_read tokens isobj i e i' e') /\
  (forall sectiontokens b b',
     sectiontokens OBJ = tokens -> processobjsec sectiontokens b = Ok b' ->
     expression_read tokens true 0 new_Expression (length tokens)
       (objective (model b'))) /\
  (forall sectiontokens b b',
     sectiontokens CON = tokens -> processconsec sectiontokens b = Ok b' ->
     exists new, constraints (model b') = constraints (model b) ++ new /\
                 constraints_upto tokens (length tokens) new).
Proof.
  split; [|split; [|split; [|split; [|split; [|split; [|split]]]]]].
  - intros isobj e i b e' i' b'. apply expression_step_block.
  - intros isobj e i b j qs. apply expression_step_block_run.
  - intros isobj e i b H0 [t1 H1].
    destruct (expression_step tokens isobj (e, i, b)) as [[s'|]|err] eqn:Hstep.
    + left. by eauto.
    + unfold expression_step in Hstep. rewrite H0, H1 in Hstep.
      by apply bind_Ok in Hstep as ([[? ?] ?] & _ & (? & _ & ?)%bind_Ok).
    + right. by apply expression_step_Err in Hstep as ->.
  - intros sectiontokens b b' <- [_ Hall]%processconsec_spec Hin.
    rewrite list.Forall_forall in Hall. by apply Hall in Hin.
  - intros e i b e' i' b' (q & ? & _ & _ & ?)%quadterm_step_coef. by eauto.
  - intros e i isobj b e' i' b'. apply parseexpression_read.
  - intros sectiontokens b b' <-. apply processobjsec_objective.
  - intros sectiontokens b b' <-. apply processconsec_constraints.
Qed.

Lemma quadratic_block_closing_witness :
  (exists j qs, 1 < j /\ block_terms obj_quadratic 2 j qs /\
     obj_quadratic !! j = Some BRKCL /\
     set_name "o"
       (add_quadterms [{| quad_coef := 2%float; quad_var1 := "x"; quad_var2 := "x" |}]
          new_Expression)
     = add_quadterms qs (set_name "o" new_Expression) /\
     obj_quadratic !! (j + 1) = Some SLASH /\
     (exists value, obj_quadratic !! (j + 2) = Some (CONST value) /\
                    is_two value = true) /\
     9 = j + 3) /\
  (exists b',
     processobjsec (<[OBJ := obj_quadratic]> no_sections) new_Builder = Ok b' /\
     quadterms (objective (model b'))
     = [{| quad_coef := 2%float; quad_var1 := "x"; quad_var2 := "x" |}]) /\
  (exists b',
     processconsec (<[CON := con_quadratic]> no_sections) new_Builder = Ok b' /\
     (quadterms ∘ con_expr) <$> constraints (model b')
     = [[{| quad_coef := 1%float; quad_var1 := "x"; quad_var2 := "y" |}]]) /\
  processconsec (<[CON := con_quadratic_trailer]> no_sections) new_Builder
  = Err ParseError.
Proof.
  split; [|split; [|split]].
  - refine (proj1 (quadratic_block_closing obj_quadratic) true
              (set_name "o" new_Expression) 1 new_Builder _ 9 _ eq_refl eq_refl).
  - eexists. split; reflexivity.
  - eexists. split; reflexivity.
  - reflexivity.
Defined.

(** C5. In the constraints section every expression is followed by a
    mandatory COMPARISON and a mandatory CONSTANT with value v, and the
    constraint appended to the model has lower = upper = v for [=], upper = v
    for [<=] and lower = v for [>=] (the other side keeping its default); a
    step on such tokens succeeds, and a strict comparison or a missing
    right-hand side fails it with a parse error.  A constraints section that
    is accepted holds no strict comparison at all, and the constraints it
    appends to the model are exactly those that its tokens spell, from the
    first token to the last. *)
Theorem constraint_bounds tokens :
  (forall i b i' b',
     processconsec_step tokens (i, b) = Ok (Some (i', b')) ->
     exists expr j b1 dir value con,
       parseexpression tokens new_Expression i false b = Ok (expr, j, b1) /\
       tokens !! j = Some (COMP dir) /\ tokens !! (j + 1) = Some (CONST value) /\
       i' = j + 2 /\
       constraints (model b') = constraints (model b1) ++ [con] /\
       con_expr con = expr /\
       match dir with
       | EQ => con_lowerbound con = value /\ con_upperbound con = value
       | LEQ => con_upperbound con = value /\ con_lowerbound con = neg_infinity
       | GEQ => con_lowerbound con = value /\ con_upperbound con = infinity
       | L | G => False
       end) /\
  (forall i b expr j b1 dir value con,
     parseexpression tokens new_Expression i false b = Ok (expr, j, b1) ->
     tokens !! j = Some (COMP dir) -> tokens !! (j + 1) = Some (CONST value) ->
     constraint_of dir value expr = Some con ->
     processconsec_step tokens (i, b)
     = Ok (Some (j + 2, set_model (push_constraint con) b1))) /\
  (forall i b expr j b1,
     parseexpression tokens new_Expression i false b = Ok (expr, j, b1) ->
     (tokens !! j = Some (COMP L) \/ tokens !! j = Some (COMP G) \/
      (forall dir, tokens !! j <> Some (COMP dir)) \/
      (forall value, tokens !! (j + 1) <> Some (CONST value))) ->
     processconsec_step tokens (i, b) = Err ParseError) /\
  (forall sectiontokens b b',
     sectiontokens CON = tokens -> processconsec sectiontokens b = Ok b' ->
     (COMP L ∉ tokens) /\ (COMP G ∉ tokens)) /\
  (forall sectiontokens b b',
     sectiontokens CON = tokens -> processconsec sectiontokens b = Ok b' ->
     exists new, constraints (model b') = constraints (model b) ++ new /\
                 constraints_upto tokens (length tokens) new).
Proof.
  split; [|split; [|split; [|split]]].
  - intros i b i' b'. unfold processconsec_step.
    intros ([[e1 i1] b1] & Hexpr & Hrest)%bind_Ok.
    destruct (tokens !! i1) as [[]|] eqn:Ht0; try discriminate.
    destruct (tokens !! (i1 + 1)) as [[]|] eqn:Ht1; try discriminate.
    apply bind_Ok in Hrest as (con & Hcon & [= <- <-]).
    exists e1, i1, b1, dir, value, con.
    destruct dir; try discriminate; injection Hcon as <-; simpl; done.
  - intros i b expr j b1 dir value con Hexpr H0 H1 Hcon. unfold processconsec_step.
    change (con_expr new_Constraint) with new_Expression. rewrite Hexpr. simpl.
    rewrite H0, H1. destruct dir; simpl in Hcon; simplify_eq; reflexivity.
  - intros i b expr j b1 Hexpr Hbad. unfold processconsec_step.
    change (con_expr new_Constraint) with new_Expression. rewrite Hexpr. simpl.
    destruct (tokens !! j) as [[]|] eqn:Ht0; try done.
    destruct (tokens !! (j + 1)) as [[]|] eqn:Ht1; try done.
    destruct Hbad as [Hbad|[Hbad|[Hbad|Hbad]]]; simplify_eq; try done.
    + by destruct (Hbad dir).
    + by destruct (Hbad value).
  - intros sectiontokens b b' <- [_ Hall]%processconsec_spec.
    rewrite list.Forall_forall in Hall. split; intros Hin; by apply Hall in Hin.
  - intros sectiontokens b b' <-. apply processconsec_constraints.
Qed.

Lemma constraint_bounds_witness :
  (exists b',
     processconsec (<[CON := con_second_plain]> no_sections) new_Builder = Ok b' /\
     exists new,
       constraints (model b') = constraints (model new_Builder) ++ new /\
       constraints_upto con_second_plain (length con_second_plain) new) /\
  (exists b',
     processconsec (<[CON := con_second_plain]> no_sections) new_Builder = Ok b' /\
     (fun con => (con_lowerbound con, con_upperbound con)) <$> constraints (model b')
     = [(1%float, infinity); (neg_infinity, 2%float); (3%float, 3%float)]) /\
  processconsec_step con_strict (0, new_Builder) = Err ParseError.
Proof.
  split; [|split].
  - eexists. split; [reflexivity|].
    by apply (proj2 (proj2 (proj2 (proj2 (constraint_bounds con_second_plain))))
                (<[CON := con_second_plain]> no_sections)).
  - eexists. split; reflexivity.
  - refine (proj1 (proj2 (proj2 (constraint_bounds con_strict)))
              0 new_Builder _ 2 _ eq_refl _).
    by left.
Defined.

(** ** Writes through variable pointers *)

Lemma getvarbyname_updates name b var b' :
  getvarbyname name b = (var, b') ->
  var = name /\ updates name (var_of b name) b b'.
Proof.
  unfold getvarbyname, updates, var_of.
  destruct (variables b !! name) as [v|] eqn:Hv; intros [= <- <-]; simpl.
  - split; [done|]. by rewrite insert_id.
  - done.
Qed.

Lemma update_var_updates name v f b b' :
  updates name v b b' -> updates name (f v) b (update_var name f b').
Proof.
  unfold updates, update_var. simpl. intros ->. apply alter_insert_eq.
Qed.

Lemma var_of_type b name : var_type (var_of b name) = type_of b name.
Proof. unfold var_of, type_of. by destruct (variables b !! name). Qed.

Lemma updates_type_of name v' b b' x :
  updates name v' b b' ->
  type_of b' x = if decide (x = name) then var_type v' else type_of b x.
Proof.
  unfold updates, type_of. intros ->. case_decide as Hx.
  - subst. by rewrite lookup_insert_eq.
  - by rewrite lookup_insert_ne.
Qed.

Lemma updates_is_Some name v' b b' x :
  updates name v' b b' ->
  x = name \/ is_Some (variables b !! x) -> is_Some (variables b' !! x).
Proof.
  unfold updates. intros -> Hx. rewrite lookup_insert_is_Some.
  destruct (decide (name = x)); [by left|right]. by destruct Hx.
Qed.

Lemma updates_store_inv Q name v' b b' :
  updates name v' b b' -> Q v' -> store_inv Q b -> store_inv Q b'.
Proof.
  unfold updates, store_inv. intros -> Hv HQ x v.
  rewrite lookup_insert_Some. intros [[_ <-]|[_ Hx]]; [done|by eapply HQ].
Qed.

(** ** The bounds section *)

(** What a step of [processboundssec] does to the store: one variable is
    interned, its bounds are written and its type is kept. *)
Lemma processboundssec_step_spec tokens i b i' b' :
  processboundssec_step tokens (i, b) = Ok (Some (i', b')) ->
  i < i' /\
  (exists name v', updates name v' b b' /\ var_type v' = type_of b name) /\
  (prefix_ok bounds_token tokens i -> prefix_ok bounds_token tokens i').
Proof.
  unfold processboundssec_step.
  repeat (case_match; try discriminate); simpl;
    intros ?; simplify_eq;
    repeat match goal with
           | H : bind _ _ = Ok _ |- _ => apply bind_Ok in H as (? & ? & ?); simplify_eq
           | H : lpassert _ = Ok _ |- _ => apply lpassert_Ok in H
           | H : bool_decide _ = true |- _ => apply bool_decide_eq_true in H
           | H : _ && _ = true |- _ => apply andb_true_iff in H as [? ?]
           | H : getvarbyname _ _ = _ |- _ => apply getvarbyname_updates in H as (? & ?)
           end;
    simplify_eq.
  all: (split; [lia|]).
  all: (split; [|extend_prefix_by (fun t (H : bounds_token t = true) => H) i]).
  all: eexists _, _; (split; [by repeat apply update_var_updates|]);
       simpl; apply var_of_type.
Qed.

Lemma processboundssec_step_no_break tokens s :
  processboundssec_step tokens s <> Ok None.
Proof.
  destruct s as [i b]. unfold processboundssec_step.
  repeat (case_match; try discriminate); simpl;
    repeat match goal with
           | |- context [lpassert ?c] => destruct c; simpl
           end; try discriminate.
Qed.

Lemma processboundssec_step_nofuel tokens s :
  processboundssec_step tokens s <> Err OutOfFuel.
Proof.
  destruct s as [i b]. unfold processboundssec_step.
  repeat (case_match; try discriminate); simpl;
    repeat match goal with
           | |- context [lpassert ?c] => destruct c; simpl
           end; try discriminate.
Qed.

Lemma keeps_types_refl b : keeps_types b b.
Proof. by intros x. Qed.

Lemma keeps_types_trans b1 b2 b3 :
  keeps_types b1 b2 -> keeps_types b2 b3 -> keeps_types b1 b3.
Proof.
  intros H12 H23 x. destruct (H12 x) as [E12 S12], (H23 x) as [E23 S23].
  split; [congruence|by auto].
Qed.

Lemma grows_keeps_types b b' : grows b b' -> keeps_types b b'.
Proof.
  intros H x. split; [by apply grows_type_of|by apply grows_is_Some].
Qed.

Lemma updates_keeps_types name v' b b' :
  updates name v' b b' -> var_type v' = type_of b name -> keeps_types b b'.
Proof.
  intros Hu Hty x. split.
  - rewrite (updates_type_of _ _ _ _ _ Hu). case_decide; by subst.
  - intros Hx. eapply updates_is_Some; [done|by right].
Qed.

Lemma processboundssec_spec sectiontokens b b' :
  processboundssec sectiontokens b = Ok b' ->
  keeps_types b b' /\ Forall (fun t => bounds_token t = true) (sectiontokens BOUNDS).
Proof.
  unfold processboundssec. intros ([i1 b1] & Hloop & [= <-])%bind_Ok.
  pose proof Hloop as Hexit%while_loop_exit.
  revert Hloop.
  intros Hinv%(while_loop_inv _ _
    (fun s => keeps_types b s.2 /\ prefix_ok bounds_token (sectiontokens BOUNDS) s.1)).
  - destruct Hinv as [Hk Hpre]. split; [done|].
    destruct Hexit as [Hc%Nat.ltb_ge|[_ Hbreak]];
      [|by apply processboundssec_step_no_break in Hbreak].
    by eapply prefix_ok_all.
  - intros [i2 b2] [i3 b3] [Hk Hpre] _ Hstep. simpl in *.
    apply processboundssec_step_spec in Hstep as (? & (name & v' & Hu & Hty) & ?).
    split; [|by eauto].
    eapply keeps_types_trans; [done|]. by eapply updates_keeps_types.
  - simpl. split; [apply keeps_types_refl|]. intros k t Hk. lia.
Qed.

Lemma processboundssec_terminates sectiontokens b :
  processboundssec sectiontokens b <> Err OutOfFuel.
Proof.
  unfold processboundssec. apply bind_nofuel; [|by intros [? ?]].
  apply (while_loop_nofuel _ _ (fun _ => True)
           (fun s => length (sectiontokens BOUNDS) - s.1)).
  - intros [i1 b1] _ Hc%Nat.ltb_lt. simpl in *. lia.
  - intros [i1 b1] [i2 b2] _ Hc%Nat.ltb_lt Hstep. split; [done|].
    apply processboundssec_step_spec in Hstep as (? & _). simpl in *. lia.
  - intros s _ _. apply processboundssec_step_nofuel.
  - done.
  - simpl. lia.
Qed.

(** ** Bounds, entry by entry *)

Lemma bounds_upto_le tokens i ws : bounds_upto tokens i ws -> i <= length tokens.
Proof.
  destruct 1; [lia|..];
    repeat match goal with
           | H : _ !! _ = Some _ |- _ => apply lookup_lt_Some in H
           end; lia.
Qed.

Lemma processboundssec_step_entry tokens i b i' b' :
  processboundssec_step tokens (i, b) = Ok (Some (i', b')) ->
  exists w, variables b' = write_bound (variables b) w /\
            forall ws, bounds_upto tokens i ws -> bounds_upto tokens i' (ws ++ [w]).
Proof.
  unfold processboundssec_step, write_bound.
  repeat (case_match; try discriminate); simpl;
    intros ?; simplify_eq;
    repeat match goal with
           | H : bind _ _ = Ok _ |- _ => apply bind_Ok in H as (? & ? & ?); simplify_eq
           | H : lpassert _ = Ok _ |- _ => apply lpassert_Ok in H
           | H : bool_decide _ = true |- _ => apply bool_decide_eq_true in H
           | H : _ && _ = true |- _ => apply andb_true_iff in H as [? ?]
           | H : getvarbyname _ _ = _ |- _ => apply getvarbyname_updates in H as (? & ?)
           end;
    simplify_eq.
  all: repeat match goal with
              | H : updates ?n ?v ?b0 ?b1 |- context [update_var ?n ?g ?b1] =>
                  apply (update_var_updates n v g) in H
              end.
  all: match goal with
       | H : updates ?n ?v ?b0 _ |- _ =>
           match eval pattern (var_of b0 n) in v with
           | ?f _ => exists (n, f)
           end
       end.
  all: (split; [done|]).
  all: intros ws Hws.
  all: first [ by eapply bounds_entry_free
             | by eapply bounds_entry_double
             | by eapply bounds_entry_constant_first
             | by eapply bounds_entry_variable_first ].
Qed.

Lemma processboundssec_writes sectiontokens b b' :
  processboundssec sectiontokens b = Ok b' ->
  exists ws, bounds_upto (sectiontokens BOUNDS) (length (sectiontokens BOUNDS)) ws /\
             variables b' = foldl write_bound (variables b) ws.
Proof.
  unfold processboundssec. intros ([i1 b1] & Hloop & [= <-])%bind_Ok.
  pose proof Hloop as Hexit%while_loop_exit.
  revert Hloop.
  intros Hinv%(while_loop_inv _ _
    (fun s => exists ws, bounds_upto (sectiontokens BOUNDS) s.1 ws /\
                         variables s.2 = foldl write_bound (variables b) ws)).
  - destruct Hinv as (ws & Hupto & Hvars). exists ws. split; [|done].
    pose proof (bounds_upto_le _ _ _ Hupto) as Hle.
    destruct Hexit as [Hge%Nat.ltb_ge|[_ Hbreak]];
      [|by apply processboundssec_step_no_break in Hbreak].
    simpl in *. by replace (length (sectiontokens BOUNDS)) with i1 by lia.
  - intros [i2 b2] [i3 b3] (ws & Hupto & Hvars) _
      (w & Hw & Hext)%processboundssec_step_entry. simpl in *.
    exists (ws ++ [w]). split; [by apply Hext|].
    by rewrite foldl_app, <- Hvars.
  - exists []. split; [constructor|done].
Qed.

(** C6. In the bounds section, an entry CONSTANT COMPARISON VARIABLE_ID sets
    the lower bound for [<=], the upper bound for [>=] and both for [=]
    (where a COMPARISON and a CONSTANT follow the variable, the five tokens
    are the double-sided entry, which sets the constant in front as the
    lower bound too and requires [<=] twice); an entry VARIABLE_ID
    COMPARISON CONSTANT sets the upper bound for [<=], the lower bound for
    [>=] and both for [=]; a strict comparison in either entry is a parse
    error.  A bounds section that is accepted holds no strict comparison at
    all, and the store of variables it leaves is the one it was given with
    the writes of its entries made in order, from the first token to the
    last. *)
Theorem bounds_entries tokens :
  (forall i b value dir name,
     tokens !! i = Some (CONST value) ->
     tokens !! (i + 1) = Some (COMP dir) ->
     tokens !! (i + 2) = Some (VARID name) ->
     let r := processboundssec_step tokens (i, b) in
     match tokens !! (i + 3), tokens !! (i + 4) with
     | Some (COMP dir2), Some (CONST ub) =>
         if decide (dir = LEQ /\ dir2 = LEQ) then
           bound_written (fun v => set_upperbound ub (set_lowerbound value v))
             name (i + 5) b r
         else r = Err ParseError
     | _, _ =>
         match dir with
         | LEQ => bound_written (set_lowerbound value) name (i + 3) b r
         | GEQ => bound_written (set_upperbound value) name (i + 3) b r
         | EQ => bound_written (fun v => set_lowerbound value (set_upperbound value v))
                   name (i + 3) b r
         | L | G => r = Err ParseError
         end
     end) /\
  (forall i b value dir name,
     tokens !! i = Some (VARID name) ->
     tokens !! (i + 1) = Some (COMP dir) ->
     tokens !! (i + 2) = Some (CONST value) ->
     let r := processboundssec_step tokens (i, b) in
     match dir with
     | LEQ => bound_written (set_upperbound value) name (i + 3) b r
     | GEQ => bound_written (set_lowerbound value) name (i + 3) b r
     | EQ => bound_written (fun v => set_lowerbound value (set_upperbound value v))
               name (i + 3) b r
     | L | G => r = Err ParseError
     end) /\
  (forall sectiontokens b b',
     sectiontokens BOUNDS = tokens -> processboundssec sectiontokens b = Ok b' ->
     (COMP L ∉ tokens) /\ (COMP G ∉ tokens)) /\
  (forall sectiontokens b b',
     sectiontokens BOUNDS = tokens -> processboundssec sectiontokens b = Ok b' ->
     exists ws, bounds_upto tokens (length tokens) ws /\
                variables b' = foldl write_bound (variables b) ws).
Proof.
  split; [|split; [|split]].
  - intros i b value dir name H0 H1 H2 r. subst r.
    unfold processboundssec_step, bound_written. rewrite H0, H1, H2.
    destruct (getvarbyname name b) as [var b1] eqn:Hvar.
    apply getvarbyname_updates in Hvar as [-> Hu].
    destruct (tokens !! (i + 3)) as [[]|] eqn:H3;
      try destruct (tokens !! (i + 4)) as [[]|] eqn:H4;
      lazymatch goal with
      | |- context [decide (dir = LEQ /\ ?d = LEQ)] =>
          destruct (decide (dir = LEQ /\ d = LEQ)) as [[-> ->]|Hn];
          [|destruct dir, d; simpl; try done; destruct Hn; done]
      | |- _ => destruct dir; simpl; try done
      end;
      eexists; (split; [done|]); by repeat apply update_var_updates.
  - intros i b value dir name H0 H1 H2 r. subst r.
    unfold processboundssec_step, bound_written. rewrite H0, H1, H2.
    destruct (getvarbyname name b) as [var b1] eqn:Hvar.
    apply getvarbyname_updates in Hvar as [-> Hu].
    destruct dir; simpl; try done;
      eexists; (split; [done|]); by repeat apply update_var_updates.
  - intros sectiontokens b b' <- [_ Hall]%processboundssec_spec.
    rewrite list.Forall_forall in Hall. split; intros Hin; by apply Hall in Hin.
  - intros sectiontokens b b' <-. apply processboundssec_writes.
Qed.

Lemma bounds_entries_witness :
  bound_written (set_lowerbound 1%float) "x" 3 new_Builder
    (processboundssec_step bounds_lower (0, new_Builder)) /\
  processboundssec_step bounds_strict (0, new_Builder) = Err ParseError /\
  (exists b',
     processboundssec (<[BOUNDS := bounds_three]> no_sections) new_Builder = Ok b' /\
     exists ws, bounds_upto bounds_three (length bounds_three) ws /\
                variables b' = foldl write_bound (variables new_Builder) ws) /\
  (exists b',
     processboundssec (<[BOUNDS := bounds_three]> no_sections) new_Builder = Ok b' /\
     (var_lowerbound (var_of b' "x"), var_upperbound (var_of b' "x"))
     = (1%float, 9%float) /\
     (var_lowerbound (var_of b' "y"), var_upperbound (var_of b' "y"))
     = (2%float, infinity)).
Proof.
  split; [|split; [|split]].
  - exact (proj1 (bounds_entries bounds_lower) 0 new_Builder 1%float LEQ "x"
             eq_refl eq_refl eq_refl).
  - exact (proj1 (proj2 (bounds_entries bounds_strict)) 0 new_Builder 3%float L "y"
             eq_refl eq_refl eq_refl).
  - eexists. split; [reflexivity|].
    by apply (proj2 (proj2 (proj2 (bounds_entries bounds_three)))
                (<[BOUNDS := bounds_three]> no_sections)).
  - eexists. split; [reflexivity|]. split; reflexivity.
Defined.

(** ** The type sections *)

Section for_tokens.
Context (body : ProcessedToken -> Builder -> result Builder).
Context (f : VariableType -> VariableType) (Q : Variable_ -> Prop).
Hypothesis body_spec : forall t b b',
  body t b = Ok b' ->
  exists name v', t = VARID name /\ updates name v' b b' /\
                  var_type v' = f (type_of b name) /\ Q v'.

Lemma for_tokens_spec tokens b b' :
  for_tokens body tokens b = Ok b' ->
  (forall x, type_of b' x = Nat.iter (mentions x tokens) f (type_of b x)) /\
  (forall x, is_Some (variables b !! x) \/ 0 < mentions x tokens ->
             is_Some (variables b' !! x)) /\
  (store_inv Q b -> store_inv Q b').
Proof.
  revert b. induction tokens as [|t tokens IH]; intros b; simpl.
  - intros [= <-]. repeat split; [|done]. intros x [?|?]; [done|lia].
  - intros (b1 & Hbody & Hrest)%bind_Ok.
    apply body_spec in Hbody as (name & v' & -> & Hu & Hty & HQ).
    apply IH in Hrest as (Htypes & Hsome & Hinv).
    split; [|split].
    + intros x. rewrite Htypes, (updates_type_of _ _ _ _ _ Hu).
      case_decide as Hx; case_decide as Hx'; try congruence; simpl; [|done].
      subst. by rewrite Hty, <- Nat.iter_succ_r.
    + intros x Hx. apply Hsome.
      destruct (decide (name = x)) as [->|Hne].
      * left. eapply updates_is_Some; [done|by left].
      * destruct Hx as [Hx|Hx].
        -- left. eapply updates_is_Some; [done|by right].
        -- right. simpl in Hx. lia.
    + intros Hb. by eapply Hinv, updates_store_inv.
Qed.

Lemma for_tokens_nofuel tokens b :
  (forall t b, body t b <> Err OutOfFuel) ->
  for_tokens body tokens b <> Err OutOfFuel.
Proof.
  intros Hbody. revert b. induction tokens as [|t tokens IH]; intros b; simpl; [done|].
  apply bind_nofuel; [apply Hbody|]. intros b1 _. apply IH.
Qed.
End for_tokens.

Lemma var_type_is_spec ty name b var b1 :
  getvarbyname name b = (var, b1) ->
  var_type_is ty var b1 = bool_decide (type_of b name = ty).
Proof.
  intros [-> Hu]%getvarbyname_updates. unfold var_type_is.
  rewrite Hu, lookup_insert_eq. by rewrite var_of_type.
Qed.

Lemma processgensec_body_spec t b b' :
  processgensec_body t b = Ok b' ->
  exists name v', t = VARID name /\ updates name v' b b' /\
                  var_type v' = gen_type (type_of b name) /\
                  var_type v' <> BINARY.
Proof.
  destruct t; try discriminate. simpl.
  destruct (getvarbyname name b) as [var b1] eqn:Hvar.
  rewrite (var_type_is_spec _ _ _ _ _ Hvar).
  apply getvarbyname_updates in Hvar as [-> Hu].
  case_bool_decide as Hty; intros [= <-]; eexists _, _; (split; [done|]);
    (split; [by apply update_var_updates|]); unfold gen_type; simpl;
    [rewrite decide_True by done|rewrite decide_False by done]; done.
Qed.

Lemma processsemisec_body_spec t b b' :
  processsemisec_body t b = Ok b' ->
  exists name v', t = VARID name /\ updates name v' b b' /\
                  var_type v' = semi_type (type_of b name) /\
                  var_type v' <> BINARY.
Proof.
  destruct t; try discriminate. simpl.
  destruct (getvarbyname name b) as [var b1] eqn:Hvar.
  rewrite (var_type_is_spec _ _ _ _ _ Hvar).
  apply getvarbyname_updates in Hvar as [-> Hu].
  case_bool_decide as Hty; intros [= <-]; eexists _, _; (split; [done|]);
    (split; [by apply update_var_updates|]); unfold semi_type; simpl;
    [rewrite decide_True by done|rewrite decide_False by done]; done.
Qed.

Lemma processbinsec_body_spec t b b' :
  processbinsec_body t b = Ok b' ->
  exists name v', t = VARID name /\ updates name v' b b' /\
                  var_type v' = bin_type (type_of b name) /\
                  binary_ok v'.
Proof.
  destruct t; try discriminate. simpl.
  destruct (getvarbyname name b) as [var b1] eqn:Hvar.
  apply getvarbyname_updates in Hvar as [-> Hu].
  intros [= <-]; eexists _, _; (split; [done|]);
    (split; [by repeat apply update_var_updates|]); done.
Qed.

(** ** The SOS section *)

Lemma sosentry_step_spec tokens entries i b entries' i' b' :
  sosentry_step tokens (entries, i, b) = Ok (Some (entries', i', b')) ->
  i < i' /\ grows b b'.
Proof.
  unfold sosentry_step.
  repeat (case_match; try discriminate); intros ?; simplify_eq.
  match goal with
  | H : getvarbyname _ _ = _ |- _ => apply getvarbyname_grows in H as (? & ? & ?)
  end.
  split; [lia|done].
Qed.

Lemma sosentry_step_nofuel tokens s : sosentry_step tokens s <> Err OutOfFuel.
Proof.
  destruct s as [[entries i] b]. unfold sosentry_step. by repeat case_match.
Qed.

Lemma sosentry_loop_spec tokens fuel entries i b entries' i' b' :
  while_loop fuel (fun s => (s.1.2 <? length tokens)%nat) (sosentry_step tokens)
    (entries, i, b) = Ok (entries', i', b') ->
  i <= i' /\ grows b b'.
Proof.
  apply (while_loop_inv _ _ (fun s => i <= s.1.2 /\ grows b s.2)).
  - intros [[e1 i1] b1] [[e2 i2] b2] [Hle Hg] _ Hstep.
    apply sosentry_step_spec in Hstep as [? ?]. simpl in *.
    split; [lia|by eapply grows_trans].
  - simpl. split; [lia|apply grows_refl].
Qed.

Lemma sosentry_loop_nofuel tokens entries i b :
  while_loop (length tokens) (fun s => (s.1.2 <? length tokens)%nat)
    (sosentry_step tokens) (entries, i, b) <> Err OutOfFuel.
Proof.
  apply (while_loop_nofuel _ _ (fun _ => True) (fun s => length tokens - s.1.2)).
  - intros [[e1 i1] b1] _ Hc%Nat.ltb_lt. simpl in *. lia.
  - intros [[e1 i1] b1] [[e2 i2] b2] _ Hc%Nat.ltb_lt Hstep. split; [done|].
    apply sosentry_step_spec in Hstep as [? _]. simpl in *. lia.
  - intros s _ _. apply sosentry_step_nofuel.
  - done.
  - simpl. lia.
Qed.

Lemma processsossec_step_spec tokens i b i' b' :
  processsossec_step tokens (i, b) = Ok (Some (i', b')) ->
  i < i' /\ grows b b'.
Proof.
  unfold processsossec_step.
  destruct (tokens !! i) as [[]|]; try discriminate.
  destruct (tokens !! (i + 1)) as [[]|]; try discriminate.
  intros (ty & _ & ([[entries i1] b1] & Hloop & [= <- <-])%bind_Ok)%bind_Ok.
  apply sosentry_loop_spec in Hloop as [? ?]. split; [lia|done].
Qed.

Lemma parse_sostype_nofuel sostype : parse_sostype sostype <> Err OutOfFuel.
Proof.
  unfold parse_sostype. repeat (case_match; try done).
  repeat (apply bind_nofuel; [apply lpassert_nofuel|intros ? _]). done.
Qed.

Lemma processsossec_step_nofuel tokens s :
  processsossec_step tokens s <> Err OutOfFuel.
Proof.
  destruct s as [i b]. unfold processsossec_step.
  destruct (tokens !! i) as [[]|]; try done.
  destruct (tokens !! (i + 1)) as [[]|]; try done.
  apply bind_nofuel; [apply parse_sostype_nofuel|intros ty _].
  apply bind_nofuel; [apply sosentry_loop_nofuel|by intros [[? ?] ?] _].
Qed.

Lemma processsossec_spec sectiontokens b b' :
  processsossec sectiontokens b = Ok b' -> grows b b'.
Proof.
  unfold processsossec. intros ([i1 b1] & Hloop & [= <-])%bind_Ok. revert Hloop.
  apply (while_loop_inv _ _ (fun s => grows b s.2)).
  - intros [i2 b2] [i3 b3] Hg _ Hstep.
    apply processsossec_step_spec in Hstep as [_ ?]. by eapply grows_trans.
  - apply grows_refl.
Qed.

Lemma processsossec_terminates sectiontokens b :
  processsossec sectiontokens b <> Err OutOfFuel.
Proof.
  unfold processsossec. apply bind_nofuel; [|by intros [? ?]].
  apply (while_loop_nofuel _ _ (fun _ => True)
           (fun s => length (sectiontokens SOS) - s.1)).
  - intros [i1 b1] _ Hc%Nat.ltb_lt. simpl in *. lia.
  - intros [i1 b1] [i2 b2] _ Hc%Nat.ltb_lt Hstep. split; [done|].
    apply processsossec_step_spec in Hstep as (? & _). simpl in *. lia.
  - intros s _ _. apply processsossec_step_nofuel.
  - done.
  - simpl. lia.
Qed.

(** ** The objective section and the splitter *)

Lemma processobjsec_spec sectiontokens b b' :
  processobjsec sectiontokens b = Ok b' -> grows b b'.
Proof.
  unfold processobjsec.
  intros ([[e1 i1] b1] & Hexpr & (? & _ & [= <-])%bind_Ok)%bind_Ok.
  by apply (parseexpression_spec (fun _ => true)) in Hexpr as (_ & ? & _).
Qed.

Lemma processobjsec_terminates sectiontokens b :
  processobjsec sectiontokens b <> Err OutOfFuel.
Proof.
  unfold processobjsec.
  apply bind_nofuel; [apply parseexpression_terminates|intros [[e1 i1] b1] _].
  apply bind_nofuel; [apply lpassert_nofuel|done].
Qed.

Lemma splittokens_loop_variables processedtokens currentsection sectiontokens b st b' :
  splittokens_loop processedtokens currentsection sectiontokens b = Ok (st, b') ->
  variables b' = variables b.
Proof.
  revert currentsection sectiontokens b.
  induction processedtokens as [|t processedtokens IH];
    intros currentsection sectiontokens b; simpl.
  - by intros [= _ <-].
  - destruct t; try apply IH.
    + intros (? & _ & (? & _ & Hrest)%bind_Ok)%bind_Ok. by apply IH in Hrest.
    + intros (b1 & Hsense & (? & _ & Hrest)%bind_Ok)%bind_Ok.
      apply IH in Hrest as ->. by destruct objsense; simplify_eq.
Qed.

Lemma splittokens_loop_nofuel processedtokens currentsection sectiontokens b :
  splittokens_loop processedtokens currentsection sectiontokens b <> Err OutOfFuel.
Proof.
  revert currentsection sectiontokens b.
  induction processedtokens as [|t processedtokens IH];
    intros currentsection sectiontokens b; simpl; [done|].
  destruct t; try apply IH.
  - apply bind_nofuel; [by case_decide|intros ? _].
    apply bind_nofuel; [apply lpassert_nofuel|intros ? _]. apply IH.
  - apply bind_nofuel; [by destruct objsense|intros ? _].
    apply bind_nofuel; [apply lpassert_nofuel|intros ? _]. apply IH.
Qed.

(** [read_tokens] always comes to an end: it returns a model, a parse error
    or the undefined read of a token. *)
Lemma read_tokens_terminates rawtokens : read_tokens rawtokens <> Err OutOfFuel.
Proof.
  unfold read_tokens.
  apply bind_nofuel; [apply processtokens_terminates|intros processedtokens _].
  apply bind_nofuel; [apply splittokens_loop_nofuel|intros [st b] _].
  unfold processsections, processnonesec, processendsec,
    processgensec, processbinsec, processsemisec.
  repeat first
    [ apply lpassert_nofuel
    | apply processobjsec_terminates
    | apply processconsec_terminates
    | apply processboundssec_terminates
    | apply processsossec_terminates
    | apply for_tokens_nofuel; intros [] ?; simpl; repeat case_match; done
    | done
    | apply bind_nofuel; [|intros ? _] ].
Qed.

(** ** All sections *)

Lemma has_type_type_of b x T :
  is_Some (variables b !! x) -> type_of b x = T -> has_type b x T.
Proof.
  intros [v Hv]. unfold type_of, has_type. rewrite Hv. by eauto.
Qed.

Lemma iter_gen_type n :
  Nat.iter n gen_type CONTINUOUS = match n with 0 => CONTINUOUS | S _ => GENERAL end.
Proof. induction n as [|[|n] IH]; [done|done|]. simpl in *. by rewrite IH. Qed.

Lemma iter_bin_type n T :
  Nat.iter n bin_type T = match n with 0 => T | S _ => BINARY end.
Proof. by destruct n. Qed.

Lemma iter_semi_type n T :
  T <> GENERAL -> 0 < n -> Nat.iter n semi_type T = SEMICONTINUOUS.
Proof.
  intros HT Hn. destruct n as [|n]; [lia|]. clear Hn.
  induction n as [|n IH]; simpl in *.
  - unfold semi_type. by rewrite decide_False.
  - by rewrite IH.
Qed.

(** The types and the binary bounds at the end of [processsections], from a
    builder without variables. *)
Lemma processsections_spec sectiontokens b0 b :
  variables b0 = ∅ ->
  processsections sectiontokens b0 = Ok b ->
  (forall x,
     type_of b x
     = Nat.iter (mentions x (sectiontokens SEMI)) semi_type
         (Nat.iter (mentions x (sectiontokens BIN)) bin_type
            (Nat.iter (mentions x (sectiontokens GEN)) gen_type CONTINUOUS))) /\
  (forall x, 0 < mentions x (sectiontokens GEN) \/ 0 < mentions x (sectiontokens SEMI) ->
             is_Some (variables b !! x)) /\
  store_inv binary_ok b.
Proof.
  intros Hempty. unfold processsections.
  intros (b1 & Hnone & (b2 & Hobj & (b3 & Hcon & (b4 & Hbounds & (b5 & Hgen &
          (b6 & Hbin & (b7 & Hsemi & (b8 & Hsos & Hend)%bind_Ok)%bind_Ok)%bind_Ok)
          %bind_Ok)%bind_Ok)%bind_Ok)%bind_Ok)%bind_Ok.
  apply bind_Ok in Hnone as (u1 & _ & [= <-]).
  apply bind_Ok in Hend as (u2 & _ & [= <-]).
  apply processobjsec_spec, grows_keeps_types in Hobj.
  apply processconsec_spec in Hcon as [Hcon%grows_keeps_types _].
  apply processboundssec_spec in Hbounds as [Hbounds _].
  pose proof (keeps_types_trans _ _ _ (keeps_types_trans _ _ _ Hobj Hcon) Hbounds) as H04.
  assert (forall x, type_of b4 x = CONTINUOUS) as Hcont.
  { intros x. destruct (H04 x) as [-> _]. unfold type_of. by rewrite Hempty. }
  assert (store_inv (fun v => var_type v <> BINARY) b4) as Hnobin.
  { intros x v Hv. specialize (Hcont x). unfold type_of in Hcont.
    rewrite Hv in Hcont. by rewrite Hcont. }
  apply (for_tokens_spec _ gen_type (fun v => var_type v <> BINARY)) in Hgen
    as (Hgen_ty & Hgen_some & Hgen_inv); [|apply processgensec_body_spec].
  apply (for_tokens_spec _ bin_type binary_ok) in Hbin
    as (Hbin_ty & Hbin_some & Hbin_inv); [|apply processbinsec_body_spec].
  apply (for_tokens_spec _ semi_type binary_ok) in Hsemi
    as (Hsemi_ty & Hsemi_some & Hsemi_inv).
  2:{ intros t c c' (name & v' & ? & ? & ? & ?)%processsemisec_body_spec.
      exists name, v'. by repeat split. }
  apply processsossec_spec in Hsos.
  split; [|split].
  - intros x. rewrite (grows_type_of _ _ _ Hsos), Hsemi_ty, Hbin_ty, Hgen_ty.
    by rewrite Hcont.
  - intros x Hx. eapply grows_is_Some; [done|]. apply Hsemi_some.
    destruct Hx as [Hx|Hx]; [left|by right].
    apply Hbin_some. left. apply Hgen_some. by right.
  - eapply grows_store_inv; [|done|]; [by intros name [=]|].
    apply Hsemi_inv, Hbin_inv. intros x v Hv Hty.
    by apply Hgen_inv in Hv; [|done].
Qed.

Lemma read_tokens_Ok rawtokens b :
  read_tokens rawtokens = Ok b <->
  exists processedtokens sectiontokens b0,
    processtokens rawtokens = Ok processedtokens /\
    splittokens processedtokens new_Builder = Ok (sectiontokens, b0) /\
    processsections sectiontokens b0 = Ok b.
Proof.
  unfold read_tokens. rewrite bind_Ok. split.
  - intros (p & Hp & ([st b0] & Hs & Hb)%bind_Ok). by eauto 10.
  - intros (p & st & b0 & Hp & Hs & Hb). exists p. split; [done|].
    apply bind_Ok. by exists (st, b0).
Qed.

(** C7 (as amended). For every successfully parsed file: a variable mentioned
    in the general section, not in the binary section and exactly once in the
    semi section ends semi-integer; a variable mentioned in the general
    section and in neither the binary nor the semi section ends
    general-integer; a variable mentioned in the semi section and not in the
    general section ends semi-continuous. *)
Theorem types_of_general_and_semi rawtokens processedtokens sectiontokens b0 b x :
  processtokens rawtokens = Ok processedtokens ->
  splittokens processedtokens new_Builder = Ok (sectiontokens, b0) ->
  processsections sectiontokens b0 = Ok b ->
  (0 < mentions x (sectiontokens GEN) -> mentions x (sectiontokens BIN) = 0 ->
   mentions x (sectiontokens SEMI) = 1 -> has_type b x SEMIINTEGER) /\
  (0 < mentions x (sectiontokens GEN) -> mentions x (sectiontokens BIN) = 0 ->
   mentions x (sectiontokens SEMI) = 0 -> has_type b x GENERAL) /\
  (mentions x (sectiontokens GEN) = 0 -> 0 < mentions x (sectiontokens SEMI) ->
   has_type b x SEMICONTINUOUS).
Proof.
  intros _ Hsplit Hsections.
  apply splittokens_loop_variables in Hsplit.
  apply processsections_spec in Hsections as (Hty & Hsome & _); [|done].
  specialize (Hty x). rewrite iter_gen_type, iter_bin_type in Hty.
  split; [|split].
  - intros Hgen Hbin Hsemi. apply has_type_type_of; [apply Hsome; by left|].
    rewrite Hty, Hbin, Hsemi. by destruct (mentions x (sectiontokens GEN)); [lia|].
  - intros Hgen Hbin Hsemi. apply has_type_type_of; [apply Hsome; by left|].
    rewrite Hty, Hbin, Hsemi. by destruct (mentions x (sectiontokens GEN)); [lia|].
  - intros Hgen Hsemi. apply has_type_type_of; [apply Hsome; by right|].
    rewrite Hty, Hgen. apply iter_semi_type; [|done].
    by destruct (mentions x (sectiontokens BIN)).
Qed.

Lemma types_of_general_and_semi_witness :
  exists b, read_tokens lp_general_semi = Ok b /\ has_type b "x" SEMIINTEGER.
Proof.
  eexists. split; [reflexivity|].
  eapply (proj1 (types_of_general_and_semi lp_general_semi _ _ _ _ "x"
                   eq_refl eq_refl eq_refl));
    [cbv; lia|reflexivity|reflexivity].
Defined.

(** C7 (as stated) fails: a variable of the general and the semi section that
    is also named in the binary section, which is processed between the two,
    ends semi-continuous. *)
Lemma general_binary_semi_is_semicontinuous :
  exists processedtokens sectiontokens b0 b,
    processtokens lp_general_binary_semi = Ok processedtokens /\
    splittokens processedtokens new_Builder = Ok (sectiontokens, b0) /\
    processsections sectiontokens b0 = Ok b /\
    mentions "x" (sectiontokens GEN) = 1 /\
    mentions "x" (sectiontokens SEMI) = 1 /\
    has_type b "x" SEMICONTINUOUS.
Proof.
  eexists _, _, _, _. split; [reflexivity|]. split; [reflexivity|].
  split; [reflexivity|]. split; [reflexivity|]. split; [reflexivity|].
  eexists. split; reflexivity.
Qed.

(** C8. The binary-section processor sets the type of the variable it names
    to binary and its bounds to [0, 1]; and in the model of every
    successfully parsed file, every variable whose type is binary has lower
    bound 0 and upper bound 1. *)
Theorem binary_variables_have_unit_bounds :
  (forall name c, exists c' v,
     processbinsec_body (VARID name) c = Ok c' /\
     variables c' !! name = Some v /\
     var_type v = BINARY /\ var_lowerbound v = 0%float /\ var_upperbound v = 1%float) /\
  (forall rawtokens b, read_tokens rawtokens = Ok b ->
     forall x v, variables b !! x = Some v -> var_type v = BINARY ->
                 var_lowerbound v = 0%float /\ var_upperbound v = 1%float).
Proof.
  split.
  - intros name c. simpl.
    destruct (getvarbyname name c) as [var c1] eqn:Hvar.
    apply getvarbyname_updates in Hvar as [-> Hu].
    eexists _, _. split; [done|].
    apply (update_var_updates _ _ (set_type BINARY)) in Hu.
    apply (update_var_updates _ _ (set_lowerbound 0%float)) in Hu.
    apply (update_var_updates _ _ (set_upperbound 1%float)) in Hu.
    unfold updates in Hu. by rewrite Hu, lookup_insert_eq.
  - intros rawtokens b (p & st & b0 & _ & Hsplit & Hsections)%read_tokens_Ok x v Hv Hty.
    apply splittokens_loop_variables in Hsplit.
    apply processsections_spec in Hsections as (_ & _ & Hbin); [|done].
    by apply (Hbin x v).
Qed.

Lemma binary_variables_have_unit_bounds_witness :
  exists b v, read_tokens lp_binary = Ok b /\ variables b !! "x" = Some v /\
              var_type v = BINARY /\
              var_lowerbound v = 0%float /\ var_upperbound v = 1%float.
Proof.
  eexists _, _. split; [reflexivity|]. split; [reflexivity|]. split; [reflexivity|].
  eapply (proj2 binary_variables_have_unit_bounds lp_binary _ eq_refl "x" _);
    reflexivity.
Defined.

(** C1 (the code departs from it). The test for a leading label reads the
    type of the first token of the vector instead of the token at the cursor:
    when the first token is not a label, no label is consumed at any cursor.
    After the unlabelled constraint [x >= 1], the label of [c2: y <= 2] at
    index 3 is left in place with the name empty, and the file is rejected.
    After the labelled constraint [c1: x >= 1], the name of the unlabelled
    [y <= 2] is read from the variable token [y] as if it were a label. *)
Theorem label_is_tested_on_first_token :
  (forall tokens e i b,
     (forall name, tokens !! 0 <> Some (CONID name)) ->
     parse_label tokens (e, i, b) = Ok (e, i, b)) /\
  con_second_labelled !! 3 = Some (CONID "c2") /\
  parseexpression con_second_labelled new_Expression 3 false new_Builder
  = Ok (new_Expression, 3, new_Builder) /\
  processtokens lp_second_labelled
  = Ok ([SECID_OBJ ObjKw.MIN; VARID "x"; SECID CON] ++ con_second_labelled ++ [SECID END]) /\
  read_tokens lp_second_labelled = Err ParseError /\
  read_tokens lp_first_labelled = Err UndefinedBehaviour.
Proof.
  split; [|by repeat split].
  intros tokens e i b Hfirst. unfold parse_label.
  destruct (tokens !! i); [|done].
  destruct (tokens !! 0) as [[]|]; try done. by destruct (Hfirst name).
Qed.

(** C2 (the code departs from it). The splitter tests that the bucket of the
    section is empty, not that the section did not occur: a header whose
    bucket is still empty is accepted however often it occurred before, and
    the file with two [bounds] headers in a row is read. *)
Theorem repeated_header_of_empty_section_is_accepted :
  (forall processedtokens keyword currentsection (sectiontokens : sections) b,
     keyword <> OBJ -> sectiontokens keyword = [] ->
     splittokens_loop (SECID keyword :: SECID keyword :: processedtokens)
       currentsection sectiontokens b
     = splittokens_loop processedtokens keyword sectiontokens b) /\
  processtokens lp_bounds_twice
  = Ok [SECID_OBJ ObjKw.MIN; VARID "x"; SECID CON; VARID "x"; COMP GEQ; CONST 1%float;
        SECID BOUNDS; SECID BOUNDS; VARID "x"; COMP LEQ; CONST 4%float; SECID END] /\
  exists b, read_tokens lp_bounds_twice = Ok b /\
            variables b !! "x"
            = Some {| var_type := CONTINUOUS; var_lowerbound := 0%float;
                      var_upperbound := 4%float; var_name := "x" |}.
Proof.
  split; [|split; [reflexivity|eexists; split; reflexivity]].
  intros processedtokens keyword currentsection sectiontokens b Hobj Hempty. simpl.
  rewrite decide_False by done. simpl. by rewrite Hempty.
Qed.

(** * Further properties *)

(** ** Keyword comparison *)

Lemma lowercase_length s : String.length (lowercase s) = String.length s.
Proof. induction s as [|c r IH]; simpl; [done|by rewrite IH]. Qed.

Lemma isstrequalnocase_from_lowercase str1 str2 :
  String.length str1 = String.length str2 ->
  isstrequalnocase_from str1 str2 = true <-> lowercase str1 = lowercase str2.
Proof.
  revert str2. induction str1 as [|c1 r1 IH]; intros [|c2 r2]; simpl; try done.
  intros [= Hlen]. case_decide as Hc.
  - rewrite IH by done. rewrite Hc. split; [by intros ->|by intros [= ->]].
  - split; [done|]. by intros [= ? _].
Qed.

Lemma isstrequalnocase_iff a b :
  isstrequalnocase a b = true <-> lowercase a = lowercase b.
Proof.
  unfold isstrequalnocase.
  destruct (String.length b =? String.length a)%nat eqn:Hlen; simpl.
  - apply Nat.eqb_eq in Hlen. by apply isstrequalnocase_from_lowercase.
  - apply Nat.eqb_neq in Hlen. split; [done|]. intros Heq. destruct Hlen.
    by rewrite <- (lowercase_length a), <- (lowercase_length b), Heq.
Qed.

(** X1. [isstrequalnocase] holds exactly when the two strings have the same
    image under [tolower]; strings of different lengths are never equal, and
    the comparison is reflexive, symmetric and transitive. *)
Theorem isstrequalnocase_lowercase str1 str2 str3 :
  (isstrequalnocase str1 str2 = true <-> lowercase str1 = lowercase str2) /\
  (String.length str1 <> String.length str2 -> isstrequalnocase str1 str2 = false) /\
  isstrequalnocase str1 str1 = true /\
  isstrequalnocase str1 str2 = isstrequalnocase str2 str1 /\
  (isstrequalnocase str1 str2 = true -> isstrequalnocase str2 str3 = true ->
   isstrequalnocase str1 str3 = true).
Proof.
  pose proof isstrequalnocase_iff as Hchar.
  split; [apply Hchar|]. split; [|split; [|split]].
  - intros Hlen. unfold isstrequalnocase.
    destruct (String.length str2 =? String.length str1)%nat eqn:E; [|done].
    apply Nat.eqb_eq in E. by destruct Hlen.
  - by apply Hchar.
  - apply eq_true_iff_eq. rewrite !Hchar. split; by intros ->.
  - rewrite !Hchar. by intros -> ->.
Qed.

Lemma isstrequalnocase_lowercase_witness :
  isstrequalnocase "MiNiMum" "minimum" = true /\
  isstrequalnocase "min" "mini" = false.
Proof.
  split.
  - apply (proj1 (isstrequalnocase_lowercase "MiNiMum" "minimum" "")). reflexivity.
  - apply (proj1 (proj2 (isstrequalnocase_lowercase "min" "mini" ""))). simpl. lia.
Defined.

Lemma isstrequalnocase_congr a b k :
  isstrequalnocase a b = true -> isstrequalnocase a k = isstrequalnocase b k.
Proof.
  intros Hab. apply eq_true_iff_eq.
  rewrite !isstrequalnocase_iff.
  apply isstrequalnocase_iff in Hab. by rewrite Hab.
Qed.

Lemma iskeyword_congr a b keywords :
  isstrequalnocase a b = true -> iskeyword a keywords = iskeyword b keywords.
Proof.
  intros Hab. unfold iskeyword.
  induction keywords as [|k keywords IH]; simpl; [done|].
  by rewrite IH, (isstrequalnocase_congr a b k).
Qed.

(** X2. Keyword recognition does not depend on case: two strings that
    [isstrequalnocase] identifies are the same keyword of any table, the same
    objective keyword and the same section keyword. *)
Theorem keywords_ignore_case a b :
  isstrequalnocase a b = true ->
  (forall keywords, iskeyword a keywords = iskeyword b keywords) /\
  parseobjectivesectionkeyword a = parseobjectivesectionkeyword b /\
  parsesectionkeyword a = parsesectionkeyword b.
Proof.
  intros Hab. split; [intros; by apply iskeyword_congr|].
  assert (parseobjectivesectionkeyword a = parseobjectivesectionkeyword b) as Hobj.
  { unfold parseobjectivesectionkeyword. by rewrite !(iskeyword_congr a b). }
  split; [done|]. unfold parsesectionkeyword.
  by rewrite Hobj, !(iskeyword_congr a b).
Qed.

Lemma keywords_ignore_case_witness :
  parsesectionkeyword "BoUnDs" = parsesectionkeyword "bounds".
Proof. apply (keywords_ignore_case "BoUnDs" "bounds"). reflexivity. Defined.

(** ** What the classifier pushes *)

Lemma first_match_alternatives_shape rawtokens i out i' :
  first_match alternatives rawtokens i = Ok (out, i') ->
  length out <= 1 /\ i' <= length rawtokens /\ Forall (classified_from rawtokens) out.
Proof.
  unfold_alternatives.
  destruct (rawtokens !! i) as [t0|] eqn:H0; [|discriminate].
  destruct t0; try discriminate;
    repeat (case_match; try discriminate);
    intros ?; simplify_eq;
    repeat match goal with
           | H : rawtokens !! ?k = Some ?t |- _ =>
               lazymatch goal with
               | _ : k < length rawtokens |- _ => fail
               | _ => pose proof (lookup_lt_Some _ _ _ H);
                      pose proof (list_elem_of_lookup_2 _ _ _ H)
               end
           end;
    (split; [simpl; lia|]); (split; [lia|]);
    repeat first [apply Forall_nil | apply Forall_cons; [simpl|]];
    first [done | by apply parsesectionkeyword_OBJ | by eauto 10].
Qed.

(** X3. The classifier pushes at most one token for every raw token it
    consumes, and builds every token from the raw tokens: the list it returns
    is no longer than the raw-token vector, a header in it names a section
    (and an objective header a sense), every name in it is the text of a raw
    string, and every constant is 1, -1, infinity, a raw number or the
    negation of one. *)
Theorem processtokens_output rawtokens processedtokens :
  processtokens rawtokens = Ok processedtokens ->
  length processedtokens <= length rawtokens /\
  forall t, t ∈ processedtokens -> classified_from rawtokens t.
Proof.
  unfold processtokens. intros ([out i] & Hloop & [= <-])%bind_Ok.
  rewrite <- list.Forall_forall.
  cut (length out <= i /\ i <= length rawtokens /\ Forall (classified_from rawtokens) out).
  { intros (? & ? & ?). split; [lia|done]. }
  revert Hloop.
  apply (while_loop_inv _ _
    (fun s => length s.1 <= s.2 /\ s.2 <= length rawtokens /\
              Forall (classified_from rawtokens) s.1)).
  - intros [p j] [p' j'] (Hlen & Hj & Hall) _ Hstep. simpl in *.
    apply bind_Ok in Hstep as ([o k] & Hfm & [= <- <-]).
    pose proof Hfm as [Hlt _]%first_match_alternatives_out.
    apply first_match_alternatives_shape in Hfm as (Ho & Hk & Hcl).
    rewrite length_app. split; [lia|]. split; [done|]. by apply Forall_app.
  - simpl. split; [lia|]. split; [lia|by constructor].
Qed.

Lemma processtokens_output_witness :
  length [VARID "x"; CONST (-1)%float; VARID "y"; CONST 3%float]
  <= length raw_x_minus_y_plus_3.
Proof.
  exact (proj1 (processtokens_output raw_x_minus_y_plus_3 _ eq_refl)).
Defined.

(** ** The buckets of the splitter *)

Lemma splittokens_loop_buckets processedtokens currentsection
    (sectiontokens : sections) b st b' :
  splittokens_loop processedtokens currentsection sectiontokens b = Ok (st, b') ->
  forall k, st k = sectiontokens k ++ bucket k currentsection processedtokens.
Proof.
  revert currentsection sectiontokens b.
  induction processedtokens as [|t processedtokens IH];
    intros currentsection sectiontokens b; simpl.
  - intros [= <- <-] k. by rewrite app_nil_r.
  - assert (forall k,
      push_token currentsection t sectiontokens k
      = sectiontokens k ++ (if decide (currentsection = k) then [t] else [])) as Hpush.
    { intros k. unfold push_token. case_decide as Hk.
      - subst. by rewrite fn_lookup_alter.
      - by rewrite fn_lookup_alter_ne, app_nil_r. }
    destruct t; simpl;
      try (intros Hrest k; rewrite (IH _ _ _ Hrest k), Hpush; by rewrite app_assoc).
    + intros (? & _ & (? & _ & Hrest)%bind_Ok)%bind_Ok k. apply (IH _ _ _ Hrest k).
    + intros (? & _ & (? & _ & Hrest)%bind_Ok)%bind_Ok k. apply (IH _ _ _ Hrest k).
Qed.

Lemma bucket_elem k currentsection processedtokens t :
  t ∈ bucket k currentsection processedtokens ->
  t ∈ processedtokens /\ header_kind t = None.
Proof.
  revert currentsection. induction processedtokens as [|t0 r IH];
    intros currentsection; simpl; [by intros ?%elem_of_nil|].
  destruct (header_kind t0) eqn:Hk.
  - intros [? ?]%IH. split; [by right|done].
  - rewrite elem_of_app. intros [Hin|[? ?]%IH]; [|split; [by right|done]].
    case_decide; [|by apply elem_of_nil in Hin].
    apply list_elem_of_singleton in Hin as ->. split; [by left|done].
Qed.

(** X4. When the splitter succeeds, the bucket of every section kind holds,
    in their order, exactly the non-header tokens that stand under a header
    of that kind (under no header at all for the kind NONE): a bucket holds
    no section header and nothing that is not in the token list.  The
    variables of the builder are not touched. *)
Theorem splittokens_buckets processedtokens b st b' :
  splittokens processedtokens b = Ok (st, b') ->
  (forall k, st k = bucket k NONE processedtokens) /\
  (forall k t, t ∈ st k -> t ∈ processedtokens /\ header_kind t = None) /\
  variables b' = variables b.
Proof.
  intros Hsplit. pose proof Hsplit as Hvars%splittokens_loop_variables.
  assert (forall k, st k = bucket k NONE processedtokens) as Hb.
  { intros k. by rewrite (splittokens_loop_buckets _ _ _ _ _ _ Hsplit k). }
  split; [done|]. split; [|done].
  intros k t. rewrite Hb. apply bucket_elem.
Qed.

Lemma splittokens_buckets_witness :
  exists st b',
    splittokens tokens_min_st new_Builder = Ok (st, b') /\
    st CON = [VARID "x"; COMP GEQ; CONST 1%float].
Proof.
  eexists _, _. split; [reflexivity|].
  exact (proj1 (splittokens_buckets tokens_min_st new_Builder _ _ eq_refl) CON).
Defined.

Lemma splittokens_loop_nonempty processedtokens currentsection
    (sectiontokens : sections) b r k :
  splittokens_loop processedtokens currentsection sectiontokens b = Ok r ->
  sectiontokens k <> [] ->
  forall h, h ∈ processedtokens -> header_kind h <> Some k.
Proof.
  revert currentsection sectiontokens b.
  induction processedtokens as [|t processedtokens IH];
    intros currentsection sectiontokens b; simpl;
    [by intros _ _ h ?%elem_of_nil|].
  intros Hloop Hk h.
  assert (push_token currentsection t sectiontokens k <> []) as Hpush
    by (unfold push_token; destruct (decide (currentsection = k)) as [->|];
        [rewrite fn_lookup_alter; by destruct (sectiontokens k)
        |by rewrite fn_lookup_alter_ne]).
  intros [->|Hin]%elem_of_cons.
  - destruct t; try done; simpl in *.
    + apply bind_Ok in Hloop as (? & _ & (? & Hempty%lpassert_Ok & _)%bind_Ok).
      apply bool_decide_eq_true in Hempty. intros [= ->].
      by destruct (sectiontokens k).
    + apply bind_Ok in Hloop as (? & _ & (? & Hempty%lpassert_Ok & _)%bind_Ok).
      apply bool_decide_eq_true in Hempty. intros [= <-].
      by destruct (sectiontokens OBJ).
  - revert Hloop. destruct t; simpl;
      try (intros Hloop; by eapply (IH _ _ _ Hloop)).
    + intros (? & _ & (? & _ & Hloop)%bind_Ok)%bind_Ok. by eapply (IH _ _ _ Hloop).
    + intros (? & _ & (? & _ & Hloop)%bind_Ok)%bind_Ok. by eapply (IH _ _ _ Hloop).
Qed.

Lemma splittokens_reopened p1 h t p2 b r k :
  splittokens (p1 ++ h :: t :: p2) b = Ok r ->
  header_kind h = Some k -> header_kind t = None ->
  forall h', h' ∈ p2 -> header_kind h' <> Some k.
Proof.
  unfold splittokens. generalize NONE at 1. generalize no_sections.
  revert b. induction p1 as [|t1 p1 IH]; intros b st cur Hloop Hh Ht.
  - simpl in Hloop.
    assert (exists b1, splittokens_loop (t :: p2) k st b1 = Ok r) as [b1 Hrest].
    { destruct h; try done; simpl in Hh; simplify_eq;
        apply bind_Ok in Hloop as (? & _ & (? & _ & Hloop)%bind_Ok); by eauto. }
    assert (splittokens_loop p2 k (push_token k t st) b1 = Ok r) as Hp2
      by (by destruct t).
    eapply splittokens_loop_nonempty; [exact Hp2|].
    unfold push_token. rewrite fn_lookup_alter. by destruct (st k).
  - simpl in Hloop. destruct t1;
      try (by eapply IH);
      apply bind_Ok in Hloop as (? & _ & (? & _ & Hloop)%bind_Ok); by eapply IH.
Qed.

(** X5. A section that has received a token cannot be opened again: when a
    header of some kind is followed by a token that is not a header, and a
    header of the same kind occurs later in the list, the splitter fails. *)
Theorem reopened_section_is_rejected p1 h t p2 h' b k :
  header_kind h = Some k -> header_kind t = None ->
  h' ∈ p2 -> header_kind h' = Some k ->
  exists e, splittokens (p1 ++ h :: t :: p2) b = Err e.
Proof.
  intros Hh Ht Hin Hh'.
  destruct (splittokens (p1 ++ h :: t :: p2) b) as [r|e] eqn:Hsplit; [|by eauto].
  by destruct (splittokens_reopened _ _ _ _ _ _ _ Hsplit Hh Ht h' Hin).
Qed.

Lemma reopened_section_is_rejected_witness :
  exists e, splittokens tokens_st_twice new_Builder = Err e.
Proof.
  refine (reopened_section_is_rejected [SECID_OBJ ObjKw.MIN; VARID "x"] (SECID CON)
            (VARID "x")
            [COMP GEQ; CONST 1%float; SECID CON; VARID "x"; COMP LEQ;
             CONST 4%float; SECID END]
            (SECID CON) new_Builder CON eq_refl eq_refl _ eq_refl).
  apply list_elem_of_In. simpl. tauto.
Defined.

Lemma bucket_after_header k currentsection p1 h t p2 :
  header_kind h = Some k -> header_kind t = None ->
  t ∈ bucket k currentsection (p1 ++ h :: t :: p2).
Proof.
  intros Hh Ht. revert currentsection.
  induction p1 as [|t1 p1 IH]; intros currentsection; simpl.
  - rewrite Hh, Ht. rewrite decide_True by done. by left.
  - destruct (header_kind t1); [apply IH|]. apply elem_of_app. right. apply IH.
Qed.

Lemma processsections_empty_buckets (sectiontokens : sections) b0 b :
  processsections sectiontokens b0 = Ok b ->
  sectiontokens NONE = [] /\ sectiontokens END = [].
Proof.
  unfold processsections.
  intros (b1 & Hnone & (b2 & _ & (b3 & _ & (b4 & _ & (b5 & _ &
          (b6 & _ & (b7 & _ & (b8 & _ & Hend)%bind_Ok)%bind_Ok)%bind_Ok)
          %bind_Ok)%bind_Ok)%bind_Ok)%bind_Ok)%bind_Ok.
  apply bind_Ok in Hnone as (u1 & Hn%lpassert_Ok%bool_decide_eq_true & _).
  apply bind_Ok in Hend as (u2 & He%lpassert_Ok%bool_decide_eq_true & _).
  split; [by destruct (sectiontokens NONE)|by destruct (sectiontokens END)].
Qed.

(** X6. A file is read only if nothing stands outside its sections: when
    [read_tokens] returns a model, the first processed token is a section
    header, and the token after an [end] header is again a section header. *)
Theorem nothing_outside_sections rawtokens b :
  read_tokens rawtokens = Ok b ->
  exists processedtokens,
    processtokens rawtokens = Ok processedtokens /\
    (forall t r, processedtokens = t :: r -> is_Some (header_kind t)) /\
    (forall p1 t p2, processedtokens = p1 ++ SECID END :: t :: p2 ->
                     is_Some (header_kind t)).
Proof.
  intros (p & st & b0 & Hp & Hsplit & Hsections)%read_tokens_Ok.
  exists p. split; [done|].
  assert (forall k, st k = bucket k NONE p) as Hb.
  { intros k. by rewrite (splittokens_loop_buckets _ _ _ _ _ _ Hsplit k). }
  apply processsections_empty_buckets in Hsections as [Hnone Hend].
  rewrite Hb in Hnone, Hend. split.
  - intros t r ->. simpl in Hnone.
    destruct (header_kind t) eqn:Ht; [by eauto|done].
  - intros p1 t p2 ->. destruct (header_kind t) eqn:Ht; [by eauto|].
    pose proof (bucket_after_header END NONE p1 (SECID END) t p2 eq_refl Ht) as Hin.
    rewrite Hend in Hin. by apply elem_of_nil in Hin.
Qed.

Lemma nothing_outside_sections_witness :
  exists processedtokens,
    processtokens lp_binary = Ok processedtokens /\
    (forall t r, processedtokens = t :: r -> is_Some (header_kind t)) /\
    (forall p1 t p2, processedtokens = p1 ++ SECID END :: t :: p2 ->
                     is_Some (header_kind t)).
Proof.
  refine (nothing_outside_sections lp_binary _ (eq_refl : read_tokens lp_binary = Ok _)).
Defined.

Lemma sosentry_loop_interns tokens fuel entries i b entries' i' b' :
  while_loop fuel (fun s => (s.1.2 <? length tokens)%nat) (sosentry_step tokens)
    (entries, i, b) = Ok (entries', i', b') ->
  interns b b'.
Proof.
  apply (while_loop_inv _ _ (fun s => interns b s.2)); [|apply interns_refl].
  intros [[e2 i2] b2] [[e3 i3] b3] Hb _. unfold sosentry_step.
  repeat (case_match; try discriminate); intros ?; simplify_eq.
  eapply interns_trans; [done|]. interns_tac.
Qed.

(** ** The objective section *)

(** X7. When the objective section is accepted, every token of its bucket is
    one that an expression of the objective is made of (a label, a constant,
    a variable, a bracket, [^], [*] or [/]): an objective that holds a
    comparison, [free] or an SOS type is rejected.  The processor interns
    variables but changes none that exists, and it leaves the sense, the
    constraints and the SOS sets of the model alone. *)
Theorem processobjsec_accepts (sectiontokens : sections) b b' :
  processobjsec sectiontokens b = Ok b' ->
  Forall (fun t => expr_token true t = true) (sectiontokens OBJ) /\
  grows b b' /\ same_sense_constraints_soss b b'.
Proof.
  unfold processobjsec.
  intros ([[e1 i1] b1] & Hexpr & Hrest)%bind_Ok.
  apply bind_Ok in Hrest as (u & Hend & [= <-]).
  apply lpassert_Ok, Nat.eqb_eq in Hend.
  pose proof (interns_model _ _ (parseexpression_interns _ _ _ _ _ _ _ _ Hexpr))
    as (Hs' & _ & Hc & Hs).
  eapply (parseexpression_spec (fun t => expr_token true t)) in Hexpr
    as (_ & Hg & Hpre); [|done].
  split; [|split; [done|by repeat split]].
  eapply prefix_ok_all; [apply Hpre|lia]. intros k t Hk. lia.
Qed.

Lemma processobjsec_accepts_witness :
  Forall (fun t => expr_token true t = true) obj_linear.
Proof.
  refine (proj1 (processobjsec_accepts (<[OBJ := obj_linear]> no_sections)
                   new_Builder _ eq_refl)).
Defined.

Lemma parse_sostype_spec sostype ty :
  parse_sostype sostype = Ok ty <->
  ((sostype = "S1" \/ sostype = "s1") /\ ty = 1) \/
  ((sostype = "S2" \/ sostype = "s2") /\ ty = 2).
Proof.
  unfold parse_sostype. split.
  - destruct sostype as [|c0 [|c1 [|]]]; try discriminate.
    intros (? & H0%lpassert_Ok%orb_true_iff & (? & H1%lpassert_Ok%orb_true_iff & [= <-])
              %bind_Ok)%bind_Ok.
    destruct H0 as [->%bool_decide_eq_true| ->%bool_decide_eq_true],
      H1 as [->%bool_decide_eq_true| ->%bool_decide_eq_true]; simpl; tauto.
  - intros [[[-> | ->] ->]|[[-> | ->] ->]]; reflexivity.
Qed.

Lemma sosentry_loop_entries tokens fuel entries i b entries' i' b' :
  while_loop fuel (fun s => (s.1.2 <? length tokens)%nat) (sosentry_step tokens)
    (entries, i, b) = Ok (entries', i', b') ->
  (forall x w, (x, w) ∈ entries -> is_Some (variables b !! x)) ->
  prefix_ok sos_token tokens i ->
  (forall x w, (x, w) ∈ entries' -> is_Some (variables b' !! x)) /\
  prefix_ok sos_token tokens i'.
Proof.
  intros Hloop Hentries Hpre. revert Hloop.
  apply (while_loop_inv _ _
    (fun s => (forall x w, (x, w) ∈ s.1.1 -> is_Some (variables s.2 !! x)) /\
              prefix_ok sos_token tokens s.1.2)); [|done].
  intros [[e2 i2] b2] [[e3 i3] b3] [He Hp] _. unfold sosentry_step. simpl in *.
  repeat (case_match; try discriminate); intros ?; simplify_eq.
  match goal with
  | H : getvarbyname _ _ = _ |- _ => apply getvarbyname_grows in H as (-> & Hg & Hs)
  end.
  split.
  - intros x w [Hin|Hin%list_elem_of_singleton]%elem_of_app.
    + eapply grows_is_Some; [done|by eapply He].
    + by simplify_eq.
  - revert Hp. extend_prefix_by (fun t (H : sos_token t = true) => H) i2.
Qed.

Lemma processsossec_step_sos tokens i b i' b' :
  processsossec_step tokens (i, b) = Ok (Some (i', b')) ->
  prefix_ok sos_token tokens i ->
  prefix_ok sos_token tokens i' /\
  sense (model b') = sense (model b) /\
  objective (model b') = objective (model b) /\
  constraints (model b') = constraints (model b) /\
  exists g, soss (model b') = soss (model b) ++ [g] /\ sos_ok b' g.
Proof.
  unfold processsossec_step. intros Hstep Hpre.
  destruct (tokens !! i) as [[]|] eqn:Ht0; try discriminate.
  destruct (tokens !! (i + 1)) as [[]|] eqn:Ht1; try discriminate.
  apply bind_Ok in Hstep
    as (ty & Hty%parse_sostype_spec & ([[entries i1] b1] & Hloop & [= <- <-])%bind_Ok).
  pose proof Hloop as (Hs & Ho & Hc & Hss)%sosentry_loop_interns%interns_model.
  apply sosentry_loop_entries in Hloop as [Hentries Hpre1].
  - split; [done|]. simpl. rewrite Hs, Ho, Hc, Hss. repeat split.
    eexists. split; [done|]. split; [simpl; tauto|done].
  - by intros x w ?%elem_of_nil.
  - replace (i + 1 + 1) with (i + 2) by lia. revert Hpre.
    extend_prefix_by (fun t (H : sos_token t = true) => H) i.
Qed.

(** X8. When the SOS section is accepted, its bucket holds only labels, SOS
    types and constants; every SOS set it appends to the model has type 1 or
    2 (its type token is S1, s1, S2 or s2) and entries whose variables are in
    the store; the sets already in the model, the sense, the objective and
    the constraints are kept, and no variable that exists is changed. *)
Theorem processsossec_accepts (sectiontokens : sections) b b' :
  processsossec sectiontokens b = Ok b' ->
  Forall (fun t => sos_token t = true) (sectiontokens SOS) /\
  (exists new, soss (model b') = soss (model b) ++ new /\ Forall (sos_ok b') new) /\
  sense (model b') = sense (model b) /\
  objective (model b') = objective (model b) /\
  constraints (model b') = constraints (model b) /\
  grows b b'.
Proof.
  intros Hsec. pose proof Hsec as Hgrows%processsossec_spec.
  unfold processsossec in Hsec. apply bind_Ok in Hsec as ([i1 b1] & Hloop & [= <-]).
  pose proof Hloop as Hexit%while_loop_exit.
  revert Hloop.
  intros Hinv%(while_loop_inv _ _
    (fun s => prefix_ok sos_token (sectiontokens SOS) s.1 /\
              (exists new, soss (model s.2) = soss (model b) ++ new /\
                           Forall (sos_ok s.2) new) /\
              sense (model s.2) = sense (model b) /\
              objective (model s.2) = objective (model b) /\
              constraints (model s.2) = constraints (model b))).
  - destruct Hinv as (Hpre & Hnew & Hs & Ho & Hc). repeat split; try done.
    destruct Hexit as [Hc'%Nat.ltb_ge|[_ Hbreak]]; [by eapply prefix_ok_all|].
    unfold processsossec_step in Hbreak. simpl in Hbreak.
    repeat (case_match; try discriminate).
    by apply bind_Ok in Hbreak as (? & _ & ([[? ?] ?] & _ & ?)%bind_Ok).
  - intros [i2 b2] [i3 b3] (Hpre & (new & Hnew & Hok) & Hs & Ho & Hc) _ Hstep.
    simpl in *. pose proof Hstep as [_ Hg]%processsossec_step_spec.
    apply processsossec_step_sos in Hstep as (Hpre' & Hs' & Ho' & Hc' & g & Hg' & Hgok);
      [|done].
    split; [done|]. split; [|by rewrite Hs', Ho', Hc'].
    exists (new ++ [g]). rewrite Hg', Hnew, app_assoc. split; [done|].
    apply Forall_app. split; [|by apply Forall_singleton].
    eapply Forall_impl; [|exact Hok]. intros g0 [Hty Hent]. split; [done|].
    intros x w Hin. eapply grows_is_Some; [done|by eapply Hent].
  - simpl. split; [intros k t Hk; lia|]. split; [|done].
    exists []. by rewrite app_nil_r.
Qed.

Lemma processsossec_accepts_witness :
  Forall (fun t => sos_token t = true) sos_g1.
Proof.
  refine (proj1 (processsossec_accepts (<[SOS := sos_g1]> no_sections)
                   new_Builder _ eq_refl)).
Defined.

(** ** The bounds section, the other entries *)

Lemma same_model_parts_refl b : same_model_parts b b.
Proof. done. Qed.

Lemma same_model_parts_trans b1 b2 b3 :
  same_model_parts b1 b2 -> same_model_parts b2 b3 -> same_model_parts b1 b3.
Proof.
  intros (? & ? & ? & ?) (? & ? & ? & ?). repeat split; congruence.
Qed.

Lemma getvarbyname_model name b var b' :
  getvarbyname name b = (var, b') -> same_model_parts b b'.
Proof. intros H%interns_one. by apply interns_model. Qed.

Lemma processboundssec_step_model tokens i b i' b' :
  processboundssec_step tokens (i, b) = Ok (Some (i', b')) -> same_model_parts b b'.
Proof.
  unfold processboundssec_step.
  repeat (case_match; try discriminate); simpl;
    intros ?; simplify_eq;
    repeat match goal with
           | H : bind _ _ = Ok _ |- _ => apply bind_Ok in H as (? & ? & ?); simplify_eq
           | H : getvarbyname _ _ = _ |- _ => apply getvarbyname_model in H
           end;
    simplify_eq; done.
Qed.

(** X9. The entries of the bounds section that hold no single comparison:
    [x free] sets the bounds of [x] to -infinity and +infinity; the
    double-sided entry [lb <= x <= ub] sets both bounds, and fails with a
    parse error when either comparison is not [<=]; an entry that begins with
    neither a variable nor a constant is a parse error. *)
Theorem bounds_free_and_double tokens :
  (forall i b name,
     tokens !! i = Some (VARID name) -> tokens !! (i + 1) = Some FREE ->
     bound_written (fun v => set_upperbound infinity (set_lowerbound neg_infinity v))
       name (i + 2) b (processboundssec_step tokens (i, b))) /\
  (forall i b lb dir1 name dir2 ub,
     tokens !! i = Some (CONST lb) -> tokens !! (i + 1) = Some (COMP dir1) ->
     tokens !! (i + 2) = Some (VARID name) -> tokens !! (i + 3) = Some (COMP dir2) ->
     tokens !! (i + 4) = Some (CONST ub) ->
     if decide (dir1 = LEQ /\ dir2 = LEQ) then
       bound_written (fun v => set_upperbound ub (set_lowerbound lb v))
         name (i + 5) b (processboundssec_step tokens (i, b))
     else processboundssec_step tokens (i, b) = Err ParseError) /\
  (forall i b t,
     tokens !! i = Some t ->
     (forall name, t <> VARID name) -> (forall value, t <> CONST value) ->
     processboundssec_step tokens (i, b) = Err ParseError).
Proof.
  split; [|split].
  - intros i b name H0 H1. unfold processboundssec_step, bound_written.
    rewrite H0, H1.
    destruct (getvarbyname name b) as [var b1] eqn:Hvar.
    apply getvarbyname_updates in Hvar as [-> Hu].
    eexists. split; [done|]. by repeat apply update_var_updates.
  - intros i b lb dir1 name dir2 ub H0 H1 H2 H3 H4.
    unfold processboundssec_step, bound_written. rewrite H0, H1, H2, H3, H4.
    destruct (getvarbyname name b) as [var b1] eqn:Hvar.
    apply getvarbyname_updates in Hvar as [-> Hu].
    case_decide as Hdir.
    + destruct Hdir as [-> ->]. simpl.
      eexists. split; [done|]. by repeat apply update_var_updates.
    + destruct dir1, dir2; simpl; try done. by destruct Hdir.
  - intros i b t H0 Hvar Hconst. unfold processboundssec_step. rewrite H0.
    destruct t; try done; [by destruct (Hvar name)|by destruct (Hconst value)].
Qed.

Lemma bounds_free_and_double_witness :
  bound_written (fun v => set_upperbound infinity (set_lowerbound neg_infinity v))
    "x" 2 new_Builder (processboundssec_step bounds_free (0, new_Builder)) /\
  bound_written (fun v => set_upperbound 5%float (set_lowerbound 0%float v))
    "x" 5 new_Builder (processboundssec_step bounds_double (0, new_Builder)) /\
  processboundssec_step bounds_double_geq (0, new_Builder) = Err ParseError.
Proof.
  split; [|split].
  - exact (proj1 (bounds_free_and_double bounds_free) 0 new_Builder "x" eq_refl eq_refl).
  - exact (proj1 (proj2 (bounds_free_and_double bounds_double)) 0 new_Builder
             0%float LEQ "x" LEQ 5%float eq_refl eq_refl eq_refl eq_refl eq_refl).
  - exact (proj1 (proj2 (bounds_free_and_double bounds_double_geq)) 0 new_Builder
             5%float GEQ "x" GEQ 0%float eq_refl eq_refl eq_refl eq_refl eq_refl).
Defined.

(** X10. The bounds section writes bounds and nothing else: when it is
    accepted, every variable keeps its type, no variable is forgotten, and
    the sense, the objective, the constraints and the SOS sets of the model
    are the same as before. *)
Theorem processboundssec_accepts (sectiontokens : sections) b b' :
  processboundssec sectiontokens b = Ok b' ->
  (forall x, type_of b' x = type_of b x) /\
  (forall x, is_Some (variables b !! x) -> is_Some (variables b' !! x)) /\
  same_model_parts b b'.
Proof.
  intros Hsec. pose proof Hsec as [Hkeep _]%processboundssec_spec.
  split; [intros x; by destruct (Hkeep x)|].
  split; [intros x; by destruct (Hkeep x)|].
  unfold processboundssec in Hsec. apply bind_Ok in Hsec as ([i1 b1] & Hloop & [= <-]).
  revert Hloop. apply (while_loop_inv _ _ (fun s => same_model_parts b s.2)); [|done].
  intros [i2 b2] [i3 b3] Hb _ Hstep%processboundssec_step_model.
  by eapply same_model_parts_trans.
Qed.

(** The type of [x] after the bounds [0 <= x <= 5]. *)
Lemma processboundssec_accepts_witness :
  exists b', processboundssec (<[BOUNDS := bounds_double]> no_sections) new_Builder = Ok b' /\
             type_of b' "x" = CONTINUOUS.
Proof.
  eexists. split; [reflexivity|].
  exact (proj1 (processboundssec_accepts (<[BOUNDS := bounds_double]> no_sections)
                  new_Builder _ eq_refl) "x").
Defined.

Lemma updates_var_of name v' b b' x :
  updates name v' b b' ->
  var_of b' x = if decide (x = name) then v' else var_of b x.
Proof.
  unfold updates, var_of. intros ->. case_decide as Hx.
  - subst. by rewrite lookup_insert_eq.
  - by rewrite lookup_insert_ne.
Qed.

Section for_tokens_frame.

Context (body : ProcessedToken -> Builder -> result Builder).

Context (K : Variable_ -> Variable_ -> Prop).

Hypothesis K_refl : forall v, K v v.

Hypothesis K_trans : forall v1 v2 v3, K v1 v2 -> K v2 v3 -> K v1 v3.

Hypothesis body_frame : forall t b b',
  body t b = Ok b' ->
  exists name v', t = VARID name /\ updates name v' b b' /\
                  K (var_of b name) v' /\ same_model_parts b b'.

Lemma for_tokens_frame tokens b b' :
  for_tokens body tokens b = Ok b' ->
  Forall is_varid tokens /\
  (forall x, K (var_of b x) (var_of b' x)) /\
  same_model_parts b b'.
Proof.
  revert b. induction tokens as [|t tokens IH]; intros b; simpl.
  - intros [= <-]. by repeat split.
  - intros (b1 & Hbody & Hrest)%bind_Ok.
    apply body_frame in Hbody as (name & v' & -> & Hu & HK & Hm).
    apply IH in Hrest as (Hall & HK' & Hm').
    split; [constructor; [by eexists|done]|].
    split; [|by eapply same_model_parts_trans].
    intros x. eapply K_trans; [|apply HK'].
    rewrite (updates_var_of _ _ _ _ x Hu). case_decide; [by subst|done].
Qed.

End for_tokens_frame.

Lemma processgensec_body_frame t b b' :
  processgensec_body t b = Ok b' ->
  exists name v', t = VARID name /\ updates name v' b b' /\
                  same_bounds (var_of b name) v' /\ same_model_parts b b'.
Proof.
  destruct t; try discriminate. simpl.
  destruct (getvarbyname name b) as [var b1] eqn:Hvar.
  pose proof Hvar as Hm%getvarbyname_model.
  apply getvarbyname_updates in Hvar as [-> Hu].
  case_match; intros [= <-]; eexists _, _; (split; [done|]);
    (split; [by apply update_var_updates|]); done.
Qed.

Lemma processsemisec_body_frame t b b' :
  processsemisec_body t b = Ok b' ->
  exists name v', t = VARID name /\ updates name v' b b' /\
                  same_bounds (var_of b name) v' /\ same_model_parts b b'.
Proof.
  destruct t; try discriminate. simpl.
  destruct (getvarbyname name b) as [var b1] eqn:Hvar.
  pose proof Hvar as Hm%getvarbyname_model.
  apply getvarbyname_updates in Hvar as [-> Hu].
  case_match; intros [= <-]; eexists _, _; (split; [done|]);
    (split; [by apply update_var_updates|]); done.
Qed.

Lemma processbinsec_body_frame t b b' :
  processbinsec_body t b = Ok b' ->
  exists name v', t = VARID name /\ updates name v' b b' /\
                  True /\ same_model_parts b b'.
Proof.
  destruct t; try discriminate. simpl.
  destruct (getvarbyname name b) as [var b1] eqn:Hvar.
  pose proof Hvar as Hm%getvarbyname_model.
  apply getvarbyname_updates in Hvar as [-> Hu].
  intros [= <-]; eexists _, _; (split; [done|]);
    (split; [by repeat apply update_var_updates|]); done.
Qed.

(** X11. The general, binary and semi-continuous sections take variables
    only: when one of them is accepted, every token of its bucket is a
    VARIABLE_ID, and the sense, the objective, the constraints and the SOS
    sets of the model are the same as before.  The general and the
    semi-continuous section leave the bounds of every variable as they
    were. *)
Theorem type_sections_accept (sectiontokens : sections) b b' :
  (processgensec sectiontokens b = Ok b' ->
   Forall is_varid (sectiontokens GEN) /\ same_model_parts b b' /\
   forall x, bounds_of (var_of b' x) = bounds_of (var_of b x)) /\
  (processbinsec sectiontokens b = Ok b' ->
   Forall is_varid (sectiontokens BIN) /\ same_model_parts b b') /\
  (processsemisec sectiontokens b = Ok b' ->
   Forall is_varid (sectiontokens SEMI) /\ same_model_parts b b' /\
   forall x, bounds_of (var_of b' x) = bounds_of (var_of b x)).
Proof.
  split; [|split].
  - intros (? & ? & ?)%(for_tokens_frame _ same_bounds); [done|done|..].
    + intros v1 v2 v3. unfold same_bounds. congruence.
    + apply processgensec_body_frame.
  - intros (? & ? & ?)%(for_tokens_frame _ (fun _ _ => True)); [done|done|done|].
    apply processbinsec_body_frame.
  - intros (? & ? & ?)%(for_tokens_frame _ same_bounds); [done|done|..].
    + intros v1 v2 v3. unfold same_bounds. congruence.
    + apply processsemisec_body_frame.
Qed.

Lemma type_sections_accept_witness : Forall is_varid gen_x_y.
Proof.
  refine (proj1 (proj1 (type_sections_accept (<[GEN := gen_x_y]> no_sections)
                          new_Builder _) eq_refl)).
Defined.

(** ** Termination and types, from the pieces above *)

(** X12. Every loop of the reader advances its cursor, so the fuel of the
    embedding, the size of the vector a loop walks, is never used up: the
    classifier, the expression parser, the section processors with a cursor
    and the whole read end with a result or with an error of the reader. *)
Theorem reader_terminates :
  (forall rawtokens, processtokens rawtokens <> Err OutOfFuel) /\
  (forall tokens e i isobj b, parseexpression tokens e i isobj b <> Err OutOfFuel) /\
  (forall sectiontokens b,
     processobjsec sectiontokens b <> Err OutOfFuel /\
     processconsec sectiontokens b <> Err OutOfFuel /\
     processboundssec sectiontokens b <> Err OutOfFuel /\
     processsossec sectiontokens b <> Err OutOfFuel) /\
  (forall rawtokens, read_tokens rawtokens <> Err OutOfFuel).
Proof.
  split; [apply processtokens_terminates|].
  split; [apply parseexpression_terminates|].
  split; [|apply read_tokens_terminates].
  intros sectiontokens b.
  split; [apply processobjsec_terminates|].
  split; [apply processconsec_terminates|].
  split; [apply processboundssec_terminates|apply processsossec_terminates].
Qed.

Lemma type_of_is_Some b x : type_of b x <> CONTINUOUS -> is_Some (variables b !! x).
Proof. unfold type_of. by destruct (variables b !! x). Qed.

(** X13. For every successfully parsed file: a variable named in the binary
    section and not in the semi-continuous section ends binary, whatever the
    general section says, because the binary section is processed after the
    general one; and a variable of the model that is named in none of the
    three type sections is continuous. *)
Theorem binary_overrides_general rawtokens processedtokens sectiontokens b0 b x :
  processtokens rawtokens = Ok processedtokens ->
  splittokens processedtokens new_Builder = Ok (sectiontokens, b0) ->
  processsections sectiontokens b0 = Ok b ->
  (0 < mentions x (sectiontokens BIN) -> mentions x (sectiontokens SEMI) = 0 ->
   has_type b x BINARY) /\
  (mentions x (sectiontokens GEN) = 0 -> mentions x (sectiontokens BIN) = 0 ->
   mentions x (sectiontokens SEMI) = 0 ->
   forall v, variables b !! x = Some v -> var_type v = CONTINUOUS).
Proof.
  intros _ Hsplit Hsections.
  apply splittokens_loop_variables in Hsplit.
  apply processsections_spec in Hsections as (Hty & _ & _); [|done].
  specialize (Hty x). rewrite iter_gen_type, iter_bin_type in Hty. split.
  - intros Hbin Hsemi. rewrite Hsemi in Hty.
    destruct (mentions x (sectiontokens BIN)); [lia|]. simpl in Hty.
    apply has_type_type_of; [|done]. apply type_of_is_Some. by rewrite Hty.
  - intros Hgen Hbin Hsemi v Hv. rewrite Hgen, Hbin, Hsemi in Hty. simpl in Hty.
    unfold type_of in Hty. by rewrite Hv in Hty.
Qed.

Lemma binary_overrides_general_witness :
  exists b, read_tokens lp_general_binary = Ok b /\ has_type b "x" BINARY.
Proof.
  eexists. split; [reflexivity|].
  eapply (proj1 (binary_overrides_general lp_general_binary _ _ _ _ "x"
                   eq_refl eq_refl eq_refl));
    [cbv; lia|reflexivity].
Defined.

Lemma processconsec_step_appends tokens i b i' b' :
  processconsec_step tokens (i, b) = Ok (Some (i', b')) ->
  appends_constraints b b'.
Proof.
  unfold processconsec_step.
  intros ([[e1 i1] b1] & Hexpr%parseexpression_interns%interns_model & Hrest)%bind_Ok.
  destruct Hexpr as (Hs & Ho & Hc & Hsos).
  destruct (tokens !! i1) as [[]|]; try discriminate.
  destruct (tokens !! (i1 + 1)) as [[]|]; try discriminate.
  apply bind_Ok in Hrest as (con & Hcon & [= <- <-]).
  unfold appends_constraints; simpl. rewrite Hs, Ho, Hc, Hsos.
  repeat split; try done. exists [con]. split; [done|].
  apply Forall_singleton. unfold one_sided_or_equal.
  destruct dir; simplify_eq; simpl; auto.
Qed.

(** X18. When the constraints section is accepted, the sense, the objective
    and the SOS sets of the model are as before, and the constraints are the
    former ones followed by new ones, each with a default on one side or
    with the same value on both. *)
Theorem processconsec_accepts sectiontokens b b' :
  processconsec sectiontokens b = Ok b' ->
  appends_constraints b b'.
Proof.
  unfold processconsec. intros ([i1 b1] & Hloop & [= <-])%bind_Ok.
  revert Hloop.
  apply (while_loop_inv _ _ (fun s => appends_constraints b s.2)).
  - intros [i2 b2] [i3 b3] (Hs & Ho & Hsos & new & Hc & Hnew) _
      (Hs' & Ho' & Hsos' & new' & Hc' & Hnew')%processconsec_step_appends.
    simpl in *. unfold appends_constraints.
    rewrite Hs', Ho', Hsos', Hc', Hc. repeat split; try done.
    exists (new ++ new'). split; [by rewrite app_assoc|by apply Forall_app].
  - simpl. repeat split; try done. exists []. by rewrite app_nil_r.
Qed.

Lemma processconsec_accepts_witness :
  exists b', processconsec (<[CON := con_quadratic]> no_sections) new_Builder = Ok b' /\
             appends_constraints new_Builder b'.
Proof.
  eexists. split; [reflexivity|].
  by apply (processconsec_accepts (<[CON := con_quadratic]> no_sections)).
Defined.

(** ** The lexer *)

(* ------------------------------------------------------------------ *)

Lemma get_lt s i c : String.get i s = Some c -> i < String.length s.
Proof.
  revert i; induction s as [|a s IH]; intros [|i]; simpl; try discriminate; try lia.
  intros H%IH; lia.
Qed.

Lemma get_ge s i : String.length s <= i -> String.get i s = None.
Proof.
  revert i; induction s as [|a s IH]; intros [|i]; simpl; try done; try lia.
  intros ?; apply IH; lia.
Qed.

Lemma char_at_ge s i : String.length s <= i -> char_at s i = "000"%char.
Proof. intros H; unfold char_at; by rewrite get_ge. Qed.

Lemma length_substring n m s :
  String.length (String.substring n m s) = min m (String.length s - n).
Proof.
  revert n m; induction s as [|a s IH]; intros [|n] [|m]; simpl;
    rewrite ?IH; try lia.
  destruct (String.length s - n); lia.
Qed.

Lemma until_null_length s : String.length (until_null s) <= String.length s.
Proof. induction s as [|a s IH]; simpl; [done|]; case_decide; simpl; lia. Qed.

Lemma c_str_at_length lb pos :
  String.length (c_str_at lb pos) <= String.length lb - pos.
Proof.
  unfold c_str_at. etrans; [apply until_null_length|].
  rewrite length_substring; lia.
Qed.

Lemma drop_cr_length line : String.length (drop_cr line) <= String.length line.
Proof.
  induction line as [|a [|b s] IH]; simpl in *; [done| |lia].
  case_decide; simpl; lia.
Qed.

Lemma drop_cr_null line : has_null line = false -> has_null (drop_cr line) = false.
Proof.
  induction line as [|a [|b s] IH]; simpl in *; [done| |].
  - case_decide; simpl; [done|]. done.
  - intros [Ha Hs]%orb_false_iff. rewrite Ha; simpl. by apply IH.
Qed.

Lemma has_null_char_at s i :
  has_null s = false -> i < String.length s -> char_at s i <> "000"%char.
Proof.
  revert i; induction s as [|a s IH]; intros i; simpl; [lia|].
  intros [Ha Hs]%orb_false_iff Hi. destruct i as [|i].
  - unfold char_at; simpl. by apply bool_decide_eq_false in Ha.
  - change (char_at (String a s) (S i)) with (char_at s i). apply IH; [done|lia].
Qed.

Lemma find_first_of_Some lb pos e :
  find_first_of lb pos = Some e ->
  pos <= e < String.length lb /\ is_delimiter (char_at lb e) = true /\
  forall j, pos <= j < e -> is_delimiter (char_at lb j) = false.
Proof.
  revert pos e; induction lb as [|c lb IH]; intros pos e; simpl; [done|].
  destruct pos as [|pos].
  - destruct (is_delimiter c) eqn:Hc.
    + intros [= <-]. split; [lia|]. split; [done|]. intros; lia.
    + intros (e' & (Hr & Hd & Hn)%IH & ->)%fmap_Some.
      split; [lia|]. split; [done|].
      intros [|j] Hj; [done|]. apply Hn; lia.
  - intros (e' & (Hr & Hd & Hn)%IH & ->)%fmap_Some.
    split; [lia|]. split; [done|].
    intros [|j] Hj; [lia|]. apply Hn; lia.
Qed.

Lemma find_first_of_None lb pos :
  find_first_of lb pos = None ->
  forall j, pos <= j < String.length lb -> is_delimiter (char_at lb j) = false.
Proof.
  revert pos; induction lb as [|c lb IH]; intros pos; simpl; [intros; lia|].
  destruct pos as [|pos].
  - destruct (is_delimiter c) eqn:Hc; [done|].
    intros H%fmap_None [|j] Hj; [done|]. apply (IH 0); [done|lia].
  - intros H%fmap_None [|j] Hj; [lia|]. apply (IH pos); [done|lia].
Qed.

(** Every delimiter of the identifier scan is a case of the switch. *)
Lemma is_delimiter_switch c :
  is_delimiter c = true ->
  c = "\"%char \/ single_character c <> None \/
  (c = " "%char \/ c = "009"%char) \/ (c = ";"%char \/ c = "010"%char).
Proof.
  unfold is_delimiter, delimiters. intros H%bool_decide_eq_true.
  repeat (apply elem_of_cons in H as [->|H]); try (right; left; done);
    try (right; right; left; auto; done); try (right; right; right; auto; done);
    try (left; done).
  by apply elem_of_nil in H.
Qed.

Lemma single_character_lexeme c t :
  single_character c = Some t -> lexeme t /\ forall s, t <> Raw.STR s.
Proof.
  unfold single_character. repeat case_decide; intros; simplify_eq; done.
Qed.

(** The identifier case of [scan]: what it returns once the switch and the
    conversion have passed. *)
Lemma identifier_case lb pos :
  char_at lb pos <> "000"%char ->
  is_delimiter (char_at lb pos) = false ->
  let endpos := default (String.length lb) (find_first_of lb pos) in
  pos < endpos <= String.length lb /\
  (forall j, pos <= j < endpos -> is_delimiter (char_at lb j) = false) /\
  (endpos = String.length lb \/ is_delimiter (char_at lb endpos) = true).
Proof.
  intros Hnul Hdel.
  assert (pos < String.length lb) as Hpos.
  { destruct (decide (pos < String.length lb)); [done|].
    exfalso; apply Hnul, char_at_ge; lia. }
  destruct (find_first_of lb pos) as [e|] eqn:Hfind; simpl.
  - apply find_first_of_Some in Hfind as (Hr & Hd & Hn).
    assert (e <> pos) by (intros ->; congruence).
    split; [lia|]. split; [done|]. by right.
  - split; [lia|]. split; [|by left].
    by apply find_first_of_None.
Qed.

Lemma scan_cases lb pos :
  let nextchar := char_at lb pos in
  (nextchar = "\"%char \/ single_character nextchar <> None \/
   (nextchar = " "%char \/ nextchar = "009"%char) \/
   (nextchar = ";"%char \/ nextchar = "010"%char) \/ nextchar = "000"%char) \/
  (nextchar <> "000"%char /\ is_delimiter nextchar = false).
Proof.
  intros nextchar.
  destruct (decide (nextchar = "000"%char)); [left; auto 10|].
  destruct (is_delimiter nextchar) eqn:Hd; [|by right].
  left. apply is_delimiter_switch in Hd. tauto.
Qed.

Section lexer_facts.

Context (strtod : string -> float * nat).

Lemma scan_never_lpassert lb pos : scan strtod lb pos <> ScanLpassertFails.
Proof.
  unfold scan.
  repeat first [case_decide | case_match]; try done.
  intros _.
  destruct (scan_cases lb pos) as [Hc|[Hnul Hdel]].
  - destruct Hc as [?|[?|[?|[?|?]]]]; done.
  - destruct (identifier_case lb pos Hnul Hdel) as (? & _). lia.
Qed.

Lemma scan_spec lb pos :
  (forall s, (strtod s).2 <= String.length s) ->
  pos <= String.length lb ->
  scan_result lb pos (scan strtod lb pos).
Proof.
  intros Hstrtod Hpos. unfold scan.
  assert (char_at lb pos <> "000"%char -> pos < String.length lb) as Hin.
  { intros Hnul. destruct (decide (pos < String.length lb)); [done|].
    exfalso; apply Hnul, char_at_ge; lia. }
  case_decide as Hc1.
  { destruct (decide (pos = String.length lb)) as [->|]; [apply scan_stay; done|].
    apply scan_move; lia. }
  destruct (single_character (char_at lb pos)) as [t|] eqn:Hsingle.
  { apply scan_emit; [by eapply single_character_lexeme|].
    assert (char_at lb pos <> "000"%char)
      by (intros Heq; rewrite Heq in Hsingle; vm_compute in Hsingle; done).
    specialize (Hin ltac:(done)). lia. }
  case_decide as Hc2.
  { apply scan_move.
    assert (char_at lb pos <> "000"%char) by (destruct Hc2 as [Heq|Heq]; rewrite Heq; done).
    specialize (Hin ltac:(done)). lia. }
  case_decide as Hc3.
  { assert (char_at lb pos <> "000"%char) by (destruct Hc3 as [Heq|Heq]; rewrite Heq; done).
    specialize (Hin ltac:(done)). apply scan_move; lia. }
  case_decide as Hc4.
  { case_decide; [subst; by apply scan_stay|]. apply scan_assert; [lia|done]. }
  specialize (Hin Hc4).
  destruct (strtod (c_str_at lb pos)) as [constant converted] eqn:Hconv.
  case_decide as Hc5.
  { apply scan_emit; [done|].
    pose proof (Hstrtod (c_str_at lb pos)) as Hle. rewrite Hconv in Hle; simpl in Hle.
    pose proof (c_str_at_length lb pos). lia. }
  destruct (scan_cases lb pos) as [Hc|[Hnul Hdel]].
  { exfalso. destruct Hc as [?|[?|[?|[?|?]]]]; done. }
  destruct (identifier_case lb pos Hnul Hdel) as (Hr & _).
  rewrite decide_True by lia. apply scan_emit; [done|lia].
Qed.

End lexer_facts.

Section lexer_theorems.

Context (strtod : string -> float * nat).

Lemma scan_in_never_lpassert r : scan_in strtod r <> LpassertFails.
Proof.
  unfold scan_in. pose proof (scan_never_lpassert strtod (linebuffer r) (linebufferpos r)).
  by destruct (scan _ _ _).
Qed.

Lemma readnexttoken_never_lpassert r : readnexttoken strtod r <> LpassertFails.
Proof.
  unfold readnexttoken. case_decide; [|apply scan_in_never_lpassert].
  destruct (file r); [done|apply scan_in_never_lpassert].
Qed.

Lemma scan_in_spec r :
  (forall s, (strtod s).2 <= String.length s) ->
  linebufferpos r <= String.length (linebuffer r) ->
  match scan_in strtod r with
  | Returns r' =>
      file r' = file r /\ linebuffer r' = linebuffer r /\
      linebufferpos r' <= String.length (linebuffer r') /\
      (linebufferpos r < linebufferpos r' \/
       linebufferpos r = String.length (linebuffer r) /\ linebufferpos r' = linebufferpos r) /\
      exists ts, rawtokens r' = rawtokens r ++ ts /\ length ts <= 1 /\ Forall lexeme ts
  | AssertFails =>
      linebufferpos r < String.length (linebuffer r) /\
      char_at (linebuffer r) (linebufferpos r) = "000"%char
  | LpassertFails => False
  end.
Proof.
  intros Hstrtod Hpos. unfold scan_in.
  destruct (scan_spec strtod _ _ Hstrtod Hpos) as [t pos' Ht Hr|pos' Hr|Heq|Hlt Hnul];
    simpl; repeat split; try done; try lia.
  - exists [t]. repeat split; [simpl; lia|by apply Forall_singleton].
  - exists []. rewrite app_nil_r. repeat split; [simpl; lia|done].
  - exists []. rewrite app_nil_r. repeat split; [simpl; lia|done].
Qed.

Lemma readnexttoken_step r r' :
  (forall s, (strtod s).2 <= String.length s) ->
  linebufferpos r <= String.length (linebuffer r) ->
  readnexttoken strtod r = Returns r' ->
  linebufferpos r' <= String.length (linebuffer r') /\
  (ends_file r r' \/ lexes r r').
Proof.
  intros Hstrtod Hpos. unfold readnexttoken.
  case_decide as Hend.
  - destruct (file r) as [|line rest] eqn:Hfile.
    + intros [= <-]; simpl. split; [done|]. left. by repeat split.
    + intros Hscan.
      pose proof (scan_in_spec
        {| file := rest; linebuffer := drop_cr line; linebufferpos := 0;
           rawtokens := rawtokens r |} Hstrtod ltac:(simpl; lia)) as Hspec.
      rewrite Hscan in Hspec; simpl in Hspec.
      destruct Hspec as (Hf & Hlb & Hle & _ & Hts).
      split; [done|]. right. split; [|done].
      unfold pending. rewrite Hf, Hlb, Hfile; simpl.
      pose proof (drop_cr_length line). lia.
  - intros Hscan. pose proof (scan_in_spec r Hstrtod Hpos) as Hspec.
    rewrite Hscan in Hspec.
    destruct Hspec as (Hf & Hlb & Hle & Hadv & Hts).
    split; [done|]. right. split; [|done].
    unfold pending. rewrite Hf, Hlb. rewrite Hlb in Hle. lia.
Qed.

Lemma scan_assert_inv lb pos :
  scan strtod lb pos = ScanAssertFails ->
  char_at lb pos = "000"%char /\ pos <> String.length lb.
Proof.
  unfold scan. repeat first [case_decide | case_match]; try done.
Qed.

Lemma readnexttoken_null_free r :
  linebufferpos r <= String.length (linebuffer r) ->
  null_free r = true ->
  readnexttoken strtod r <> AssertFails /\
  forall r', readnexttoken strtod r = Returns r' -> null_free r' = true.
Proof.
  intros Hpos Hnf.
  assert (forall r0, linebufferpos r0 <= String.length (linebuffer r0) ->
            null_free r0 = true ->
            scan_in strtod r0 <> AssertFails /\
            forall r', scan_in strtod r0 = Returns r' -> null_free r' = true) as Hscan.
  { intros r0 Hpos0 Hnf0. unfold scan_in.
    assert (has_null (linebuffer r0) = false) as Hlb.
    { unfold null_free in Hnf0; simpl in Hnf0.
      apply andb_true_iff in Hnf0 as [H%negb_true_iff _]; done. }
    destruct (scan strtod (linebuffer r0) (linebufferpos r0)) eqn:Hsc.
    - split; [done|]. by intros r' [= <-].
    - split; [done|]. by intros r' [= <-].
    - apply scan_assert_inv in Hsc as [Hnul Hne].
      exfalso. eapply has_null_char_at; [exact Hlb| |exact Hnul]. lia.
    - split; done. }
  unfold readnexttoken. case_decide as Hend; [|by apply Hscan].
  destruct (file r) as [|line rest] eqn:Hfile.
  - split; [done|]. intros r' [= <-]. unfold null_free in *; simpl in *.
    by apply andb_true_iff in Hnf as [-> _].
  - apply Hscan; [simpl; lia|].
    unfold null_free in *; simpl. rewrite Hfile in Hnf; simpl in Hnf.
    apply andb_true_iff in Hnf as [_ Hnf].
    apply andb_true_iff in Hnf as [Hline Hrest].
    rewrite Hrest, andb_true_r. apply negb_true_iff, drop_cr_null.
    by apply negb_true_iff.
Qed.

Lemma last_not_FLEND {A} (o : option RawToken) (a b : A) :
  o <> Some Raw.FLEND ->
  match o with Some Raw.FLEND => a | _ => b end = b.
Proof. destruct o as [[]|]; congruence. Qed.

Lemma tokenize_loop_spec fuel r :
  (forall s, (strtod s).2 <= String.length s) ->
  linebufferpos r <= String.length (linebuffer r) ->
  list.last (rawtokens r) <> Some Raw.FLEND ->
  pending r < fuel ->
  tokenize_loop strtod fuel r = Some AssertFails /\ null_free r = false \/
  exists r' ts,
    tokenize_loop strtod fuel r = Some (Returns r') /\
    rawtokens r' = rawtokens r ++ ts ++ [Raw.FLEND] /\ Forall lexeme ts /\
    file r' = [] /\ linebufferpos r' = String.length (linebuffer r').
Proof.
  intros Hstrtod. revert r; induction fuel as [|fuel IH]; intros r Hpos Hlast Hfuel;
    [lia|]. simpl.
  destruct (readnexttoken strtod r) as [r'| |] eqn:Hread.
  - destruct (readnexttoken_step r r' Hstrtod Hpos Hread) as [Hpos' [Hend|Hlex]].
    + destruct Hend as (_ & Hsize & Hfile & Hlb & Hp & Htok).
      rewrite Htok, last_snoc. right. exists r', []. simpl.
      repeat split; try done. congruence.
    + destruct Hlex as (Hpend & ts0 & Htok & Hlen & Hts0).
      assert (list.last (rawtokens r') <> Some Raw.FLEND) as Hlast'.
      { rewrite Htok. destruct ts0 as [|t [|? ?]]; simpl in Hlen; [| |lia].
        - by rewrite app_nil_r.
        - rewrite last_snoc. apply (proj1 (Forall_singleton _ _)) in Hts0.
          intros [= ->]; exact Hts0. }
      rewrite last_not_FLEND by done.
      destruct (IH r' Hpos' Hlast' ltac:(lia)) as [[Hfail Hnf]|(r'' & ts & Hrun & Htok' & Hts & Hfile & Hp)].
      * left. split; [done|].
        destruct (null_free r) eqn:Hnf0; [|done].
        destruct (readnexttoken_null_free r Hpos Hnf0) as [_ Hkeep].
        rewrite (Hkeep r' Hread) in Hnf; done.
      * right. exists r'', (ts0 ++ ts). repeat split; try done.
        -- rewrite Htok', Htok. by rewrite <- !app_assoc.
        -- by apply Forall_app.
  - left. split; [done|].
    destruct (null_free r) eqn:Hnf; [|done].
    by destruct (readnexttoken_null_free r Hpos Hnf) as [? _].
  - by apply readnexttoken_never_lpassert in Hread.
Qed.

End lexer_theorems.

(** X14. The parse error at the end of the lexer cannot be reached: a call
    returns, or stops at the assertion of the empty-line case. *)
Theorem readnexttoken_lpassert_unreachable strtod r :
  readnexttoken strtod r = AssertFails \/
  exists r', readnexttoken strtod r = Returns r'.
Proof.
  pose proof (readnexttoken_never_lpassert strtod r).
  destruct (readnexttoken strtod r); eauto; done.
Qed.

(** X15. One call of the lexer, with the position inside the line buffer:
    when it returns, the position is still inside the buffer, and the call
    has either marked the end of the file, no line being left, or consumed
    input and pushed at most one token, never a marker; the assertion fails
    only on a null character in the input. *)
Theorem readnexttoken_progress strtod r :
  (forall s, (strtod s).2 <= String.length s) ->
  linebufferpos r <= String.length (linebuffer r) ->
  match readnexttoken strtod r with
  | Returns r' =>
      linebufferpos r' <= String.length (linebuffer r') /\
      (ends_file r r' \/ lexes r r')
  | AssertFails => null_free r = false
  | LpassertFails => False
  end.
Proof.
  intros Hstrtod Hpos.
  destruct (readnexttoken strtod r) as [r'| |] eqn:Hread.
  - by apply (readnexttoken_step strtod r).
  - destruct (null_free r) eqn:Hnf; [|done].
    by destruct (readnexttoken_null_free strtod r Hpos Hnf) as [? _].
  - by apply readnexttoken_never_lpassert in Hread.
Qed.

(** X16. [tokenize] terminates on every file, and it fails only on a null
    character in the input; the raw tokens it adds are lexemes followed by
    one end-of-file token, and it leaves no line and no character unread. *)
Theorem tokenize_terminates strtod fuel r :
  (forall s, (strtod s).2 <= String.length s) ->
  list.last (rawtokens r) <> Some Raw.FLEND ->
  input_size r < fuel ->
  tokenize strtod fuel r = Some AssertFails /\ null_free r = false \/
  exists r' ts,
    tokenize strtod fuel r = Some (Returns r') /\
    rawtokens r' = rawtokens r ++ ts ++ [Raw.FLEND] /\ Forall lexeme ts /\
    file r' = [] /\ linebufferpos r' = String.length (linebuffer r').
Proof.
  intros Hstrtod Hlast Hfuel. unfold tokenize.
  apply (tokenize_loop_spec strtod fuel
    {| file := file r; linebuffer := linebuffer r; linebufferpos := 0;
       rawtokens := rawtokens r |}); simpl; try done; try lia.
  unfold pending, input_size in *; simpl; lia.
Qed.

(** X17. An identifier token is a non-empty piece of the line buffer that
    starts at the position and runs up to the next delimiter or to the end
    of the line: it holds no delimiter, and no number starts where it
    starts. *)
Theorem identifier_tokens strtod lb pos s pos' :
  scan strtod lb pos = Emit (Raw.STR s) pos' ->
  s = String.substring pos (String.length s) lb /\ s <> ""%string /\
  pos' = pos + String.length s /\ pos' <= String.length lb /\
  (forall i c, String.get i s = Some c -> is_delimiter c = false) /\
  (pos' = String.length lb \/ is_delimiter (char_at lb pos') = true) /\
  (strtod (c_str_at lb pos)).2 = 0.
Proof.
  unfold scan.
  case_decide as Hc1; [done|].
  destruct (single_character (char_at lb pos)) as [t|] eqn:Hsingle.
  { intros [= -> <-]. apply single_character_lexeme in Hsingle as [_ Hne].
    by destruct (Hne s). }
  case_decide as Hc2; [done|].
  case_decide as Hc3; [done|].
  case_decide as Hc4; [by case_decide|].
  destruct (strtod (c_str_at lb pos)) as [constant converted] eqn:Hconv.
  case_decide as Hc5; [done|].
  destruct (scan_cases lb pos) as [Hc|[Hnul Hdel]].
  { exfalso. destruct Hc as [?|[?|[?|[?|?]]]]; done. }
  destruct (identifier_case lb pos Hnul Hdel) as (Hr & Hin & Hmax).
  rewrite decide_True by lia. intros [= <- <-].
  set (endpos := default (String.length lb) (find_first_of lb pos)) in *.
  assert (String.length (String.substring pos (endpos - pos) lb) = endpos - pos) as Hlen.
  { rewrite length_substring; lia. }
  rewrite Hlen. repeat split; try done; try lia.
  - intros Hs. rewrite Hs in Hlen; simpl in Hlen; lia.
  - intros i c Hget. pose proof (get_lt _ _ _ Hget) as Hi. rewrite Hlen in Hi.
    rewrite String.substring_correct1 in Hget by done.
    specialize (Hin (i + pos) ltac:(lia)). unfold char_at in Hin.
    by rewrite Hget in Hin.
Qed.

Lemma strtod_digit_length s : (strtod_digit s).2 <= String.length s.
Proof. destruct s; simpl; [lia|]. repeat case_decide; simpl; lia. Qed.

Lemma readnexttoken_progress_witness :
  match readnexttoken strtod_digit (reader_on line_2_x) with
  | Returns r' =>
      linebufferpos r' <= String.length (linebuffer r') /\
      (ends_file (reader_on line_2_x) r' \/ lexes (reader_on line_2_x) r')
  | AssertFails => null_free (reader_on line_2_x) = false
  | LpassertFails => False
  end.
Proof.
  apply (readnexttoken_progress strtod_digit (reader_on line_2_x));
    [apply strtod_digit_length|simpl; lia].
Defined.

Lemma tokenize_terminates_witness :
  tokenize strtod_digit 20 (reader_on lines_min_2_x) = Some AssertFails /\
  null_free (reader_on lines_min_2_x) = false \/
  exists r' ts,
    tokenize strtod_digit 20 (reader_on lines_min_2_x) = Some (Returns r') /\
    rawtokens r' = rawtokens (reader_on lines_min_2_x) ++ ts ++ [Raw.FLEND] /\
    Forall lexeme ts /\
    file r' = [] /\ linebufferpos r' = String.length (linebuffer r').
Proof.
  apply (tokenize_terminates strtod_digit 20 (reader_on lines_min_2_x));
    [apply strtod_digit_length|done|vm_compute; lia].
Defined.

Lemma identifier_tokens_witness :
  scan strtod_digit "min 2 x" 0 = Emit (Raw.STR "min") 3 /\
  (forall i c, String.get i "min" = Some c -> is_delimiter c = false).
Proof.
  split; [reflexivity|].
  apply (identifier_tokens strtod_digit "min 2 x" 0 "min" 3 eq_refl).
Defined.
